(** * LSVD: a shallow embedding of the segment writer, the read path and
      the S3 segment access

    The development follows three source files of the repository:
    - [object.go]: [ObjectCreator] with [WriteExtent], [Reset], [Flush];
    - [disk.go]: [NewDisk], [readPartialExtent], [closeSegmentAsync],
      [S3ObjectReader.ReadAt], [S3Access.RemoveSegmentFromVolume].

    Go integers are modelled as [Z] with their wrap-around written out,
    byte slices as [list Z] (each element in [0, 256)), Go maps and the
    object store as stdpp finite maps.  External libraries (lz4, the S3
    client, the file system) are not part of the repository; their answers
    are parameters of the model. *)

From stdpp Require Import gmap strings list fin_maps.
From Stdlib Require Import ZArith Lia.

Local Open Scope Z_scope.

(** ** Machine integers *)

Definition uint32 (x : Z) : Z := x mod 2 ^ 32.
Definition uint64 (x : Z) : Z := x mod 2 ^ 64.

(** Go's [int] on the 64-bit targets the program is built for. *)
Definition maxInt : Z := 2 ^ 63 - 1.
Definition int (x : Z) : Z := (x + 2 ^ 63) mod 2 ^ 64 - 2 ^ 63.

(** [len] of a Go slice. *)
Definition len {A} (l : list A) : Z := Z.of_nat (length l).

(** ** Constants of [disk.go] *)

Definition BlockSize : Z := 4 * 1024.
Definition FlushThreshHold : Z := 15 * 1024 * 1024.

(** ** Errors

    One constructor per error the modelled functions build themselves; an
    error handed over by a library or by the object store is opaque and
    carried by [ErrExternal]. *)

Inductive error :=
| ErrExternal (tag : nat)
| ErrShortRead
| ErrUncompress (cause : error) (rawsize compdata : Z)
| ErrUncompressSize
| ErrUnknownFlags (flags : Z)
| ErrClamp
| ErrSubRange
| ErrSourceSubRange
| ErrUnknownVolume (name : string)
| ErrEOF
| ErrUnexpectedEOF
| ErrAPI (code : string).

(** [err == io.EOF]. *)
Definition is_EOF (e : error) : bool :=
  match e with
  | ErrEOF => true
  | _ => false
  end.

(** ** [encoding/binary] *)

(** [binary.PutUvarint]: seven bits per byte, least significant group
    first, the high bit marking continuation.  A [uint64] takes at most ten
    bytes, which bounds the loop. *)
Fixpoint PutUvarint_loop (fuel : nat) (x : Z) : list Z :=
  match fuel with
  | O => [x mod 256]
  | S fuel' =>
      if 128 <=? x
      then Z.lor (x mod 256) 128 :: PutUvarint_loop fuel' (Z.shiftr x 7)
      else [x mod 256]
  end.

Definition PutUvarint (x : Z) : list Z := PutUvarint_loop 9 (uint64 x).

(** [binary.BigEndian.PutUint32] followed by taking [buf[:4]]. *)
Definition PutUint32 (v : Z) : list Z :=
  [Z.shiftr v 24 mod 256; Z.shiftr v 16 mod 256; Z.shiftr v 8 mod 256; v mod 256].

(** ** [bytes.Buffer] and [append]

    Neither returns an error; both panic when the length would exceed what
    an [int] can hold. [None] stands for that panic. *)

Definition Buffer_Write (b p : list Z) : option (list Z) :=
  if len b + len p <=? maxInt then Some (b ++ p) else None.

Definition append {A} (s : list A) (x : A) : option (list A) :=
  if len s + 1 <=? maxInt then Some (s ++ [x]) else None.

(** A callee storing [out] at the front of the caller's slice [dst]: the
    slice keeps its length. *)
Definition overwrite (dst out : list Z) : list Z :=
  take (length dst) (out ++ drop (length out) dst).

(** [bytes.Equal]. *)
Fixpoint bytes_Equal (a b : list Z) : bool :=
  match a, b with
  | [], [] => true
  | x :: a', y :: b' => (x =? y) && bytes_Equal a' b'
  | _, _ => false
  end.

(** ** Identifiers *)

(** A [SegmentId] is a ULID, sixteen bytes. *)
Definition SegmentId := list Z.
Definition LBA := Z.

(** ** [object.go] *)

(** Block flags as the code writes them: 0 uncompressed, 1 compressed,
    2 empty. *)
Definition Uncompressed : Z := 0.
Definition Compressed : Z := 1.
Definition Empty : Z := 2.

Module ocBlock.
Record t := mk { lba : LBA; flags : Z; size : Z; offset : Z }.
End ocBlock.

Module PBA.
Record t := mk { Segment : SegmentId; Offset : Z }.
End PBA.

Module objPBA.
Record t := mk { PBA : PBA.t; Flags : Z; Size : Z }.
End objPBA.

(** Modelled from the spec: the block buffer handed to
    [ObjectCreator.WriteExtent] (type [Extent] of this version of the
    writer, with [Blocks] and [BlockView]) is declared outside the source
    files at hand.  The device presents blocks of exactly [BlockSize]
    bytes; [BlockView i] is the [i]-th such block of the buffer, and
    slicing past the end of the buffer panics ([None]). *)
Module Extent.
Record t := mk { blocks : Z; data : list Z }.

Definition Blocks (e : t) : Z := blocks e.

Definition BlockView (e : t) (i : nat) : option (list Z) :=
  let lo := (Z.to_nat BlockSize * i)%nat in
  if (lo + Z.to_nat BlockSize <=? length (data e))%nat
  then Some (take (Z.to_nat BlockSize) (drop lo (data e)))
  else None.
End Extent.

(** Modelled from the spec: [emptyBlock] is declared outside the source
    files at hand; a block is empty when all its bytes are zero. *)
Definition emptyBlock : list Z := replicate (Z.to_nat BlockSize) 0.

Definition emptyBytes (b : list Z) : bool := bytes_Equal b emptyBlock.

(** ** The file system seen by [Flush]

    [os.Create] and [File.Write] are answered by an oracle: creation may
    fail, and the [k]-th write on the file may fail after having stored a
    prefix of its argument. *)
Module os.
Record oracle := mkOracle {
  create_err : option error;
  write_err : nat -> option (nat * error)
}.

Definition reliable : oracle := mkOracle None (fun _ => None).
End os.

Inductive event :=
| EvSet (lba : LBA) (v : objPBA.t)
| EvCreate (path : string)
| EvWrite (path : string) (written : list Z)
| EvClose (path : string).

Module ObjectCreator.
Record t := mk {
  cnt : Z;
  offset : Z;
  blocks : list ocBlock.t;
  buf : list Z;
  header : list Z;
  body : list Z
}.

(** The zero value [ObjectCreator{}]; a nil slice is the empty list. *)
Definition zero : t := mk 0 0 [] [] [] [].

(** A call returns (with an error or with nil), leaving the receiver in
    some state, or it panics. *)
Inductive outcome :=
| Returns (err : option error) (o : t)
| Panics.

Inductive iteration :=
| Next (o : t)
| Stop (r : outcome).

Definition Reset (o : t) : t := mk 0 0 [] (buf o) [] [].

Section WithLz4.
(** [lz4.CompressBlock] of the external lz4 library, given the source
    and the length of the destination: an error, or the compressed
    bytes it stored at the front of the destination. *)
Variable lz4_CompressBlock : list Z -> nat -> error + list Z.

(** The call [lz4.CompressBlock(src, dst, nil)]: the returned size and
    error, and the destination afterwards. *)
Definition CompressBlock (src dst : list Z) : Z * option error * list Z :=
  match lz4_CompressBlock src (length dst) with
  | inl e => (0, Some e, dst)
  | inr out => (len out, None, overwrite dst out)
  end.

(** One turn of the loop of [WriteExtent]. *)
Definition WriteExtent_iter (firstBlock : LBA) (ext : Extent.t) (o : t) (i : nat)
  : iteration :=
  let lba := uint64 (firstBlock + Z.of_nat i) in
  match Extent.BlockView ext i with
  | None => Stop Panics
  | Some view =>
      if emptyBytes view then
        match append (blocks o) (ocBlock.mk lba 2 0 0) with
        | None => Stop Panics
        | Some bs =>
            Next (mk (int (cnt o + 1)) (offset o) bs (buf o) (header o) (body o))
        end
      else
        match CompressBlock view (buf o) with
        | (_, Some err, buf') =>
            Stop (Returns (Some err)
                    (mk (cnt o) (offset o) (blocks o) buf' (header o) (body o)))
        | (sz, None, buf') =>
            let '(payload, flags) :=
              if (0 <? sz) && (sz <? BlockSize)
              then (take (Z.to_nat sz) buf', 1)
              else (view, 0) in
            match Buffer_Write (body o) payload with
            | None => Stop Panics
            | Some body' =>
                match append (blocks o)
                        (ocBlock.mk lba flags (uint64 (len payload)) (offset o)) with
                | None => Stop Panics
                | Some bs =>
                    Next (mk (int (cnt o + 1)) (uint64 (offset o + uint64 (len payload)))
                            bs buf' (header o) body')
                end
            end
        end
  end.

Fixpoint WriteExtent_loop (firstBlock : LBA) (ext : Extent.t) (idx : list nat) (o : t)
  : outcome :=
  match idx with
  | [] => Returns None o
  | i :: idx' =>
      match WriteExtent_iter firstBlock ext o i with
      | Next o' => WriteExtent_loop firstBlock ext idx' o'
      | Stop r => r
      end
  end.

Definition WriteExtent (firstBlock : LBA) (ext : Extent.t) (o : t) : outcome :=
  let o :=
    match buf o with
    | [] => mk (cnt o) (offset o) (blocks o)
              (replicate (Z.to_nat (2 * BlockSize)) 0) (header o) (body o)
    | _ => o
    end in
  WriteExtent_loop firstBlock ext (seq 0 (Z.to_nat (Extent.Blocks ext))) o.
End WithLz4.

(** *** [Flush] *)

(** What one iteration of the first loop appends to the header. *)
Definition header_record (blk : ocBlock.t) : list Z :=
  PutUvarint (ocBlock.lba blk) ++ [ocBlock.flags blk]
    ++ PutUvarint (ocBlock.size blk) ++ PutUvarint (ocBlock.offset blk).

(** The first loop; [None] when a write to the header buffer panics. *)
Fixpoint Flush_header (bs : list ocBlock.t) (hdr : list Z) : option (list Z) :=
  match bs with
  | [] => Some hdr
  | blk :: bs' =>
      h1 ← Buffer_Write hdr (PutUvarint (ocBlock.lba blk));
      h2 ← Buffer_Write h1 [ocBlock.flags blk];
      h3 ← Buffer_Write h2 (PutUvarint (ocBlock.size blk));
      h4 ← Buffer_Write h3 (PutUvarint (ocBlock.offset blk));
      Flush_header bs' h4
  end.

Definition map_entry (seg : SegmentId) (dataBegin : Z) (blk : ocBlock.t) : objPBA.t :=
  objPBA.mk (PBA.mk seg (uint32 (dataBegin + uint32 (ocBlock.offset blk))))
    (ocBlock.flags blk) (uint32 (ocBlock.size blk)).

(** The second loop: [m.Set] for every block, in order. *)
Definition Flush_install (seg : SegmentId) (dataBegin : Z)
    (bs : list ocBlock.t) (m : gmap Z objPBA.t) : gmap Z objPBA.t :=
  foldl (fun m blk => <[ocBlock.lba blk := map_entry seg dataBegin blk]> m) m bs.

Definition install_events (seg : SegmentId) (dataBegin : Z) (bs : list ocBlock.t)
  : list event :=
  (fun blk => EvSet (ocBlock.lba blk) (map_entry seg dataBegin blk)) <$> bs.

(** The state [Flush] works on: the receiver, the map it is given, the
    files, the number of writes issued on the created file, and the log
    of the effects outside the receiver in the order they happen. *)
Record world := mkWorld {
  oc : t;
  lbas : gmap Z objPBA.t;
  files : gmap string (list Z);
  nwrites : nat;
  log : list event
}.

Inductive flush_result :=
| FlushReturns (err : option error)
| FlushPanics.

(** [f.Write(p)] on the file created at [path]. *)
Definition File_Write (fs : os.oracle) (path : string) (p : list Z) (w : world)
  : option error * world :=
  let old := default [] (files w !! path) in
  match os.write_err fs (nwrites w) with
  | Some (n, e) =>
      let part := take n p in
      (Some e, mkWorld (oc w) (lbas w) (<[path := old ++ part]> (files w))
                 (S (nwrites w)) (log w ++ [EvWrite path part]))
  | None =>
      (None, mkWorld (oc w) (lbas w) (<[path := old ++ p]> (files w))
               (S (nwrites w)) (log w ++ [EvWrite path p]))
  end.

(** [io.Copy(f, &buffer)]: [bytes.Buffer.WriteTo] issues one write when
    the buffer is not empty and none otherwise. *)
Definition io_Copy (fs : os.oracle) (path : string) (p : list Z) (w : world)
  : option error * world :=
  match p with
  | [] => (None, w)
  | _ => File_Write fs path p w
  end.

(** The body of [Flush], before the deferred calls run. *)
Definition Flush_body (fs : os.oracle) (path : string) (seg : SegmentId) (w : world)
  : flush_result * world :=
  let o := oc w in
  match Flush_header (blocks o) (header o) with
  | None => (FlushPanics, w)
  | Some hdr =>
      let o1 := mk (cnt o) (offset o) (blocks o) (buf o) hdr (body o) in
      let dataBegin := uint32 (len hdr + 8) in
      let w1 := mkWorld o1 (Flush_install seg dataBegin (blocks o) (lbas w))
                  (files w) (nwrites w)
                  (log w ++ install_events seg dataBegin (blocks o)) in
      match os.create_err fs with
      | Some e => (FlushReturns (Some e), w1)
      | None =>
          let w2 := mkWorld (oc w1) (lbas w1) (<[path := []]> (files w1)) 0
                      (log w1 ++ [EvCreate path]) in
          let close (r : option error * world) : flush_result * world :=
            (FlushReturns r.1,
             mkWorld (oc r.2) (lbas r.2) (files r.2) (nwrites r.2)
               (log r.2 ++ [EvClose path])) in
          match File_Write fs path (PutUint32 (uint32 (cnt o))) w2 with
          | (Some e, w3) => close (Some e, w3)
          | (None, w3) =>
              match File_Write fs path (PutUint32 dataBegin) w3 with
              | (Some e, w4) => close (Some e, w4)
              | (None, w4) =>
                  match io_Copy fs path hdr w4 with
                  | (Some e, w5) => close (Some e, w5)
                  | (None, w5) =>
                      match io_Copy fs path (body o) w5 with
                      | (Some e, w6) => close (Some e, w6)
                      | (None, w6) => close (None, w6)
                      end
                  end
              end
          end
      end
  end.

(** [defer o.Reset()] runs last, on every way out. *)
Definition Flush (fs : os.oracle) (path : string) (seg : SegmentId) (w : world)
  : flush_result * world :=
  let '(r, w') := Flush_body fs path seg w in
  (r, mkWorld (Reset (oc w')) (lbas w') (files w') (nwrites w') (log w')).
End ObjectCreator.


(** ** [disk.go]: the read path *)

(** [time.Second], a [time.Duration] in nanoseconds. *)
Definition Second : Z := 1000000000.

(** [filepath.Join] on elements that are already clean: the non-empty
    elements separated by a slash.  On such elements it is the library's
    [filepath.Join] (see [filepathFacts.Join_clean_elements]). *)
Definition filepath_Join (elems : list string) : string :=
  String.concat "/" (filter (fun e => e ≠ ""%string) elems).

Module Disk.

Module Extent.
Record t := mk { LBA : Z; Blocks : Z }.
End Extent.

(** [ExtentHeader] is declared outside the source files at hand; these are
    the fields [disk.go] reads from it. *)
Module ExtentHeader.
Record t := mk { Extent : Extent.t; Flags : Z; Size : Z; RawSize : Z; Offset : Z }.
End ExtentHeader.

Module ExtentLocation.
Record t := mk { ExtentHeader : ExtentHeader.t; Segment : SegmentId }.
End ExtentLocation.

Module PartialExtent.
Record t := mk { Partial : Extent.t; ExtentLocation : ExtentLocation.t }.

(** Fields promoted from the embedded structs. *)
Definition hdr (pe : t) : ExtentHeader.t :=
  ExtentLocation.ExtentHeader (ExtentLocation pe).
Definition Extent (pe : t) : Extent.t := ExtentHeader.Extent (hdr pe).
Definition Flags (pe : t) : Z := ExtentHeader.Flags (hdr pe).
Definition Size (pe : t) : Z := ExtentHeader.Size (hdr pe).
Definition RawSize (pe : t) : Z := ExtentHeader.RawSize (hdr pe).
Definition Offset (pe : t) : Z := ExtentHeader.Offset (hdr pe).
Definition Segment (pe : t) : SegmentId := ExtentLocation.Segment (ExtentLocation pe).
End PartialExtent.

Module RangeData.
Record t := mk { Extent : Extent.t; blocks : Z; data : list Z }.
End RangeData.

(** [buffers.Get(n)]: a slice of [n] bytes from the pool. *)
Definition buffers_Get (n : Z) : list Z := replicate (Z.to_nat n) 0.

(** What the collaborators of the read path answer: the on-disk extent
    cache, the LRU of open readers, the segment access and its readers, and
    the lz4 decoder.  A callee that fills a slice answers with the bytes it
    stored at the front of it. *)
Record reads := mkReads {
  extentCache_ReadExtent : PartialExtent.t -> nat -> bool * option error * list Z;
  openSegments_Get : SegmentId -> bool;
  sa_OpenSegment : SegmentId -> option error;
  ci_ReadAt : SegmentId -> Z -> nat -> Z * option error * list Z;
  lz4decode_UncompressBlock : list Z -> nat -> error + list Z
}.

Inductive revent :=
| RLogError
| RCacheHit
| RCacheMiss
| ROpenSegment (seg : SegmentId)
| RLruAdd (seg : SegmentId)
| RReadAt (seg : SegmentId) (off : Z) (n : nat)
| RCacheWrite (pe : PartialExtent.t) (rawData : list Z).

(** Lines 382-421: where the raw bytes come from.  Either the function
    returns from there, or it goes on with [rawData] filled. *)
Inductive fetched :=
| FetchReturns (err : option error) (log : list revent)
| Fetched (rawData : list Z) (log : list revent).

Definition fetch (E : reads) (pe : PartialExtent.t) : fetched :=
  let seg := PartialExtent.Segment pe in
  let rawData := buffers_Get (PartialExtent.Size pe) in
  let '(found, err, stored) := extentCache_ReadExtent E pe (length rawData) in
  let rawData := overwrite rawData stored in
  let log := if err is Some _ then [RLogError] else [] in
  if found then Fetched rawData (log ++ [RCacheHit])
  else
    let log := log ++ [RCacheMiss] in
    let opened :=
      if openSegments_Get E seg then (None, log)
      else match sa_OpenSegment E seg with
           | Some e => (Some e, log ++ [ROpenSegment seg])
           | None => (None, log ++ [ROpenSegment seg; RLruAdd seg])
           end in
    match opened with
    | (Some e, log) => FetchReturns (Some e) log
    | (None, log) =>
        let off := PartialExtent.Offset pe in
        let '(n, err, stored) := ci_ReadAt E seg off (length rawData) in
        let rawData := overwrite rawData stored in
        let log := log ++ [RReadAt seg off (length rawData)] in
        match err with
        | Some _ => FetchReturns None log
        | None =>
            if n =? len rawData
            then Fetched rawData (log ++ [RCacheWrite pe rawData])
            else FetchReturns (Some ErrShortRead) (log ++ [RLogError])
        end
    end.

(** Lines 423-441: from the raw bytes to the bytes of the full extent. *)
Definition decode (E : reads) (pe : PartialExtent.t) (rawData : list Z)
  : error + list Z :=
  if PartialExtent.Flags pe =? Compressed then
    let sz := PartialExtent.RawSize pe in
    let uncomp := buffers_Get sz in
    match lz4decode_UncompressBlock E rawData (length uncomp) with
    | inl e => inl (ErrUncompress e (len rawData) (len uncomp))
    | inr out =>
        if len out =? sz then inr (overwrite uncomp out) else inl ErrUncompressSize
    end
  else if PartialExtent.Flags pe =? Uncompressed then inr rawData
  else inl (ErrUnknownFlags (PartialExtent.Flags pe)).

Section Stitch.
(** [Extent.Clamp] and [RangeData.SubRange] are declared outside the source
    files at hand.  [SubRange r sub] answers with the window (first byte,
    length) that the sub-range occupies in the bytes of [r], a sub-slice
    sharing [r]'s storage. *)
Variable Clamp : Extent.t -> Extent.t -> option Extent.t.
Variable SubRange : RangeData.t -> Extent.t -> option (nat * nat).

(** Lines 457-493: copy every requested range from [src] into [dest]. *)
Fixpoint stitch (pe : PartialExtent.t) (src : RangeData.t) (rngs : list Extent.t)
    (dest : RangeData.t) : option error * RangeData.t :=
  match rngs with
  | [] => (None, dest)
  | x :: rngs' =>
      match Clamp (PartialExtent.Partial pe) x with
      | None => (Some ErrClamp, dest)
      | Some overlap =>
          match SubRange dest overlap with
          | None => (Some ErrSubRange, dest)
          | Some (dlo, dn) =>
              match SubRange src overlap with
              | None => (Some ErrSourceSubRange, dest)
              | Some (slo, sn) =>
                  let subSrc := take sn (drop slo (RangeData.data src)) in
                  let data' := list_inserts dlo (take dn subSrc) (RangeData.data dest) in
                  stitch pe src rngs'
                    (RangeData.mk (RangeData.Extent dest) (RangeData.blocks dest) data')
              end
          end
      end
  end.

Definition readPartialExtent (E : reads) (pe : PartialExtent.t) (rngs : list Extent.t)
    (dataRange : Extent.t) (dest : RangeData.t)
  : option error * RangeData.t * list revent :=
  match fetch E pe with
  | FetchReturns err log => (err, dest, log)
  | Fetched rawData log =>
      match decode E pe rawData with
      | inl e => (Some e, dest, log)
      | inr cooked =>
          let src := RangeData.mk (PartialExtent.Extent pe)
                       (Extent.Blocks (PartialExtent.Partial pe)) cooked in
          let '(err, dest') := stitch pe src rngs dest in
          (err, dest', log)
      end
  end.

(** Lines 302-309 of [ReadExtent]: serve the read requests in order; the
    first error is returned with an empty [RangeData]. *)
Fixpoint ReadExtent_serve (E : reads) (reqs : list (PartialExtent.t * list Extent.t))
    (rng : Extent.t) (data : RangeData.t) : option error * RangeData.t :=
  match reqs with
  | [] => (None, data)
  | (pe, extents) :: reqs' =>
      match readPartialExtent E pe extents rng data with
      | (Some e, _, _) => (Some e, RangeData.mk (Extent.mk 0 0) 0 [])
      | (None, data', _) => ReadExtent_serve E reqs' rng data'
      end
  end.
End Stitch.
End Disk.


(** ** [disk.go]: opening a disk *)

Module VolumeInfo.
Record t := mk { Name : string; Size : Z }.
End VolumeInfo.

(** The [SegmentAccess] port, restricted to the methods [NewDisk] calls,
    each given by what it answers. [GetVolumeInfo] returns a pointer, which
    may be nil, and an error. *)
Record SegmentAccess := mkSegmentAccess {
  InitContainer : option error;
  GetVolumeInfo : string -> option VolumeInfo.t * option error;
  InitVolume : VolumeInfo.t -> option error
}.

(** The option block of [NewDisk]; the two callbacks are named, not run. *)
Record opts := mkOpts {
  sa : option SegmentAccess;
  volName : string;
  autoCreate : bool;
  seqGen : option nat;
  afterNS : option nat
}.

(** An [Option] is a function updating the option block in place. *)
Definition Option := opts -> opts.

Module NewDisk.
(** The fields of [Disk] that [NewDisk] takes from its arguments; the
    other fields start as fresh, empty structures. *)
Record Disk := mkDisk {
  d_path : string;
  d_size : Z;
  d_sa : SegmentAccess;
  d_volName : string;
  d_SeqGen : option nat;
  d_afterNS : option nat
}.

(** The collaborators: the extent cache constructor, the local directory
    access used when no access is injected, and lines 111-146, which
    restore the write cache and the block map of the disk just built. *)
Record env := mkEnv {
  NewExtentCache : string -> option error;
  LocalFileAccess : string -> SegmentAccess;
  attach : Disk -> error + Disk
}.

Inductive call :=
| CallNewExtentCache (path : string)
| CallInitContainer
| CallGetVolumeInfo (name : string)
| CallInitVolume (vol : VolumeInfo.t)
| LogAttaching (name : string) (size : Z).

Inductive outcome :=
| Returns (r : error + Disk)
| Panics.

(** Lines 59-64: the defaults, then every option in turn. *)
Definition apply_options (options : list Option) : opts :=
  foldl (fun o opt => opt o) (mkOpts None "" true None None) options.

(** Lines 66-72: the access and the volume name, with their defaults. *)
Definition access (E : env) (path : string) (o : opts) : SegmentAccess :=
  if sa o is Some a then a else LocalFileAccess E path.

Definition name (o : opts) : string :=
  if decide (volName o = ""%string) then "default"%string else volName o.

(** [GetVolumeInfo] reports the volume absent: an error, or an empty name. *)
Definition absent (r : option VolumeInfo.t * option error) : Prop :=
  r.2 <> None \/ exists vi, r.1 = Some vi /\ VolumeInfo.Name vi = ""%string.

Definition NewDisk (E : env) (path : string) (options : list Option)
  : outcome * list call :=
  let cache := filepath_Join [path; "readcache"%string] in
  match NewExtentCache E cache with
  | Some e => (Returns (inl e), [CallNewExtentCache cache])
  | None =>
      let o := apply_options options in
      let acc := access E path o in
      let name := name o in
      match InitContainer acc with
      | Some e => (Returns (inl e), [CallNewExtentCache cache; CallInitContainer])
      | None =>
          let calls := [CallNewExtentCache cache; CallInitContainer;
                        CallGetVolumeInfo name] in
          let finish (sz : Z) (calls : list call) :=
            (Returns (attach E (mkDisk path sz acc name (seqGen o) (afterNS o))),
             calls ++ [LogAttaching name sz]) in
          let create (calls : list call) :=
            if autoCreate o then
              let vol := VolumeInfo.mk name 0 in
              match InitVolume acc vol with
              | Some e => (Returns (inl e), calls ++ [CallInitVolume vol])
              | None => finish 0 (calls ++ [CallInitVolume vol])
              end
            else (Returns (inl (ErrUnknownVolume name)), calls) in
          match GetVolumeInfo acc name with
          | (_, Some _) => create calls
          | (None, None) => (Panics, calls)
          | (Some vi, None) =>
              if decide (VolumeInfo.Name vi = ""%string) then create calls
              else finish (VolumeInfo.Size vi) calls
          end
      end
  end.
End NewDisk.


(** ** [disk.go]: sealing a segment and flushing it in the background *)

Module CloseSegment.
Section Task.
(** The segment creator, the extent map, the segment registry and what
    [Flush] hands back are declared outside the source files at hand. *)
Variables SegmentCreator ExtentLocation SegmentStats ExtentMap Segments : Type.
Variable Segments_Create : SegmentId -> SegmentStats -> Segments -> Segments.
Variable UpdateBatch :
  list ExtentLocation -> SegmentId -> ExtentMap -> Segments -> ExtentMap * Segments.

(** The part of [Disk] the sealing works on. *)
Record Disk := mkDisk {
  curSeq : SegmentId;
  curOC : option SegmentCreator;
  prevCache : option SegmentCreator;
  lba2pba : ExtentMap;
  s : Segments;
  afterNS : option nat
}.

(** One answer of [oc.Flush]. *)
Definition flushed : Type := error + list ExtentLocation * SegmentStats.

Inductive tevent :=
| TFlush (seg : SegmentId) (r : flushed)
| TLogError (e : error)
| TSleep (d : Z)
| TCreate (seg : SegmentId) (stats : SegmentStats)
| TUpdateBatch (entries : list ExtentLocation) (seg : SegmentId)
| TClearPrev
| TAfterNS (callback : nat) (seg : SegmentId)
| TCleanup (r : option error)
| TCloseDone.

(** Lines 674-683: the retry loop, run against the answers [oc.Flush]
    gives to the successive calls.  When the answers seen so far are all
    errors the loop has not left yet: [None]. *)
Fixpoint flush_retry (seg : SegmentId) (answers : list flushed)
  : list tevent * option (list ExtentLocation * SegmentStats) :=
  match answers with
  | [] => ([], None)
  | inl e :: answers' =>
      let '(tr, r) := flush_retry seg answers' in
      (TFlush seg (inl e) :: TLogError e :: TSleep (5 * Second) :: tr, r)
  | inr ok :: _ => ([TFlush seg (inr ok)], Some ok)
  end.

(** What one failed [Flush] is followed by. *)
Definition retry (seg : SegmentId) (e : error) : list tevent :=
  [TFlush seg (inl e); TLogError e; TSleep (5 * Second)].

(** The steps that install a flushed segment. *)
Definition installs (ev : tevent) : bool :=
  match ev with
  | TCreate _ _ | TUpdateBatch _ _ | TClearPrev => true
  | _ => false
  end.

(** Lines 685-723: what follows the loop.  The validator, which runs in
    debug mode only and changes nothing, is left out. *)
Definition install (seg : SegmentId) (ok : list ExtentLocation * SegmentStats)
    (cleanup : option error) (d : Disk) : list tevent * Disk :=
  let '(entries, stats) := ok in
  let s1 := Segments_Create seg stats (s d) in
  let '(m2, s2) := UpdateBatch entries seg (lba2pba d) s1 in
  let d' := mkDisk (curSeq d) (curOC d) None m2 s2 (afterNS d) in
  ([TCreate seg stats; TUpdateBatch entries seg; TClearPrev]
     ++ (if afterNS d is Some f then [TAfterNS f seg] else [])
     ++ [TCleanup cleanup; TCloseDone],
   d').

(** The goroutine: its trace, the disk it leaves, and whether it has
    finished (closed [done]). *)
Definition flush_task (seg : SegmentId) (answers : list flushed)
    (cleanup : option error) (d : Disk) : list tevent * Disk * bool :=
  match flush_retry seg answers with
  | (tr, None) => (tr, d, false)
  | (tr, Some ok) =>
      let '(tr', d') := install seg ok cleanup d in
      (tr ++ tr', d', true)
  end.

(** What [newSegmentCreator] answers: the ULID generator may fail, and so
    may creating the write-cache file, after [curSeq] has been set. *)
Inductive created :=
| SeqFails (e : error)
| CreatorFails (seq : SegmentId) (e : error)
| Created (seq : SegmentId) (sc : SegmentCreator).

(** [closeSegmentAsync]: what the writer gets back (whether a channel is
    returned, and the error), the disk as the writer leaves it, and the
    task it started, if any, given as the segment it flushes. *)
Definition closeSegmentAsync (nsc : created) (d : Disk)
  : (bool * option error) * Disk * option SegmentId :=
  let segId := curSeq d in
  let oc := curOC d in
  match nsc with
  | SeqFails e =>
      ((false, Some e), mkDisk (curSeq d) None (prevCache d) (lba2pba d) (s d) (afterNS d),
       None)
  | CreatorFails seq e =>
      ((false, Some e), mkDisk seq None (prevCache d) (lba2pba d) (s d) (afterNS d), None)
  | Created seq sc =>
      ((true, None), mkDisk seq (Some sc) oc (lba2pba d) (s d) (afterNS d), Some segId)
  end.

(** The whole of it: the call by the writer, then the task against the
    answers of [Flush]. *)
Definition seal_and_flush (nsc : created) (answers : list flushed)
    (cleanup : option error) (d : Disk)
  : (bool * option error) * (list tevent * Disk * bool) :=
  match closeSegmentAsync nsc d with
  | (ret, d1, Some seg) => (ret, flush_task seg answers cleanup d1)
  | (ret, d1, None) => (ret, ([], d1, false))
  end.
End Task.

Arguments TFlush {ExtentLocation SegmentStats} seg r.
Arguments TLogError {ExtentLocation SegmentStats} e.
Arguments TSleep {ExtentLocation SegmentStats} d.
Arguments TCreate {ExtentLocation SegmentStats} seg stats.
Arguments TUpdateBatch {ExtentLocation SegmentStats} entries seg.
Arguments TClearPrev {ExtentLocation SegmentStats}.
Arguments TAfterNS {ExtentLocation SegmentStats} callback seg.
Arguments TCleanup {ExtentLocation SegmentStats} r.
Arguments TCloseDone {ExtentLocation SegmentStats}.
Arguments SeqFails {SegmentCreator} e.
Arguments CreatorFails {SegmentCreator} seq e.
Arguments Created {SegmentCreator} seq sc.
Arguments mkDisk {SegmentCreator ExtentMap Segments}.
Arguments flush_retry {ExtentLocation SegmentStats} seg answers.
Arguments retry {ExtentLocation SegmentStats} seg e.
Arguments installs {ExtentLocation SegmentStats} ev.
Arguments install {SegmentCreator ExtentLocation SegmentStats ExtentMap Segments}.
Arguments flush_task {SegmentCreator ExtentLocation SegmentStats ExtentMap Segments}.
Arguments closeSegmentAsync {SegmentCreator ExtentMap Segments} nsc d.
Arguments seal_and_flush {SegmentCreator ExtentLocation SegmentStats ExtentMap Segments}.
End CloseSegment.


(** ** [disk.go]: the S3 segment access *)

(** [io.ReadFull(r, dest)], which is [io.ReadAtLeast] with the length of
    [dest] as minimum.  The reader is given by what its successive [Read]
    calls answer (bytes and error); past the last answer it is at end of
    file.  The result is the count, the error and the bytes stored. *)
Fixpoint io_ReadAtLeast (r : list (list Z * option error)) (min : nat) (got : list Z)
  : Z * option error * list Z :=
  if (length got <? min)%nat then
    match r with
    | [] => (len got, Some (if (0 <? length got)%nat then ErrUnexpectedEOF else ErrEOF), got)
    | (chunk, err) :: r' =>
        let got' := got ++ take (min - length got) chunk in
        match err with
        | None => io_ReadAtLeast r' min got'
        | Some e =>
            if (min <=? length got')%nat then (len got', None, got')
            else if (0 <? length got')%nat && is_EOF e
                 then (len got', Some ErrUnexpectedEOF, got')
                 else (len got', Some e, got')
        end
    end
  else (len got, None, got).

Definition io_ReadFull (r : list (list Z * option error)) (dest : nat)
  : Z * option error * list Z :=
  io_ReadAtLeast r dest [].

(** [slices.DeleteFunc] works in place: the kept elements move to the
    front of the slice's storage and the shorter slice is returned.  From
    Go 1.22 on the vacated tail is zeroed ([clear]); Go 1.21 leaves it as
    it was.  [DeleteFunc_compact] is the copying loop, [j] the next free
    position. *)
Fixpoint DeleteFunc_compact {A} (del : A -> bool) (pending s : list A) (j : nat)
  : list A * nat :=
  match pending with
  | [] => (s, j)
  | v :: pending' =>
      if del v then DeleteFunc_compact del pending' s j
      else DeleteFunc_compact del pending' (<[j := v]> s) (S j)
  end.

(** The storage as the caller's slice still sees it, and the returned
    slice. *)
Definition slices_DeleteFunc {A} (clears : bool) (zero : A) (del : A -> bool) (s : list A)
  : list A * list A :=
  match list_find (fun v => del v = true) s with
  | None => (s, s)
  | Some (i, _) =>
      let '(s', j) := DeleteFunc_compact del (drop (S i) s) s i in
      let s'' := if clears then take j s' ++ replicate (length s' - j) zero else s' in
      (s'', take j s'')
  end.

Module S3.
(** The bucket: objects by key.  A request may also fail on the way. *)
Record faults := mkFaults {
  get_err : string -> option error;
  upload_err : string -> option error
}.

Definition no_faults : faults := mkFaults (fun _ => None) (fun _ => None).

Definition NoSuchKey : error := ErrAPI "NoSuchKey".

Definition isNoSuchKey (err : error) : bool :=
  match err with
  | ErrAPI code => bool_decide (code = "NoSuchKey"%string)
  | _ => false
  end.

Definition GetObject (F : faults) (key : string) (bucket : gmap string (list Z))
  : error + list Z :=
  match get_err F key with
  | Some e => inl e
  | None =>
      match bucket !! key with
      | Some body => inr body
      | None => inl NoSuchKey
      end
  end.

Definition Upload (F : faults) (key : string) (body : list Z)
    (bucket : gmap string (list Z)) : option error * gmap string (list Z) :=
  match upload_err F key with
  | Some e => (Some e, bucket)
  | None => (None, <[key := body]> bucket)
  end.

(** [S3ObjectReader.ReadAt]: the ranged request may fail, or answer with a
    body to read [dest] bytes from. *)
Definition ReadAt (getObject : Z * Z -> error + list (list Z * option error))
    (dest : nat) (off : Z) : Z * option error * list Z :=
  let rng := (off, int (int off + Z.of_nat dest - 1)) in
  match getObject rng with
  | inl e => (0, Some e, [])
  | inr body =>
      let '(n, err, stored) := io_ReadFull body dest in
      match err with
      | Some e => if 0 <? n then (n, None, stored) else (n, Some e, stored)
      | None => (n, None, stored)
      end
  end.

Definition zeroSegmentId : SegmentId := replicate 16 0.

Definition index_key (vol : string) : string :=
  filepath_Join ["volumes"; vol; "objects"]%string.

(** [buf.Write(seg[:])] for every segment. *)
Definition index_bytes (segments : list SegmentId) : list Z := mjoin segments.

Section Index.
(** [ReadSegments] is declared outside the source files at hand: it parses
    the bytes of a volume's object index. *)
Variable ReadSegments : list Z -> error + list SegmentId.

(** Whether the Go toolchain is 1.22 or later, where [slices.DeleteFunc]
    zeroes the tail. *)
Variable clears : bool.

Definition ListSegments (F : faults) (vol : string) (bucket : gmap string (list Z))
  : error + list SegmentId :=
  match GetObject F (index_key vol) bucket with
  | inl e => if isNoSuchKey e then inr [] else inl e
  | inr body => ReadSegments body
  end.

Definition RemoveSegmentFromVolume (F : faults) (vol : string) (seg : SegmentId)
    (bucket : gmap string (list Z)) : option error * gmap string (list Z) :=
  match ListSegments F vol bucket with
  | inl e => (Some e, bucket)
  | inr segments =>
      let '(segments, _) :=
        slices_DeleteFunc clears zeroSegmentId (fun si => bool_decide (si = seg)) segments in
      Upload F (index_key vol) (index_bytes segments) bucket
  end.

Definition AppendToObjects (F : faults) (vol : string) (seg : SegmentId)
    (bucket : gmap string (list Z)) : option error * gmap string (list Z) :=
  match ListSegments F vol bucket with
  | inl e => (Some e, bucket)
  | inr segments =>
      let segments := segments ++ [seg] in
      Upload F (index_key vol) (index_bytes segments) bucket
  end.
End Index.

(** Modelled from the spec: the volume object index is the concatenation
    of the 16-byte segment identifiers, in creation order; bytes left over
    at the end are an unexpected end of file. *)
Fixpoint ReadSegments_chunks (fuel : nat) (body : list Z) : error + list SegmentId :=
  match fuel, body with
  | _, [] => inr []
  | O, _ => inl ErrUnexpectedEOF
  | S fuel', _ =>
      if (length body <? 16)%nat then inl ErrUnexpectedEOF
      else match ReadSegments_chunks fuel' (drop 16 body) with
           | inl e => inl e
           | inr segs => inr (take 16 body :: segs)
           end
  end.

Definition ReadSegments (body : list Z) : error + list SegmentId :=
  ReadSegments_chunks (length body) body.
End S3.


(** * Specifications *)

(** ** The segment writer *)

Module Writer.
Import ObjectCreator.

(** The creators a program can hold: the zero value, and what calls that
    return leave behind. *)
Inductive reachable (lz4 : list Z -> nat -> error + list Z) : t -> Prop :=
| reach_zero : reachable lz4 zero
| reach_WriteExtent firstBlock ext o err o' :
    reachable lz4 o ->
    WriteExtent lz4 firstBlock ext o = Returns err o' ->
    reachable lz4 o'
| reach_Reset o : reachable lz4 o -> reachable lz4 (Reset o)
| reach_Flush fs path seg w :
    reachable lz4 (oc w) -> reachable lz4 (oc (Flush fs path seg w).2).

(** The bytes the recorded blocks claim in the body. *)
Definition total_size (bs : list ocBlock.t) : Z :=
  foldr (fun b acc => ocBlock.size b + acc) 0 bs.

(** A recorded block lies within a body of [n] bytes. *)
Definition in_body (n : Z) (b : ocBlock.t) : Prop :=
  0 <= ocBlock.offset b /\ 0 <= ocBlock.size b /\
  ocBlock.offset b + ocBlock.size b <= n /\ ocBlock.size b <= BlockSize.

Definition block_ok (n : Z) (b : ocBlock.t) : Prop :=
  (ocBlock.flags b = Empty -> ocBlock.size b = 0 /\ ocBlock.offset b = 0) /\
  (ocBlock.flags b <> Empty -> in_body n b) /\
  (ocBlock.flags b = Uncompressed \/ ocBlock.flags b = Compressed \/ ocBlock.flags b = Empty) /\
  0 <= ocBlock.lba b < 2 ^ 64.

Record inv (o : t) : Prop := mkInv {
  inv_cnt : cnt o = len (blocks o);
  inv_offset : offset o = len (body o);
  inv_blocks : Forall (block_ok (len (body o))) (blocks o);
  inv_total : total_size (blocks o) = len (body o);
  inv_header : header o = [];
  inv_buf : buf o = [] \/ len (buf o) = 2 * BlockSize;
  inv_blocks_max : len (blocks o) <= maxInt;
  inv_body_max : len (body o) <= maxInt
}.

(** The rule of the specification for one block of [BlockSize] bytes: the
    flags and the bytes that go to the body; [None] when the compressor
    fails. *)
Definition spec_encode_block (lz4 : list Z -> nat -> error + list Z) (b : list Z)
  : option (Z * list Z) :=
  if decide (Forall (fun x => x = 0) b) then Some (Empty, [])
  else match lz4 b (Z.to_nat (2 * BlockSize)) with
       | inl _ => None
       | inr c =>
           if decide (0 < len c < BlockSize) then Some (Compressed, c)
           else Some (Uncompressed, b)
       end.

(** Record [r] and body bytes [payload] are what the rule yields for the
    [i]-th block of the extent written at [firstBlock]. *)
Definition encodes (lz4 : list Z -> nat -> error + list Z) (firstBlock : LBA)
    (ext : Extent.t) (i : nat) (r : ocBlock.t) (payload : list Z) : Prop :=
  exists view,
    Extent.BlockView ext i = Some view /\ len view = BlockSize /\
    spec_encode_block lz4 view = Some (ocBlock.flags r, payload) /\
    ocBlock.lba r = uint64 (firstBlock + Z.of_nat i) /\
    ocBlock.size r = len payload.

(** The last block recorded for an address, the one whose [Set] stays. *)
Definition last_for (lba : Z) (bs : list ocBlock.t) : option ocBlock.t :=
  last (filter (fun b => ocBlock.lba b = lba) bs).

(** Big-endian reading of four bytes. *)
Definition Uint32 (b : list Z) : Z :=
  match b with
  | [b0; b1; b2; b3] => b0 * 2 ^ 24 + b1 * 2 ^ 16 + b2 * 2 ^ 8 + b3
  | _ => 0
  end.

(** [binary.Uvarint] on a complete encoding. *)
Fixpoint Uvarint (b : list Z) : Z :=
  match b with
  | [] => 0
  | x :: b' => if x <? 128 then x else (x - 128) + 128 * Uvarint b'
  end.

(** The header records of a list of blocks, one after the other. *)
Definition header_records (bs : list ocBlock.t) : list Z :=
  mjoin (header_record <$> bs).

Definition is_install (e : event) : bool :=
  match e with
  | EvSet _ _ => true
  | _ => false
  end.
End Writer.

(** ** Sample data *)

Module Sample.
(** A stand-in compressor: a block made of one repeated byte shrinks to
    two bytes, anything else is reported incompressible (size zero). *)
Definition lz4 (src : list Z) (dst : nat) : error + list Z :=
  match src with
  | [] => inr []
  | x :: rest => if forallb (Z.eqb x) rest then inr [x; 255] else inr []
  end.

Definition block (x : Z) : list Z := replicate (Z.to_nat BlockSize) x.

(** Three blocks: zeros, sevens, and one that does not compress. *)
Definition ext3 : Extent.t :=
  Extent.mk 3 (block 0 ++ block 7 ++ (1 :: replicate 4095 9)).

Definition written : ObjectCreator.t :=
  match ObjectCreator.WriteExtent lz4 10 ext3 ObjectCreator.zero with
  | ObjectCreator.Returns _ o => o
  | ObjectCreator.Panics => ObjectCreator.zero
  end.

Definition seg1 : SegmentId := replicate 16 1.
Definition seg2 : SegmentId := replicate 16 2.

Definition world0 : ObjectCreator.world :=
  ObjectCreator.mkWorld written ∅ ∅ 0 [].

(** A file system on which nothing can be created. *)
Definition read_only : os.oracle := os.mkOracle (Some (ErrExternal 30)) (fun _ => None).

(** Modelled from the spec: [Extent.Clamp] is the intersection of two
    ranges of blocks, and fails when they are disjoint. *)
Definition Clamp (a b : Disk.Extent.t) : option Disk.Extent.t :=
  let lo := Z.max (Disk.Extent.LBA a) (Disk.Extent.LBA b) in
  let hi := Z.min (Disk.Extent.LBA a + Disk.Extent.Blocks a)
              (Disk.Extent.LBA b + Disk.Extent.Blocks b) in
  if lo <? hi then Some (Disk.Extent.mk lo (hi - lo)) else None.

(** A stand-in for [RangeData.SubRange]: the bytes of the blocks of [sub]
    inside the bytes of [r], when [sub] lies within [r]. *)
Definition SubRange (r : Disk.RangeData.t) (sub : Disk.Extent.t) : option (nat * nat) :=
  let first := Disk.Extent.LBA (Disk.RangeData.Extent r) in
  let blocks := Disk.Extent.Blocks (Disk.RangeData.Extent r) in
  if (first <=? Disk.Extent.LBA sub)
     && (Disk.Extent.LBA sub + Disk.Extent.Blocks sub <=? first + blocks)
  then Some (Z.to_nat ((Disk.Extent.LBA sub - first) * BlockSize),
             Z.to_nat (Disk.Extent.Blocks sub * BlockSize))
  else None.

Definition one_block : Disk.Extent.t := Disk.Extent.mk 0 1.

(** One block stored raw at offset 8 of segment [seg1]. *)
Definition pe_raw : Disk.PartialExtent.t :=
  Disk.PartialExtent.mk one_block
    (Disk.ExtentLocation.mk (Disk.ExtentHeader.mk one_block Uncompressed 4096 4096 8) seg1).

(** One block stored compressed in two bytes. *)
Definition pe_compressed : Disk.PartialExtent.t :=
  Disk.PartialExtent.mk one_block
    (Disk.ExtentLocation.mk (Disk.ExtentHeader.mk one_block Compressed 2 4096 8) seg1).

Definition dest0 : Disk.RangeData.t := Disk.RangeData.mk one_block 1 (block 0).

(** Nothing cached, no reader open, the segment opens, and the read from
    it fails with an error of the object store. *)
Definition failing_read : Disk.reads :=
  Disk.mkReads (fun _ _ => (false, None, [])) (fun _ => false) (fun _ => None)
    (fun _ _ _ => (0, Some (ErrExternal 7), []))
    (fun _ _ => inl (ErrExternal 9)).

(** The two compressed bytes are in the extent cache, and do not decode. *)
Definition corrupt_cache : Disk.reads :=
  Disk.mkReads (fun _ _ => (true, None, [7; 255])) (fun _ => false) (fun _ => None)
    (fun _ _ _ => (0, Some (ErrExternal 7), []))
    (fun _ _ => inl (ErrExternal 9)).

(** An access without the volume, and the collaborators of [NewDisk]. *)
Definition no_volume : SegmentAccess :=
  mkSegmentAccess None (fun _ => (None, Some (ErrExternal 2))) (fun _ => None).

Definition env0 : NewDisk.env :=
  NewDisk.mkEnv (fun _ => None) (fun _ => no_volume) inr.

(** The option turning [autoCreate] off. *)
Definition no_autoCreate : Option :=
  fun o => mkOpts (sa o) (volName o) false (seqGen o) (afterNS o).

(** A disk whose creators, entries and statistics are numbers, whose map
    is the list of the entries installed and whose registry is the list of
    the segments created; and a [Flush] that fails twice before it
    succeeds. *)
Definition register (seg : SegmentId) (stats : nat) (s : list SegmentId)
  : list SegmentId := s ++ [seg].

Definition update (entries : list nat) (seg : SegmentId) (m : list nat)
    (s : list SegmentId) : list nat * list SegmentId := (m ++ entries, s).

Definition disk0 : CloseSegment.Disk nat (list nat) (list SegmentId) :=
  CloseSegment.mkDisk seg2 (Some 1%nat) (Some 0%nat) [] [] None.

Definition answers : list (CloseSegment.flushed nat nat) :=
  [inl (ErrExternal 1); inl (ErrExternal 2); inr ([5%nat], 9%nat)].

(** The object index of volume [vol] lists [seg1] then [seg2]. *)
Definition bucket0 : gmap string (list Z) :=
  {[ S3.index_key "vol" := S3.index_bytes [seg1; seg2] ]}.

(** A body that breaks off after three bytes. *)
Definition broken_body : list (list Z * option error) :=
  [([1; 2; 3], None); ([], Some (ErrExternal 5))].

Definition flushed : ObjectCreator.flush_result * ObjectCreator.world :=
  ObjectCreator.Flush os.reliable "seg" seg1 world0.

Definition failed : ObjectCreator.flush_result * ObjectCreator.world :=
  ObjectCreator.Flush read_only "seg" seg1 world0.
End Sample.

(** ** The layout of the body *)

Module Layout.
Import ObjectCreator Writer.

(** The bytes of the body a recorded block points at. *)
Definition block_bytes (body : list Z) (b : ocBlock.t) : list Z :=
  take (Z.to_nat (ocBlock.size b)) (drop (Z.to_nat (ocBlock.offset b)) body).

(** Every block that is not empty starts where the blocks recorded before
    it end. *)
Definition tiled (bs : list ocBlock.t) : Prop :=
  forall bs1 b bs2,
    bs = bs1 ++ b :: bs2 -> ocBlock.flags b <> Empty ->
    ocBlock.offset b = total_size bs1.

(** The bytes of a file a map entry points at. *)
Definition entry_bytes (file : list Z) (e : objPBA.t) : list Z :=
  take (Z.to_nat (objPBA.Size e)) (drop (Z.to_nat (PBA.Offset (objPBA.PBA e))) file).

(** An extent of [n] blocks of zeros. *)
Definition zeros (n : nat) : Extent.t :=
  Extent.mk (Z.of_nat n) (replicate (n * Z.to_nat BlockSize) 0).

(** The records of [n] empty blocks from [firstBlock] on. *)
Definition empty_records (firstBlock : LBA) (n : nat) : list ocBlock.t :=
  (fun i => ocBlock.mk (uint64 (firstBlock + Z.of_nat i)) Empty 0 0) <$> seq 0 n.
End Layout.

(** ** More sample data *)

Module Sample2.
(** The three records of [Sample.written]. *)
Definition b10 : ocBlock.t := ocBlock.mk 10 Empty 0 0.
Definition b11 : ocBlock.t := ocBlock.mk 11 Compressed 2 0.
Definition b12 : ocBlock.t := ocBlock.mk 12 Uncompressed 4096 2.

(** A compressor that always fails. *)
Definition no_lz4 (src : list Z) (dst : nat) : error + list Z := inl (ErrExternal 1).
End Sample2.

(** ** [disk.go]: more of the S3 segment access *)

Module S3Ops.
Import S3.

(** Requests other than [GetObject] and [Upload] may fail too. *)
Record faults := mkFaults {
  head_err : string -> option error;
  delete_err : string -> option error
}.

Definition no_faults : faults := mkFaults (fun _ => None) (fun _ => None).




Section Keys.
(** [ulid.ULID.String] of the external ulid library. *)
Variable ulid_String : SegmentId -> string.



End Keys.

(** *** Metadata *)

Record mdWriter := mkMdWriter { md_key : string; md_buf : list Z }.

Definition WriteMetadata (volName name : string) : mdWriter :=
  mkMdWriter (filepath_Join ["volumes"%string; volName; name]) [].

(** [mdWriter.Write]; [None] when the buffer panics. *)
Definition mdWriter_Write (m : mdWriter) (b : list Z) : option (Z * mdWriter) :=
  b' ← Buffer_Write (md_buf m) b;
  Some (len b, mkMdWriter (md_key m) b').

Definition mdWriter_Close (F : S3.faults) (m : mdWriter) (bucket : gmap string (list Z))
  : option error * gmap string (list Z) :=
  Upload F (md_key m) (md_buf m) bucket.

(** Writing a sequence of slices. *)
Fixpoint mdWriter_Writes (m : mdWriter) (bs : list (list Z)) : option mdWriter :=
  match bs with
  | [] => Some m
  | b :: bs' =>
      r ← mdWriter_Write m b;
      mdWriter_Writes r.2 bs'
  end.

(** What [ReadMetadata] returns: the body, [os.ErrNotExist], or the error
    of the request. *)
Inductive metadata :=
| Body (body : list Z)
| ErrNotExist
| Failed (e : error).

Definition ReadMetadata (F : S3.faults) (volName name : string)
    (bucket : gmap string (list Z)) : metadata :=
  let key := filepath_Join ["volumes"%string; volName; name] in
  match GetObject F key bucket with
  | inl e => if isNoSuchKey e then ErrNotExist else Failed e
  | inr body => Body body
  end.

(** *** [ReadAtCompressed] *)

(** The result: a count with nil, or an error, which is that of the read,
    that of the decoder, or the complaint about the decoded size. *)
Inductive decompressed :=
| Count (n : Z)
| ReadFails (e : error)
| DecodeFails (e : error)
| WrongSize (sz : Z).

(** Lines 832-841, shared by both readers: [buf] is what was read, [dest]
    the length of the destination. *)
Definition uncompress (lz4_UncompressBlock : list Z -> nat -> error + list Z)
    (buf : list Z) (dest : nat) : decompressed :=
  match lz4_UncompressBlock buf dest with
  | inl e => DecodeFails e
  | inr out => if len out =? BlockSize then Count (Z.of_nat dest) else WrongSize (len out)
  end.

(** [S3ObjectReader.ReadAtCompressed]; the count returned by [ReadAt] is
    dropped. *)
Definition S3_ReadAtCompressed (getObject : Z * Z -> error + list (list Z * option error))
    (lz4_UncompressBlock : list Z -> nat -> error + list Z)
    (dest : nat) (off : Z) (compSize : nat) : decompressed :=
  let buf := replicate compSize 0 in
  match ReadAt getObject compSize off with
  | (_, Some e, _) => ReadFails e
  | (_, None, stored) => uncompress lz4_UncompressBlock (overwrite buf stored) dest
  end.

(** [LocalFile.ReadAtCompressed], over what [os.File.ReadAt] answers. *)
Definition LocalFile_ReadAtCompressed (f_ReadAt : Z -> nat -> Z * option error * list Z)
    (lz4_UncompressBlock : list Z -> nat -> error + list Z)
    (dest : nat) (off : Z) (compSize : nat) : decompressed :=
  let buf := replicate compSize 0 in
  match f_ReadAt off compSize with
  | (_, Some e, _) => ReadFails e
  | (_, None, stored) => uncompress lz4_UncompressBlock (overwrite buf stored) dest
  end.

(** *** [ListVolumes] *)

Record page := mkPage {
  Contents : list string;
  IsTruncated : option bool;
  NextContinuationToken : option string
}.

(** [key[len(prefix):]], then the part before the first slash if there is
    one. [None] when the key is shorter than the prefix and slicing
    panics. *)
Definition volume_of (key : string) : option string :=
  let prefix := "volumes/"%string in
  if (String.length key <? String.length prefix)%nat then None
  else
    let key := String.substring (String.length prefix)
                 (String.length key - String.length prefix) key in
    match String.index 0 "/" key with
    | Some idx => Some (String.substring 0 idx key)
    | None => Some key
    end.

(** The inner loop over [out.Contents]. *)
Fixpoint volumes_of (keys : list string) (volumes : list string) : option (list string) :=
  match keys with
  | [] => Some volumes
  | key :: keys' =>
      v ← volume_of key;
      volumes_of keys' (volumes ++ [v])
  end.

Inductive listed :=
| Volumes (volumes : list string)
| ListFails (e : error)
| ListPanics.

(** The outer loop, one request per turn; it runs as long as the answers
    are truncated, [None] when the turns allowed are used up. *)
Fixpoint ListVolumes_loop (ListObjectsV2 : option string -> error + page) (turns : nat)
    (token : option string) (volumes : list string) : option listed :=
  match turns with
  | O => None
  | S turns' =>
      match ListObjectsV2 token with
      | inl e => Some (ListFails e)
      | inr out =>
          match volumes_of (Contents out) volumes with
          | None => Some ListPanics
          | Some volumes' =>
              if IsTruncated out is Some true
              then ListVolumes_loop ListObjectsV2 turns' (NextContinuationToken out) volumes'
              else Some (Volumes volumes')
          end
      end
  end.

Definition ListVolumes (ListObjectsV2 : option string -> error + page) (turns : nat)
  : option listed :=
  ListVolumes_loop ListObjectsV2 turns None [].

(** The listing is answered, from [token] on, by the given pages: each
    but the last is truncated and names the token of the next. *)
Fixpoint answered_by (ListObjectsV2 : option string -> error + page)
    (token : option string) (pages : list page) : Prop :=
  match pages with
  | [] => False
  | p :: pages' =>
      ListObjectsV2 token = inr p /\
      match pages' with
      | [] => IsTruncated p <> Some true
      | _ => IsTruncated p = Some true /\
             answered_by ListObjectsV2 (NextContinuationToken p) pages'
      end
  end.
End S3Ops.

Module Sample3.
(** A listing in two pages: two objects of volume [a], then one of [b]. *)
Definition pages : list S3Ops.page :=
  [S3Ops.mkPage ["volumes/a/objects"; "volumes/a/head"]%string (Some true) (Some "t1"%string);
   S3Ops.mkPage ["volumes/b/x/y"%string] (Some false) None].

Definition listing (token : option string) : error + S3Ops.page :=
  match token with
  | None => inr (S3Ops.mkPage ["volumes/a/objects"; "volumes/a/head"]%string
                   (Some true) (Some "t1"%string))
  | Some _ => inr (S3Ops.mkPage ["volumes/b/x/y"%string] (Some false) None)
  end.
End Sample3.

(** ** [disk.go]: the read requests of [ReadExtent] *)

Module ReadRequests.
Import Disk.

(** [last.pe == pe] compares the two structs field by field. *)
#[global] Instance Extent_eq_dec : EqDecision Extent.t.
Proof. solve_decision. Defined.
#[global] Instance ExtentHeader_eq_dec : EqDecision ExtentHeader.t.
Proof. solve_decision. Defined.
#[global] Instance ExtentLocation_eq_dec : EqDecision ExtentLocation.t.
Proof. solve_decision. Defined.
#[global] Instance PartialExtent_eq_dec : EqDecision PartialExtent.t.
Proof. solve_decision. Defined.

Module readRequest.
Record t := mk { pe : PartialExtent.t; extents : list Extent.t }.
End readRequest.

(** [reqs] and [last] hold pointers to requests, and a request is updated
    through [last] after it was put into [reqs].  A pointer is the position
    of the request in the store of the requests allocated so far. *)
Record requests := mkRequests {
  store : list readRequest.t;
  reqs : list nat;
  last : option nat
}.

Definition no_requests : requests := mkRequests [] [] None.

(** Lines 263-286: one partial extent of the hole [h].  A pointer always
    names an allocated request (see [ReadExtent_requests_allocated]), so the
    branch of a pointer without a request is never taken. *)
Definition add (h : Extent.t) (R : requests) (pe : PartialExtent.t) : requests :=
  if PartialExtent.Size pe =? 0 then R
  else
    let r := length (store R) in
    let fresh := mkRequests (store R ++ [readRequest.mk pe [h]]) (reqs R ++ [r]) (Some r) in
    match last R with
    | None => fresh
    | Some p =>
        match store R !! p with
        | None => fresh
        | Some l =>
            if decide (readRequest.pe l = pe)
            then mkRequests
                   (<[p := readRequest.mk (readRequest.pe l) (readRequest.extents l ++ [h])]>
                      (store R))
                   (reqs R) (last R)
            else fresh
        end
    end.

(** Lines 241-287: the loop over [remaining], with what
    [d.lba2pba.Resolve] answers for each hole. *)
Fixpoint ReadExtent_requests (Resolve : Extent.t -> error + list PartialExtent.t)
    (remaining : list Extent.t) (R : requests) : error + requests :=
  match remaining with
  | [] => inr R
  | h :: remaining' =>
      match Resolve h with
      | inl e => inl e
      | inr pes => ReadExtent_requests Resolve remaining' (foldl (add h) R pes)
      end
  end.

(** What the loop of lines 302-309 ranges over: the requests [reqs] points
    to. *)
Definition served (R : requests) : list (PartialExtent.t * list Extent.t) :=
  omap (fun p => r ← store R !! p; Some (readRequest.pe r, readRequest.extents r)) (reqs R).
End ReadRequests.

Module ReadPlan.
Import Disk ReadRequests.

(** The reads asked for: every hole with every partial extent resolved for
    it that has bytes in a segment, in the order of the loops. *)
Definition wanted (Resolve : Extent.t -> error + list PartialExtent.t)
    (remaining : list Extent.t) : list (PartialExtent.t * Extent.t) :=
  remaining ≫= (fun h =>
    match Resolve h with
    | inl _ => []
    | inr pes => (fun pe => (pe, h)) <$> filter (fun pe => PartialExtent.Size pe <> 0) pes
    end).

(** The reads a list of requests stands for. *)
Definition reads_of (rs : list (PartialExtent.t * list Extent.t))
  : list (PartialExtent.t * Extent.t) :=
  rs ≫= (fun r => (fun h => (r.1, h)) <$> r.2).

(** Every pointer of [reqs] names its own request, in the order of
    allocation, and [last] names the newest. *)
Definition allocated (R : requests) : Prop :=
  reqs R = seq 0 (length (store R)) /\
  match last R with
  | None => store R = []
  | Some p => S p = length (store R)
  end.

Definition as_pair (r : readRequest.t) : PartialExtent.t * list Extent.t :=
  (readRequest.pe r, readRequest.extents r).

(** The requests are in groups: none without a hole or without bytes, and
    no two in a row for the same partial extent. *)
Definition grouped (rs : list readRequest.t) : Prop :=
  Forall (fun r => readRequest.extents r <> [] /\
                   PartialExtent.Size (readRequest.pe r) <> 0) rs /\
  forall i a b, rs !! i = Some a -> rs !! S i = Some b ->
                readRequest.pe a <> readRequest.pe b.
End ReadPlan.

Module Sample4.
Import Disk.
(** Two partial extents in one segment, and one without bytes. *)
Definition pe1 : PartialExtent.t :=
  PartialExtent.mk (Extent.mk 0 4)
    (ExtentLocation.mk (ExtentHeader.mk (Extent.mk 0 8) Uncompressed 32768 32768 100)
       Sample.seg1).
Definition pe2 : PartialExtent.t :=
  PartialExtent.mk (Extent.mk 4 4)
    (ExtentLocation.mk (ExtentHeader.mk (Extent.mk 4 4) Uncompressed 16384 16384 40000)
       Sample.seg1).
Definition hole : PartialExtent.t :=
  PartialExtent.mk (Extent.mk 8 1)
    (ExtentLocation.mk (ExtentHeader.mk (Extent.mk 8 1) Empty 0 0 0) Sample.seg1).

(** Three holes: two served by [pe1], the third by [pe1], then nothing,
    then [pe2]. *)
Definition remaining : list Extent.t := [Extent.mk 0 1; Extent.mk 2 1; Extent.mk 3 6].

Definition Resolve (h : Extent.t) : error + list PartialExtent.t :=
  if Extent.LBA h =? 3 then inr [pe1; hole; pe2] else inr [pe1].
End Sample4.

(** ** [disk.go]: the write path *)

Module DiskWrite.
Import CloseSegment.
#[local] Arguments curSeq {_ _ _} _.
#[local] Arguments curOC {_ _ _} _.
#[local] Arguments prevCache {_ _ _} _.
#[local] Arguments lba2pba {_ _ _} _.
#[local] Arguments s {_ _ _} _.
#[local] Arguments afterNS {_ _ _} _.

Section Write.
Variables SegmentCreator ExtentMap Segments : Type.
(** [SegmentCreator.WriteExtent] and [SegmentCreator.BodySize] are declared
    outside the source files at hand.  The creator is updated in place;
    the current creator and the previous cache never name the same one,
    since the current one is fresh whenever the old one becomes the
    previous cache. *)
Variable oc_WriteExtent : Disk.RangeData.t -> SegmentCreator -> option error * SegmentCreator.
Variable BodySize : SegmentCreator -> Z.

(** What a write comes to: a method called on the nil creator, or a return
    with the error, the disk as it is left, and the segment whose flush was
    started, if any. *)
Inductive written :=
| NilCreator
| Wrote (err : option error) (d : Disk SegmentCreator ExtentMap Segments)
    (task : option SegmentId).

(** Lines 520-541 and 564-585: seal the segment once the body has reached
    the threshold.  In debug mode the writer then waits for the flush or
    for the context; this changes neither the disk nor the result. *)
Definition seal_when_full (nsc : created SegmentCreator)
    (d : Disk SegmentCreator ExtentMap Segments) : written :=
  match curOC d with
  | None => NilCreator
  | Some oc =>
      if FlushThreshHold <=? BodySize oc then
        let '((_, err), d', task) := closeSegmentAsync nsc d in
        Wrote err d' task
      else Wrote None d None
  end.

Definition WriteExtent (nsc : created SegmentCreator) (data : Disk.RangeData.t)
    (d : Disk SegmentCreator ExtentMap Segments) : written :=
  match curOC d with
  | None => NilCreator
  | Some oc =>
      let '(err, oc') := oc_WriteExtent data oc in
      let d1 := mkDisk (curSeq d) (Some oc') (prevCache d) (lba2pba d) (s d) (afterNS d) in
      match err with
      | Some e => Wrote (Some e) d1 None
      | None => seal_when_full nsc d1
      end
  end.

(** Lines 556-562: the loop of [WriteExtents]; it stops at the first
    error. *)
Fixpoint write_each (ranges : list Disk.RangeData.t) (oc : SegmentCreator)
  : option error * SegmentCreator :=
  match ranges with
  | [] => (None, oc)
  | data :: ranges' =>
      match oc_WriteExtent data oc with
      | (Some e, oc') => (Some e, oc')
      | (None, oc') => write_each ranges' oc'
      end
  end.

Definition WriteExtents (nsc : created SegmentCreator) (ranges : list Disk.RangeData.t)
    (d : Disk SegmentCreator ExtentMap Segments) : written :=
  match curOC d with
  | None => NilCreator
  | Some oc =>
      let '(err, oc') := write_each ranges oc in
      let d1 := mkDisk (curSeq d) (Some oc') (prevCache d) (lba2pba d) (s d) (afterNS d) in
      match err with
      | Some e => Wrote (Some e) d1 None
      | None => seal_when_full nsc d1
      end
  end.
End Write.

Arguments NilCreator {SegmentCreator ExtentMap Segments}.
Arguments Wrote {SegmentCreator ExtentMap Segments} err d task.
Arguments seal_when_full {SegmentCreator ExtentMap Segments} BodySize nsc d.
Arguments WriteExtent {SegmentCreator ExtentMap Segments} oc_WriteExtent BodySize nsc data d.
Arguments write_each {SegmentCreator} oc_WriteExtent ranges oc.
Arguments WriteExtents {SegmentCreator ExtentMap Segments} oc_WriteExtent BodySize nsc ranges d.
End DiskWrite.

(** ** [disk.go]: [CloseSegment] and [Close] *)

Module Closing.
Import CloseSegment.

(** The context of the call: the error it ends with, if it ends, and, for
    the case that the flush has finished and the context has ended by the
    time of the [select], which of the two is picked. *)
Record ctx := mkCtx { ctx_Err : option error; ctx_picked : bool }.

(** A call has returned, or it is still waiting: the answers of [Flush]
    given so far are all errors and the context has not ended. *)
Inductive waited := Returned (err : option error) | Blocks.

(** [errors.Wrapf]. *)
Inductive wrapped := Wrapf (cause : error) (msg : string).

Inductive closed := CloseReturns (err : option wrapped) | CloseBlocks.

Inductive cevent :=
| CSaveLBAMap
| CLogError (e : error)
| CPurge
| CExtentCacheClose.

Section Close.
Variables SegmentCreator ExtentLocation SegmentStats ExtentMap Segments : Type.
Variable Segments_Create : SegmentId -> SegmentStats -> Segments -> Segments.
Variable UpdateBatch :
  list ExtentLocation -> SegmentId -> ExtentMap -> Segments -> ExtentMap * Segments.

(** [Disk.CloseSegment]: what the caller gets, and the flush task with its
    trace, the disk it leaves and whether it finishes. *)
Definition CloseSegment (nsc : created SegmentCreator)
    (answers : list (flushed ExtentLocation SegmentStats)) (cleanup : option error)
    (c : ctx) (d : Disk SegmentCreator ExtentMap Segments)
  : waited * (list (tevent ExtentLocation SegmentStats) * Disk SegmentCreator ExtentMap Segments * bool) :=
  let '((ch, err), task) := seal_and_flush Segments_Create UpdateBatch nsc answers cleanup d in
  (if negb ch || (if err is Some _ then true else false) then Returned err
   else
     match task.2, ctx_Err c with
     | true, None => Returned None
     | true, Some e => if ctx_picked c then Returned (Some e) else Returned None
     | false, Some e => Returned (Some e)
     | false, None => Blocks
     end,
   task).

(** [Disk.Close], with the answer of [saveLBAMap]. *)
Definition Close (nsc : created SegmentCreator)
    (answers : list (flushed ExtentLocation SegmentStats)) (cleanup : option error)
    (c : ctx) (saveLBAMap : option error) (d : Disk SegmentCreator ExtentMap Segments)
  : closed * list cevent * (list (tevent ExtentLocation SegmentStats) * Disk SegmentCreator ExtentMap Segments * bool) :=
  let '(r, task) := CloseSegment nsc answers cleanup c d in
  match r with
  | Blocks => (CloseBlocks, [], task)
  | Returned (Some e) => (CloseReturns (Some (Wrapf e "error closing segment")), [], task)
  | Returned None =>
      match saveLBAMap with
      | Some e =>
          (CloseReturns (Some (Wrapf e "error saving lba map")),
           [CSaveLBAMap; CLogError e; CPurge; CExtentCacheClose], task)
      | None => (CloseReturns None, [CSaveLBAMap; CPurge; CExtentCacheClose], task)
      end
  end.
End Close.

Arguments CloseSegment {SegmentCreator ExtentLocation SegmentStats ExtentMap Segments}.
Arguments Close {SegmentCreator ExtentLocation SegmentStats ExtentMap Segments}.
End Closing.

Module Sample5.
Import CloseSegment.
(** A creator given by the size of its body; a write adds the bytes of the
    range as they are. *)
Definition oc_WriteExtent (data : Disk.RangeData.t) (oc : Z) : option error * Z :=
  (None, oc + len (Disk.RangeData.data data)).
Definition BodySize (oc : Z) : Z := oc.

Definition range (n : Z) : Disk.RangeData.t :=
  Disk.RangeData.mk (Disk.Extent.mk 0 1) 1 (replicate (Z.to_nat n) 7).

(** A disk whose current creator is 8 bytes short of the threshold. *)
Definition disk : Disk Z (list nat) (list SegmentId) :=
  mkDisk Sample.seg1 (Some (FlushThreshHold - 8)) None [] [] None.
End Sample5.

(** ** Reading a header back *)

Module HeaderReading.
(** The unsigned varint at the front of a byte sequence, and the bytes
    after it. *)
Fixpoint uvarint_split (b : list Z) : Z * list Z :=
  match b with
  | [] => (0, [])
  | x :: b' =>
      if x <? 128 then (x, b')
      else let '(v, rest) := uvarint_split b' in (x - 128 + 128 * v, rest)
  end.

(** The record at the front of a header, and the bytes after it. *)
Definition record_split (b : list Z) : ocBlock.t * list Z :=
  let '(lba, b1) := uvarint_split b in
  match b1 with
  | [] => (ocBlock.mk lba 0 0 0, [])
  | flags :: b2 =>
      let '(size, b3) := uvarint_split b2 in
      let '(offset, b4) := uvarint_split b3 in
      (ocBlock.mk lba flags size offset, b4)
  end.

(** The fields of a record are in the range of their Go types. *)
Definition in_range (blk : ocBlock.t) : Prop :=
  0 <= ocBlock.lba blk < 2 ^ 64 /\ 0 <= ocBlock.flags blk < 256 /\
  0 <= ocBlock.size blk < 2 ^ 64 /\ 0 <= ocBlock.offset blk < 2 ^ 64.

(** Reading [n] records one after the other. *)
Fixpoint records_split (n : nat) (b : list Z) : list ocBlock.t * list Z :=
  match n with
  | O => ([], b)
  | S n' =>
      let '(r, b1) := record_split b in
      let '(rs, b2) := records_split n' b1 in
      (r :: rs, b2)
  end.

(** Reading a segment file: the count and the start of the data from the
    first eight bytes, that many records from the header, and the data. *)
Definition read_segment (file : list Z) : list ocBlock.t * list Z :=
  let cnt := Writer.Uint32 (take 4 file) in
  let dataBegin := Writer.Uint32 (take 4 (drop 4 file)) in
  let hdr := take (Z.to_nat dataBegin - 8) (drop 8 file) in
  ((records_split (Z.to_nat cnt) hdr).1, drop (Z.to_nat dataBegin) file).
End HeaderReading.

(** ** The trace of a fetch *)

Module ReadTrace.
Import Disk.

Definition log_of (f : fetched) : list revent :=
  match f with
  | FetchReturns _ log => log
  | Fetched _ log => log
  end.

(** Two ranges of the same shape: the same extent, block count and number
    of bytes. *)
Definition same_shape (a b : RangeData.t) : Prop :=
  RangeData.Extent a = RangeData.Extent b /\
  RangeData.blocks a = RangeData.blocks b /\
  length (RangeData.data a) = length (RangeData.data b).
End ReadTrace.

(** ** [path/filepath] *)

(** [filepath.Clean] and [filepath.Join] of the Go library on a system
    whose separator is the slash, by the rules of their documentation:
    runs of slashes count as one, every [.] element goes, a [..] element
    goes together with the element before it, or alone at the start of a
    rooted path, and stays at the start of a path that is not rooted; the
    empty result is written [.].  [Join] ignores empty elements, cleans the
    result, and answers the empty string when nothing is left to join. *)
Module filepath.
Definition slash : Ascii.ascii := Ascii.ascii_of_nat 47.

(** The pieces of a path between its slashes. *)
Fixpoint elements (path : string) : list string :=
  match path with
  | EmptyString => [EmptyString]
  | String c path' =>
      if Ascii.eqb c slash then EmptyString :: elements path'
      else
        match elements path' with
        | [] => [String c EmptyString]
        | e :: es => String c e :: es
        end
  end.

Definition rooted (path : string) : bool :=
  match path with
  | String c _ => Ascii.eqb c slash
  | EmptyString => false
  end.

(** One element more, after the elements [out] kept so far. *)
Definition keep (rooted : bool) (out : list string) (e : string) : list string :=
  if String.eqb e "" || String.eqb e "." then out
  else if String.eqb e ".." then
    match last out with
    | Some l =>
        if String.eqb l ".." then out ++ [e] else take (length out - 1) out
    | None => if rooted then out else out ++ [e]
    end
  else out ++ [e].

Definition Clean (path : string) : string :=
  if String.eqb path "" then "."%string
  else
    let out := foldl (keep (rooted path)) [] (elements path) in
    if rooted path then ("/" ++ String.concat "/" out)%string
    else if bool_decide (out = []) then "."%string
    else String.concat "/" out.

Definition Join (elem : list string) : string :=
  match filter (fun e => e ≠ ""%string) elem with
  | [] => ""%string
  | es => Clean (String.concat "/" es)
  end.

Fixpoint no_slash (e : string) : bool :=
  match e with
  | EmptyString => true
  | String c e' => negb (Ascii.eqb c slash) && no_slash e'
  end.

(** A path element that cleaning leaves as it is: a name without a slash
    other than the empty one, [.] and [..]. *)
Definition clean_element (e : string) : bool :=
  no_slash e && negb (String.eqb e "") && negb (String.eqb e ".")
    && negb (String.eqb e "..").
End filepath.

(** ** A segment of four gigabytes *)

Module Sample6.
(** A compressor that gains nothing: it stores nothing and returns the
    size 0, as [lz4.CompressBlock] does for data that does not compress. *)
Definition lz4 (src : list Z) (n : nat) : error + list Z := inr [].

(** The number of blocks, [2 ^ 20], and an extent of that many blocks
    whose bytes are all 1. *)
Definition count : nat := Z.to_nat (2 ^ 20).
Definition ext : Extent.t :=
  Extent.mk (2 ^ 20) (replicate (Z.to_nat BlockSize * count) 1).

(** The record of the [i]-th block: stored as it is, at [BlockSize * i]. *)
Definition block (i : nat) : ocBlock.t :=
  ocBlock.mk (Z.of_nat i) Uncompressed BlockSize (BlockSize * Z.of_nat i).

(** The creator after [k] of the blocks, [B] standing for the number of
    bytes of a block. *)
Definition after (B k : nat) : ObjectCreator.t :=
  ObjectCreator.mk (Z.of_nat k) (BlockSize * Z.of_nat k) (block <$> seq 0 k)
    (replicate (Z.to_nat (2 * BlockSize)) 0) [] (replicate (B * k) 1).

(** The creator after the extent was written at address 0 to the zero
    value: the body has [2 ^ 32] bytes. *)
Definition written : ObjectCreator.t := after (Z.to_nat BlockSize) count.

Definition world : ObjectCreator.world := ObjectCreator.mkWorld written ∅ ∅ 0 [].

(** The last block, the one recorded for address [2 ^ 20 - 1]. *)
Definition last_block : ocBlock.t :=
  ocBlock.mk (2 ^ 20 - 1) Uncompressed BlockSize (2 ^ 32 - BlockSize).
End Sample6.

(** * Properties *)

(** ** Arithmetic and slices *)

Lemma len_nonneg {A} (l : list A) : 0 <= len l.
Proof. unfold len. lia. Qed.

Lemma len_app {A} (a b : list A) : len (a ++ b) = len a + len b.
Proof. unfold len. rewrite length_app. lia. Qed.

Lemma uint64_small x : 0 <= x <= maxInt -> uint64 x = x.
Proof. unfold uint64, maxInt. intros H. apply Z.mod_small. lia. Qed.

Lemma int_small x : 0 <= x <= maxInt -> int x = x.
Proof.
  unfold int, maxInt. intros H.
  rewrite Z.mod_small; lia.
Qed.

Lemma Buffer_Write_Some b p b' :
  Buffer_Write b p = Some b' -> b' = b ++ p /\ len b + len p <= maxInt.
Proof.
  unfold Buffer_Write. destruct (Z.leb_spec (len b + len p) maxInt); [|discriminate].
  intros [= <-]. auto.
Qed.

Lemma append_Some {A} (s : list A) x s' :
  append s x = Some s' -> s' = s ++ [x] /\ len s + 1 <= maxInt.
Proof.
  unfold append. destruct (Z.leb_spec (len s + 1) maxInt); [|discriminate].
  intros [= <-]. auto.
Qed.

Lemma bytes_Equal_eq a b : bytes_Equal a b = true <-> a = b.
Proof.
  revert b. induction a as [|x a IH]; intros [|y b]; simpl; try (split; [discriminate|congruence]).
  - split; auto.
  - rewrite andb_true_iff, Z.eqb_eq, IH. split; [intros [-> ->]|intros [= -> ->]]; auto.
Qed.

Lemma overwrite_length dst out : length (overwrite dst out) = length dst.
Proof.
  unfold overwrite. rewrite length_take, length_app, length_drop. lia.
Qed.

Lemma overwrite_take dst out :
  (length out <= length dst)%nat -> take (length out) (overwrite dst out) = out.
Proof.
  intros H. unfold overwrite.
  rewrite take_take, Nat.min_l by lia.
  now rewrite take_app_length.
Qed.

(** ** The segment writer keeps its invariant *)

Module WriterFacts.
Import ObjectCreator Writer.

Lemma BlockSize_nat : Z.to_nat BlockSize = 4096%nat.
Proof. reflexivity. Qed.

Lemma BlockView_len ext i view :
  Extent.BlockView ext i = Some view -> len view = BlockSize.
Proof.
  unfold Extent.BlockView.
  assert (Z.of_nat (Z.to_nat BlockSize) = BlockSize) as Hn by (apply Z2Nat.id; unfold BlockSize; lia).
  revert Hn. generalize (Z.to_nat BlockSize). intros n Hn.
  case_match; [|discriminate]. intros [= <-].
  apply Nat.leb_le in H.
  unfold len. rewrite length_take, length_drop. lia.
Qed.

Lemma emptyBytes_Forall view :
  len view = BlockSize -> emptyBytes view = true <-> Forall (fun x => x = 0) view.
Proof.
  intros Hlen. unfold emptyBytes, emptyBlock. rewrite bytes_Equal_eq. split.
  - intros ->. apply Forall_replicate. reflexivity.
  - intros HF. symmetry. apply replicate_as_Forall. split.
    + unfold len in Hlen. lia.
    + eapply Forall_impl; [exact HF|]. simpl. intros; congruence.
Qed.

Section WithLz4.
Variable lz4 : list Z -> nat -> error + list Z.

(** What a turn of the loop that goes on does to the creator. *)
Lemma WriteExtent_iter_Next fb ext o i o' :
  len (buf o) = 2 * BlockSize ->
  0 <= offset o <= maxInt -> 0 <= cnt o <= maxInt ->
  cnt o = len (blocks o) -> offset o = len (body o) ->
  WriteExtent_iter lz4 fb ext o i = Next o' ->
  exists view flags payload,
    Extent.BlockView ext i = Some view /\ len view = BlockSize /\
    spec_encode_block lz4 view = Some (flags, payload) /\
    len payload <= BlockSize /\
    len (buf o') = 2 * BlockSize /\
    len (blocks o) + 1 <= maxInt /\ len (body o) + len payload <= maxInt /\
    o' = mk (cnt o + 1) (offset o + len payload)
           (blocks o ++ [ocBlock.mk (uint64 (fb + Z.of_nat i)) flags (len payload)
                           (if decide (flags = Empty) then 0 else offset o)])
           (buf o') (header o) (body o ++ payload).
Proof.
  intros Hbuf Hoff Hcnt Hc Ho. unfold WriteExtent_iter.
  destruct (Extent.BlockView ext i) as [view|] eqn:Hview; [|discriminate].
  pose proof (BlockView_len _ _ _ Hview) as Hlen.
  destruct (emptyBytes view) eqn:Hempty.
  - destruct (append _ _) as [bs|] eqn:Happ; [|discriminate].
    apply append_Some in Happ as [-> Hmax]. intros [= <-].
    exists view, Empty, []. simpl.
    apply emptyBytes_Forall in Hempty; [|done].
    unfold spec_encode_block. rewrite decide_True by done.
    rewrite app_nil_r, Z.add_0_r, int_small by lia.
    pose proof (len_nonneg (body o)). unfold BlockSize.
    repeat split; try done; try lia.
    unfold len; simpl. rewrite Z.add_0_r. done.
  - assert (~ Forall (fun x => x = 0) view) as Hnz.
    { intros HF. apply emptyBytes_Forall in HF; congruence. }
    unfold CompressBlock.
    assert (length (buf o) = Z.to_nat (2 * BlockSize)) as Hbn by (unfold len in Hbuf; lia).
    destruct (lz4 view (length (buf o))) as [e|out] eqn:Hlz; [discriminate|].
    set (buf' := overwrite (buf o) out).
    assert (len buf' = 2 * BlockSize) as Hbuf'.
    { unfold len, buf'. rewrite overwrite_length. unfold len in Hbuf. done. }
    destruct ((0 <? len out) && (len out <? BlockSize)) eqn:Hc1.
    + apply andb_true_iff in Hc1 as [H0 H1]. apply Z.ltb_lt in H0, H1.
      assert (take (Z.to_nat (len out)) buf' = out) as Htake.
      { unfold len. rewrite Nat2Z.id. apply overwrite_take.
        unfold len in H1. unfold BlockSize in *. lia. }
      rewrite Htake.
      destruct (Buffer_Write _ _) as [body'|] eqn:Hw; [|discriminate].
      apply Buffer_Write_Some in Hw as [-> Hmax].
      destruct (append _ _) as [bs|] eqn:Happ; [|discriminate].
      apply append_Some in Happ as [-> Hmax']. intros [= <-].
      exists view, Compressed, out. simpl.
      unfold spec_encode_block. rewrite decide_False by done.
      rewrite <- Hbn, Hlz, decide_True by lia.
      pose proof (len_nonneg (body o)).
      rewrite (uint64_small (len out)) by lia.
      rewrite uint64_small, int_small by lia.
      repeat split; try done; try lia.
    + destruct (Buffer_Write _ _) as [body'|] eqn:Hw; [|discriminate].
      apply Buffer_Write_Some in Hw as [-> Hmax].
      destruct (append _ _) as [bs|] eqn:Happ; [|discriminate].
      apply append_Some in Happ as [-> Hmax']. intros [= <-].
      exists view, Uncompressed, view. simpl.
      unfold spec_encode_block. rewrite decide_False by done.
      rewrite <- Hbn, Hlz, decide_False.
      2:{ apply andb_false_iff in Hc1 as [H0|H1]; [apply Z.ltb_ge in H0|apply Z.ltb_ge in H1]; lia. }
      pose proof (len_nonneg (body o)).
      assert (0 <= len view <= maxInt) as Hv.
      { rewrite Hlen. unfold maxInt, BlockSize. lia. }
      rewrite (uint64_small (len view)) by done.
      rewrite uint64_small, int_small by lia.
      repeat split; try done; try lia.
Qed.

Lemma WriteExtent_iter_Stop fb ext o i err o' :
  WriteExtent_iter lz4 fb ext o i = Stop (Returns err o') ->
  err <> None /\ length (buf o') = length (buf o) /\
  o' = mk (cnt o) (offset o) (blocks o) (buf o') (header o) (body o).
Proof.
  unfold WriteExtent_iter, CompressBlock.
  repeat (case_match; try discriminate); simplify_eq; intros [= <- <-]; simpl.
  all: repeat split; try done; by rewrite ?overwrite_length.
Qed.

Lemma spec_encode_block_flags view flags payload :
  spec_encode_block lz4 view = Some (flags, payload) ->
  (flags = Empty /\ payload = []) \/
  (flags = Compressed /\ 0 < len payload < BlockSize) \/
  (flags = Uncompressed /\ payload = view).
Proof.
  unfold spec_encode_block. repeat case_match; intros [= <- <-]; auto.
Qed.

Lemma total_size_snoc bs b : total_size (bs ++ [b]) = total_size bs + ocBlock.size b.
Proof.
  unfold total_size. induction bs as [|x bs IH]; simpl; [lia|]. rewrite IH. lia.
Qed.

Lemma block_ok_mono n n' b : n <= n' -> block_ok n b -> block_ok n' b.
Proof.
  unfold block_ok, in_body. intros Hn (H1 & H2 & H3 & H4).
  repeat split; try tauto; try lia; destruct (H2 ltac:(assumption)); lia.
Qed.

Lemma WriteExtent_iter_inv fb ext o i o' :
  inv o -> len (buf o) = 2 * BlockSize ->
  WriteExtent_iter lz4 fb ext o i = Next o' ->
  inv o' /\ len (buf o') = 2 * BlockSize.
Proof.
  intros [Hc Ho Hb Ht Hh Hbuf Hm1 Hm2] Hlen Hit.
  pose proof (len_nonneg (blocks o)). pose proof (len_nonneg (body o)).
  apply WriteExtent_iter_Next in Hit; try done; try lia.
  destruct Hit as (view & flags & payload & Hv & Hvl & Henc & Hpl & Hbuf' & Hx1 & Hx2 & ->).
  split; [|done]. pose proof (len_nonneg payload).
  apply spec_encode_block_flags in Henc.
  constructor; simpl; rewrite ?len_app; try done; try lia.
  - unfold len at 2. simpl. lia.
  - apply Forall_app. split.
    + eapply Forall_impl; [exact Hb|]. intros b. apply block_ok_mono. lia.
    + apply Forall_singleton. unfold block_ok, in_body; simpl.
      assert (0 <= uint64 (fb + Z.of_nat i) < 2 ^ 64) by (apply Z.mod_pos_bound; lia).
      unfold Empty, Compressed, Uncompressed in *.
      destruct Henc as [[-> ->]|[[-> ?]|[-> ->]]]; simpl; repeat split; try done; try lia; auto.
  - rewrite total_size_snoc. simpl. lia.
Qed.

Lemma WriteExtent_loop_inv fb ext idx : forall o err o',
  inv o -> len (buf o) = 2 * BlockSize ->
  WriteExtent_loop lz4 fb ext idx o = Returns err o' ->
  inv o' /\ len (buf o') = 2 * BlockSize.
Proof.
  induction idx as [|i idx IH]; simpl; intros o err o' Hinv Hlen.
  - intros [= <- <-]. done.
  - destruct (WriteExtent_iter lz4 fb ext o i) as [o1|r] eqn:Hit.
    + apply WriteExtent_iter_inv in Hit as [? ?]; eauto.
    + intros ->. apply WriteExtent_iter_Stop in Hit as (_ & Hl & ->).
      destruct Hinv. split; [constructor; simpl; try done|].
      * right. unfold len in *. lia.
      * unfold len in *. simpl. lia.
Qed.

Lemma zero_inv : inv zero.
Proof.
  constructor; simpl; try done; auto; unfold len, maxInt; simpl; lia.
Qed.

Lemma Reset_inv o : inv o -> inv (Reset o).
Proof.
  intros []. constructor; simpl; try done; unfold len, maxInt; simpl; lia.
Qed.

Lemma scratch_inv o :
  inv o ->
  let o1 := mk (cnt o) (offset o) (blocks o)
              (replicate (Z.to_nat (2 * BlockSize)) 0) (header o) (body o) in
  inv o1 /\ len (buf o1) = 2 * BlockSize.
Proof.
  intros [].
  assert (len (replicate (Z.to_nat (2 * BlockSize)) 0) = 2 * BlockSize) as Hl.
  { unfold len. rewrite length_replicate. apply Z2Nat.id. unfold BlockSize. lia. }
  split; [constructor|]; cbn [cnt offset blocks buf header body]; auto.
Qed.

Lemma WriteExtent_inv fb ext o err o' :
  inv o -> WriteExtent lz4 fb ext o = Returns err o' -> inv o'.
Proof.
  intros Hinv. unfold WriteExtent.
  assert (forall o1, inv o1 -> len (buf o1) = 2 * BlockSize ->
            WriteExtent_loop lz4 fb ext (seq 0 (Z.to_nat (Extent.Blocks ext))) o1
              = Returns err o' -> inv o') as Hloop.
  { intros o1 H1 H2 H3. by apply WriteExtent_loop_inv in H3 as [? _]. }
  destruct (buf o) as [|x b] eqn:Hb.
  - destruct (scratch_inv o Hinv). by apply Hloop.
  - apply Hloop; [done|]. destruct Hinv as [_ _ _ _ _ [Hn|Hn] _ _]; congruence.
Qed.

Lemma File_Write_frame fs path p w :
  exists files' part,
    (File_Write fs path p w).2
    = mkWorld (oc w) (lbas w) files' (S (nwrites w)) (log w ++ [EvWrite path part]).
Proof.
  unfold File_Write. destruct (os.write_err fs (nwrites w)) as [[n e]|]; simpl; eauto.
Qed.

Lemma io_Copy_frame fs path p w :
  exists files' n' evs,
    (io_Copy fs path p w).2 = mkWorld (oc w) (lbas w) files' n' (log w ++ evs) /\
    Forall (fun e => is_install e = false) evs.
Proof.
  unfold io_Copy. destruct p as [|x p].
  - exists (files w), (nwrites w), []. simpl. rewrite app_nil_r. by destruct w.
  - destruct (File_Write_frame fs path (x :: p) w) as (f & part & ->).
    eexists _, _, [_]. split; [done|]. by repeat constructor.
Qed.

(** The shape of every run of the body of [Flush]: the header is built,
    then every block is set in the map, and only then is the file touched. *)
Lemma Flush_body_shape fs path seg w :
  match Flush_header (blocks (oc w)) (header (oc w)) with
  | None => Flush_body fs path seg w = (FlushPanics, w)
  | Some hdr =>
      let o := oc w in
      let dataBegin := uint32 (len hdr + 8) in
      exists err files' n' rest,
        Flush_body fs path seg w
        = (FlushReturns err,
           mkWorld (mk (cnt o) (offset o) (blocks o) (buf o) hdr (body o))
             (Flush_install seg dataBegin (blocks o) (lbas w)) files' n'
             (log w ++ install_events seg dataBegin (blocks o) ++ rest)) /\
        Forall (fun e => is_install e = false) rest /\
        (rest = [] /\ err = os.create_err fs /\ err <> None /\ files' = files w
         \/ exists rest', rest = EvCreate path :: rest' /\ os.create_err fs = None)
  end.
Proof.
  unfold Flush_body.
  destruct (Flush_header _ _) as [hdr|]; [|done]. simpl.
  destruct (os.create_err fs) as [e|] eqn:Hc.
  - exists (Some e), (files w), (nwrites w), []. rewrite app_nil_r.
    repeat split; auto.
  - set (o1 := mk _ _ _ _ hdr _).
    set (m1 := Flush_install _ _ _ _).
    set (l1 := log w ++ install_events _ _ _).
    set (w2 := mkWorld o1 m1 _ 0 (l1 ++ [EvCreate path])).
    destruct (File_Write_frame fs path (PutUint32 (uint32 (cnt (oc w)))) w2) as (f3 & p3 & H3).
    destruct (File_Write fs path (PutUint32 (uint32 (cnt (oc w)))) w2) as [e3 w3].
    simpl in H3. subst w3.
    set (w3 := mkWorld _ _ f3 _ _).
    destruct e3 as [e3|].
    { eexists _, _, _, [_; _; _]. split.
      - unfold w2, l1 in *; simpl; rewrite <- ?app_assoc; simpl; reflexivity.
      - split; [by repeat constructor|]. right. eauto. }
    destruct (File_Write_frame fs path (PutUint32 (uint32 (len hdr + 8))) w3) as (f4 & p4 & H4).
    destruct (File_Write fs path (PutUint32 (uint32 (len hdr + 8))) w3) as [e4 w4].
    simpl in H4. subst w4.
    set (w4 := mkWorld _ _ f4 _ _).
    destruct e4 as [e4|].
    { eexists _, _, _, [_; _; _; _]. split.
      - unfold w2, l1 in *; simpl; rewrite <- ?app_assoc; simpl; reflexivity.
      - split; [by repeat constructor|]. right. eauto. }
    destruct (io_Copy_frame fs path hdr w4) as (f5 & n5 & ev5 & H5 & HF5).
    destruct (io_Copy fs path hdr w4) as [e5 w5].
    simpl in H5. subst w5.
    set (w5 := mkWorld _ _ f5 _ _).
    destruct e5 as [e5|].
    { eexists _, _, _, ([_; _; _] ++ ev5 ++ [_]). split.
      - unfold w2, l1 in *; simpl; rewrite <- ?app_assoc; simpl; reflexivity.
      - split; [|right; eauto].
        repeat (apply Forall_cons; split; [done|]).
        apply Forall_app. split; [done|]. by repeat constructor. }
    destruct (io_Copy_frame fs path (body (oc w)) w5) as (f6 & n6 & ev6 & H6 & HF6).
    destruct (io_Copy fs path (body (oc w)) w5) as [e6 w6].
    simpl in H6. subst w6.
    exists e6, f6, n6, ([EvCreate path; EvWrite path p3; EvWrite path p4] ++ ev5 ++ ev6 ++ [EvClose path]).
    split.
    + unfold w2, l1 in *; destruct e6; simpl; rewrite <- ?app_assoc; simpl; reflexivity.
    + split; [|right; eauto].
      repeat (apply Forall_cons; split; [done|]).
      rewrite !Forall_app. repeat split; try done. by repeat constructor.
Qed.

Lemma Flush_oc fs path seg w : oc (Flush fs path seg w).2 = Reset (oc w).
Proof.
  unfold Flush. pose proof (Flush_body_shape fs path seg w) as H.
  destruct (Flush_header _ _) as [hdr|].
  - destruct H as (err & f & n & rest & -> & _). reflexivity.
  - rewrite H. reflexivity.
Qed.

(** Every creator a program can hold satisfies the invariant. *)
Lemma reachable_inv o : reachable lz4 o -> inv o.
Proof.
  induction 1 as [|fb ext o err o' _ IH Hw|o _ IH|fs path seg w _ IH].
  - apply zero_inv.
  - eapply WriteExtent_inv; eauto.
  - by apply Reset_inv.
  - rewrite Flush_oc. by apply Reset_inv.
Qed.
End WithLz4.
End WriterFacts.

(** ** What [WriteExtent] records *)

Module WriterRefinement.
Import ObjectCreator Writer WriterFacts.

Section WithLz4.
Variable lz4 : list Z -> nat -> error + list Z.

(** A turn of the loop returns only when the compressor fails. *)
Lemma WriteExtent_iter_Returns fb ext o i err o' :
  len (buf o) = 2 * BlockSize ->
  WriteExtent_iter lz4 fb ext o i = Stop (Returns err o') ->
  exists view,
    Extent.BlockView ext i = Some view /\ spec_encode_block lz4 view = None /\
    err <> None.
Proof.
  intros Hbuf. unfold WriteExtent_iter.
  destruct (Extent.BlockView ext i) as [view|] eqn:Hview; [|discriminate].
  pose proof (BlockView_len _ _ _ Hview) as Hlen.
  destruct (emptyBytes view) eqn:Hempty.
  { destruct (append _ _); discriminate. }
  assert (~ Forall (fun x => x = 0) view) as Hnz.
  { intros HF. apply emptyBytes_Forall in HF; congruence. }
  assert (length (buf o) = Z.to_nat (2 * BlockSize)) as Hbn by (unfold len in Hbuf; lia).
  unfold CompressBlock.
  destruct (lz4 view (length (buf o))) as [e|out] eqn:Hlz.
  - intros [= <- <-]. exists view. unfold spec_encode_block.
    rewrite decide_False by done. rewrite <- Hbn, Hlz. done.
  - destruct ((0 <? len out) && (len out <? BlockSize));
      destruct (Buffer_Write _ _); try discriminate;
      destruct (append _ _); discriminate.
Qed.

Lemma WriteExtent_loop_records fb ext idx : forall o err o',
  inv o -> len (buf o) = 2 * BlockSize ->
  WriteExtent_loop lz4 fb ext idx o = Returns err o' ->
  exists served rest recs payloads,
    idx = served ++ rest /\
    Forall3 (encodes lz4 fb ext) served recs payloads /\
    blocks o' = blocks o ++ recs /\
    body o' = body o ++ mjoin payloads /\
    match err with
    | None => rest = []
    | Some _ =>
        exists i rest' view,
          rest = i :: rest' /\ Extent.BlockView ext i = Some view /\
          spec_encode_block lz4 view = None
    end.
Proof.
  induction idx as [|i idx IH]; simpl; intros o err o' Hinv Hlen.
  - intros [= <- <-]. exists [], [], [], []. simpl. rewrite !app_nil_r.
    split; [done|]. split; [constructor|]. done.
  - destruct (WriteExtent_iter lz4 fb ext o i) as [o1|r] eqn:Hit.
    + intros Hloop.
      pose proof (WriteExtent_iter_inv lz4 _ _ _ _ _ Hinv Hlen Hit) as [Hinv1 Hlen1].
      destruct (IH _ _ _ Hinv1 Hlen1 Hloop)
        as (served & rest & recs & payloads & -> & HF & Hb & Hbody & Herr).
      destruct Hinv as [Hc Ho _ _ _ _ Hm1 Hm2].
      pose proof (len_nonneg (blocks o)). pose proof (len_nonneg (body o)).
      apply WriteExtent_iter_Next in Hit; try done; try lia.
      destruct Hit as (view & flags & payload & Hv & Hvl & Henc & _ & _ & _ & _ & Ho1).
      rewrite Ho1 in Hb, Hbody. simpl in Hb, Hbody.
      exists (i :: served), rest,
        (ocBlock.mk (uint64 (fb + Z.of_nat i)) flags (len payload)
           (if decide (flags = Empty) then 0 else offset o) :: recs),
        (payload :: payloads). split; [done|]. split; [|split; [|split]].
      * constructor; [|exact HF]. exists view. simpl. done.
      * rewrite Hb, <- app_assoc. reflexivity.
      * rewrite Hbody, <- app_assoc. reflexivity.
      * exact Herr.
    + intros ->. pose proof Hit as Hstop.
      apply WriteExtent_iter_Returns in Hit as (view & Hv & Henc & Hne); [|done].
      apply WriteExtent_iter_Stop in Hstop as (_ & _ & ->). simpl.
      exists [], (i :: idx), [], []. simpl. rewrite !app_nil_r.
      split; [done|]. split; [constructor|]. split; [done|]. split; [done|].
      destruct err as [e|]; [|congruence]. by exists i, idx, view.
Qed.

Lemma seq_prefix n (served rest : list nat) :
  seq 0 n = served ++ rest ->
  served = seq 0 (length served) /\ (rest = [] -> length served = n) /\
  forall i rest', rest = i :: rest' -> i = length served /\ (length served < n)%nat.
Proof.
  intros Hs.
  assert (length served + length rest = n)%nat as Hn.
  { rewrite <- length_app, <- Hs. apply length_seq. }
  split; [|split; [intros ->; simpl in Hn; lia|]].
  - assert (take (length served) (seq 0 n) = served) as Ht
      by (rewrite Hs; apply take_app_length).
    rewrite take_seq, Nat.min_l in Ht by lia. done.
  - intros i rest' ->. simpl in Hn. split; [|lia].
    assert (seq 0 n !! length served = Some i) as Hl
      by (rewrite Hs; apply list_lookup_middle; done).
    apply lookup_seq in Hl as [-> _]. lia.
Qed.

(** C4: each block handed to [WriteExtent] is recorded as the rule of the
    specification says: an all-zero block gets flags [Empty], size 0 and
    no body bytes; any other block is compressed into the scratch buffer of
    2 x BlockSize bytes and, when the compressed size is strictly between
    0 and BlockSize, the compressed bytes are appended with flags
    [Compressed], otherwise the raw block with flags [Uncompressed].  The
    call returns an error only when the compressor fails on a block, the
    blocks before it having been recorded. *)
Theorem WriteExtent_encodes_blocks firstBlock ext o err o' :
  reachable lz4 o ->
  WriteExtent lz4 firstBlock ext o = Returns err o' ->
  exists k recs payloads,
    Forall3 (encodes lz4 firstBlock ext) (seq 0 k) recs payloads /\
    blocks o' = blocks o ++ recs /\
    body o' = body o ++ mjoin payloads /\
    match err with
    | None => k = Z.to_nat (Extent.Blocks ext)
    | Some _ =>
        (k < Z.to_nat (Extent.Blocks ext))%nat /\
        exists view,
          Extent.BlockView ext k = Some view /\ spec_encode_block lz4 view = None
    end.
Proof.
  intros Hr. apply reachable_inv in Hr. unfold WriteExtent.
  assert (forall o1, inv o1 -> len (buf o1) = 2 * BlockSize ->
            blocks o1 = blocks o -> body o1 = body o ->
            WriteExtent_loop lz4 firstBlock ext (seq 0 (Z.to_nat (Extent.Blocks ext))) o1
            = Returns err o' ->
            exists k recs payloads,
              Forall3 (encodes lz4 firstBlock ext) (seq 0 k) recs payloads /\
              blocks o' = blocks o ++ recs /\
              body o' = body o ++ mjoin payloads /\
              match err with
              | None => k = Z.to_nat (Extent.Blocks ext)
              | Some _ =>
                  (k < Z.to_nat (Extent.Blocks ext))%nat /\
                  exists view,
                    Extent.BlockView ext k = Some view /\
                    spec_encode_block lz4 view = None
              end) as Hmain.
  { intros o1 Hinv Hlen Hbs Hbody Hloop.
    apply WriteExtent_loop_records in Hloop; try done.
    destruct Hloop as (served & rest & recs & payloads & Hidx & HF & Hb & Hbd & Herr).
    apply seq_prefix in Hidx as (Hserved & Hall & Hnext).
    exists (length served), recs, payloads. rewrite <- Hserved, <- Hbs, <- Hbody.
    repeat split; try done.
    destruct err as [e|].
    - destruct Herr as (i & rest' & view & -> & Hv & Henc).
      destruct (Hnext _ _ eq_refl) as [-> Hlt]. split; [done|]. by exists view.
    - by apply Hall. }
  destruct (buf o) as [|x b] eqn:Hb.
  - destruct (scratch_inv o Hr). by apply Hmain.
  - apply Hmain; try done. destruct Hr as [_ _ _ _ _ [Hn|Hn] _ _]; congruence.
Qed.
(** C10: cnt, offset and the recorded ranges agree with the buffers. *)
Theorem reachable_layout o :
  reachable lz4 o ->
  cnt o = len (blocks o) /\
  offset o = len (body o) /\
  Forall (fun b => ocBlock.flags b <> Empty -> in_body (len (body o)) b) (blocks o) /\
  Forall (fun b => ocBlock.flags b = Empty -> ocBlock.size b = 0) (blocks o) /\
  total_size (blocks o) = len (body o).
Proof.
  intros Hr. apply reachable_inv in Hr. destruct Hr as [Hc Ho Hb Ht _ _ _ _].
  repeat split; try done.
  - eapply Forall_impl; [exact Hb|]. intros b (_ & H & _). exact H.
  - eapply Forall_impl; [exact Hb|]. intros b (H & _) Hf. by destruct (H Hf).
Qed.
End WithLz4.

Lemma written_reachable : reachable Sample.lz4 Sample.written.
Proof.
  eapply (reach_WriteExtent Sample.lz4 10 Sample.ext3 zero None).
  - apply reach_zero.
  - vm_compute. reflexivity.
Qed.

Lemma WriteExtent_encodes_blocks_witness :
  reachable Sample.lz4 zero /\
  WriteExtent Sample.lz4 10 Sample.ext3 zero = Returns None Sample.written /\
  exists k recs payloads,
    Forall3 (encodes Sample.lz4 10 Sample.ext3) (seq 0 k) recs payloads /\
    blocks Sample.written = blocks zero ++ recs /\
    body Sample.written = body zero ++ mjoin payloads /\
    k = Z.to_nat (Extent.Blocks Sample.ext3).
Proof.
  split; [apply reach_zero|]. split; [vm_compute; reflexivity|].
  apply (WriteExtent_encodes_blocks Sample.lz4 10 Sample.ext3 zero None Sample.written).
  - apply reach_zero.
  - vm_compute; reflexivity.
Defined.

Example spec_encode_block_zero :
  spec_encode_block Sample.lz4 (Sample.block 0) = Some (Empty, []).
Proof. vm_compute. reflexivity. Qed.

Example spec_encode_block_compressible :
  spec_encode_block Sample.lz4 (Sample.block 7) = Some (Compressed, [7; 255]).
Proof. vm_compute. reflexivity. Qed.

Example spec_encode_block_incompressible :
  spec_encode_block Sample.lz4 (1 :: replicate 4095 9)
  = Some (Uncompressed, 1 :: replicate 4095 9).
Proof. vm_compute. reflexivity. Qed.

Lemma reachable_layout_witness :
  reachable Sample.lz4 Sample.written /\
  (cnt Sample.written = len (blocks Sample.written) /\
   offset Sample.written = len (body Sample.written) /\
   Forall (fun b => ocBlock.flags b <> Empty -> in_body (len (body Sample.written)) b)
     (blocks Sample.written) /\
   Forall (fun b => ocBlock.flags b = Empty -> ocBlock.size b = 0) (blocks Sample.written) /\
   total_size (blocks Sample.written) = len (body Sample.written)).
Proof.
  split; [exact written_reachable|].
  apply (reachable_layout Sample.lz4 Sample.written). exact written_reachable.
Defined.
End WriterRefinement.

(** ** The encodings are the ones named *)

Lemma Uint32_PutUint32 v : Writer.Uint32 (PutUint32 v) = uint32 v.
Proof.
  unfold Writer.Uint32, PutUint32, uint32. rewrite !Z.shiftr_div_pow2 by lia.
  change (2 ^ 24) with 16777216. change (2 ^ 16) with 65536.
  change (2 ^ 8) with 256. change (2 ^ 32) with 4294967296.
  Z.div_mod_to_equations. lia.
Qed.

Lemma lor_continuation y : 0 <= y < 256 -> Z.lor y 128 = y mod 128 + 128.
Proof.
  intros Hy.
  assert (forallb (fun y => Z.lor y 128 =? y mod 128 + 128) (seqZ 0 256) = true) as Hall
    by (vm_compute; reflexivity).
  rewrite forallb_forall in Hall. apply Z.eqb_eq, Hall.
  apply list_elem_of_In, elem_of_seqZ. lia.
Qed.

Lemma Uvarint_PutUvarint_loop fuel : forall x,
  0 <= x < 2 ^ (7 * (Z.of_nat fuel + 1)) ->
  Writer.Uvarint (PutUvarint_loop fuel x) = x.
Proof.
  induction fuel as [|fuel IH]; intros x Hx.
  - simpl in *. change (2 ^ 7) with 128 in Hx.
    rewrite Z.mod_small by lia. destruct (Z.ltb_spec x 128); lia.
  - cbn [PutUvarint_loop]. destruct (Z.leb_spec 128 x) as [Hge|Hlt].
    + cbn [Writer.Uvarint]. rewrite lor_continuation by (apply Z.mod_pos_bound; lia).
      assert (0 <= (x mod 256) mod 128 < 128) by (apply Z.mod_pos_bound; lia).
      destruct (Z.ltb_spec ((x mod 256) mod 128 + 128) 128); [lia|].
      rewrite IH.
      * rewrite Z.shiftr_div_pow2 by lia. change (2 ^ 7) with 128.
        Z.div_mod_to_equations. lia.
      * rewrite Z.shiftr_div_pow2 by lia. split; [apply Z.div_pos; lia|].
        apply Z.div_lt_upper_bound; [lia|]. rewrite <- Z.pow_add_r by lia.
        replace (7 + 7 * (Z.of_nat fuel + 1)) with (7 * (Z.of_nat (S fuel) + 1)) by lia.
        lia.
    + cbn [Writer.Uvarint]. rewrite Z.mod_small by lia.
      destruct (Z.ltb_spec x 128); lia.
Qed.

(** [PutUvarint] writes the unsigned varint of its argument, read back by
    [Uvarint]. *)
Lemma Uvarint_PutUvarint x : Writer.Uvarint (PutUvarint x) = uint64 x.
Proof.
  unfold PutUvarint. apply Uvarint_PutUvarint_loop.
  unfold uint64. change (2 ^ (7 * (Z.of_nat 9 + 1))) with (2 ^ 70).
  pose proof (Z.mod_pos_bound x (2 ^ 64)). lia.
Qed.

Lemma uint32_add_idemp a b : uint32 (uint32 a + uint32 b) = uint32 (a + b).
Proof. unfold uint32. now rewrite <- Z.add_mod by lia. Qed.

Module FlushFacts.
Import ObjectCreator Writer WriterFacts.

Lemma Flush_header_Some bs : forall hdr h,
  Flush_header bs hdr = Some h -> h = hdr ++ header_records bs.
Proof.
  induction bs as [|b bs IH]; simpl; intros hdr h.
  - intros [= <-]. unfold header_records. simpl. by rewrite app_nil_r.
  - destruct (Buffer_Write hdr _) as [h1|] eqn:H1; [|discriminate]. simpl.
    destruct (Buffer_Write h1 _) as [h2|] eqn:H2; [|discriminate]. simpl.
    destruct (Buffer_Write h2 _) as [h3|] eqn:H3; [|discriminate]. simpl.
    destruct (Buffer_Write h3 _) as [h4|] eqn:H4; [|discriminate]. simpl.
    intros H. apply IH in H as ->.
    apply Buffer_Write_Some in H1 as [-> _], H2 as [-> _], H3 as [-> _], H4 as [-> _].
    unfold header_records, header_record. cbn [fmap list_fmap mjoin list_join].
    rewrite <- !app_assoc. reflexivity.
Qed.

Lemma last_for_snoc lba bs b :
  last_for lba (bs ++ [b])
  = if decide (ocBlock.lba b = lba) then Some b else last_for lba bs.
Proof.
  unfold last_for. rewrite filter_app, filter_cons, filter_nil.
  destruct (decide (ocBlock.lba b = lba)) as [He|Hne].
  - apply last_snoc.
  - by rewrite app_nil_r.
Qed.

(** After the second loop the map holds, for every address, the entry of
    the last block recorded for it, and is untouched elsewhere. *)
Lemma Flush_install_lookup seg dataBegin bs (m : gmap Z objPBA.t) lba :
  Flush_install seg dataBegin bs m !! lba
  = match last_for lba bs with
    | Some b => Some (map_entry seg dataBegin b)
    | None => m !! lba
    end.
Proof.
  unfold Flush_install. induction bs as [|b bs IH] using rev_ind; [done|].
  rewrite foldl_app, last_for_snoc. simpl.
  destruct (decide (ocBlock.lba b = lba)) as [<-|Hne].
  - by rewrite lookup_insert_eq.
  - by rewrite lookup_insert_ne.
Qed.

Lemma File_Write_None fs path p w w1 c :
  files w !! path = Some c ->
  File_Write fs path p w = (None, w1) ->
  files w1 !! path = Some (c ++ p) /\ oc w1 = oc w /\ lbas w1 = lbas w.
Proof.
  unfold File_Write. intros ->. simpl.
  destruct (os.write_err fs (nwrites w)) as [[n e]|]; [discriminate|].
  intros [= <-]. simpl. by rewrite lookup_insert_eq.
Qed.

Lemma io_Copy_None fs path p w w1 c :
  files w !! path = Some c ->
  io_Copy fs path p w = (None, w1) ->
  files w1 !! path = Some (c ++ p) /\ oc w1 = oc w /\ lbas w1 = lbas w.
Proof.
  unfold io_Copy. destruct p as [|x p].
  - intros Hc [= <-]. by rewrite app_nil_r.
  - apply File_Write_None.
Qed.

(** A [Flush] that returns nil has built the header, set every block in
    the map and written count, data begin, header and body to the file. *)
Lemma Flush_nil fs path seg w w' :
  Flush fs path seg w = (FlushReturns None, w') ->
  let o := oc w in
  let hdr := header o ++ header_records (blocks o) in
  let dataBegin := uint32 (len hdr + 8) in
  files w' !! path
  = Some (PutUint32 (uint32 (cnt o)) ++ PutUint32 dataBegin ++ hdr ++ body o) /\
  lbas w' = Flush_install seg dataBegin (blocks o) (lbas w).
Proof.
  unfold Flush. destruct (Flush_body fs path seg w) as [r wb] eqn:Hb.
  intros [= -> <-]. cbn [files lbas]. revert Hb. unfold Flush_body.
  destruct (Flush_header _ _) as [h|] eqn:Hh; [|discriminate].
  apply Flush_header_Some in Hh as ->.
  destruct (os.create_err fs); [discriminate|].
  cbv zeta.
  match goal with
  | |- context [File_Write fs path _ ?ww] => remember ww as w2 eqn:Hw2
  end.
  assert (files w2 !! path = Some []) as H2 by (subst w2; apply lookup_insert_eq).
  assert (lbas w2 = Flush_install seg (uint32 (len (header (oc w) ++ header_records (blocks (oc w))) + 8))
                      (blocks (oc w)) (lbas w)) as L2 by (subst w2; reflexivity).
  clear Hw2.
  destruct (File_Write fs path _ w2) as [[e3|] w3] eqn:H3; [discriminate|].
  apply (File_Write_None _ _ _ _ _ _ H2) in H3 as (F3 & O3 & L3).
  destruct (File_Write fs path _ w3) as [[e4|] w4] eqn:H4; [discriminate|].
  apply (File_Write_None _ _ _ _ _ _ F3) in H4 as (F4 & O4 & L4).
  destruct (io_Copy fs path _ w4) as [[e5|] w5] eqn:H5; [discriminate|].
  apply (io_Copy_None _ _ _ _ _ _ F4) in H5 as (F5 & O5 & L5).
  destruct (io_Copy fs path _ w5) as [[e6|] w6] eqn:H6; [discriminate|].
  apply (io_Copy_None _ _ _ _ _ _ F5) in H6 as (F6 & O6 & L6).
  intros [= <-]. cbn [files lbas fst snd]. rewrite F6, L6, L5, L4, L3, L2.
  split; [|reflexivity]. rewrite <- ?app_assoc. reflexivity.
Qed.

(** C8: whatever [Flush] returns, the creator is reset when it returns,
    and every block has been set in the map before the file is created: a
    failed [Flush] leaves the map updated and the buffered data gone. *)
Theorem Flush_resets_after_installing fs path seg w err w' :
  Flush fs path seg w = (FlushReturns err, w') ->
  (cnt (oc w') = 0 /\ offset (oc w') = 0 /\ blocks (oc w') = [] /\
   header (oc w') = [] /\ body (oc w') = []) /\
  exists dataBegin rest,
    (forall lba b, last_for lba (blocks (oc w)) = Some b ->
       lbas w' !! lba = Some (map_entry seg dataBegin b)) /\
    log w' = log w ++ install_events seg dataBegin (blocks (oc w)) ++ rest /\
    Forall (fun e => is_install e = false) rest /\
    (rest = [] \/ exists rest', rest = EvCreate path :: rest') /\
    (os.create_err fs <> None -> err = os.create_err fs /\ rest = [] /\ files w' = files w).
Proof.
  intros Hf. split.
  - pose proof (Flush_oc fs path seg w) as Ho. rewrite Hf in Ho. simpl in Ho.
    rewrite Ho. done.
  - unfold Flush in Hf. pose proof (Flush_body_shape fs path seg w) as Hs.
    destruct (Flush_header _ _) as [hdr|].
    + destruct Hs as (e & f & n & rest & Hb & HF & Hcase). rewrite Hb in Hf.
      injection Hf as <- <-. cbn [lbas log files].
      exists (uint32 (len hdr + 8)), rest. repeat split; try done.
      * intros lba b Hl. by rewrite Flush_install_lookup, Hl.
      * destruct Hcase as [(? & _)|(rest' & ? & _)]; eauto.
      * destruct Hcase as [(? & ? & _)|(rest' & _ & ?)]; [done|congruence].
      * destruct Hcase as [(? & ? & _)|(rest' & _ & ?)]; [done|congruence].
      * destruct Hcase as [(? & ? & ? & ?)|(rest' & _ & ?)]; [done|congruence].
    + rewrite Hs in Hf. discriminate.
Qed.

Section WithLz4.
Variable lz4 : list Z -> nat -> error + list Z.

(** The layout for a segment of any size, in the 32-bit arithmetic of the
    code: the segment file is a big-endian u32 entry count, a big-endian
    u32 data_begin equal (as a u32) to 8 plus the length of the header
    records, the records themselves (varint lba, flags byte, varint size,
    varint offset per block) and the body; the map entry of a block carries
    data_begin plus the block's offset in the body, in u32 arithmetic. *)
Theorem Flush_layout fs path seg w w' :
  reachable lz4 (oc w) ->
  Flush fs path seg w = (FlushReturns None, w') ->
  let bs := blocks (oc w) in
  let dataBegin := uint32 (8 + len (header_records bs)) in
  files w' !! path
  = Some (PutUint32 (uint32 (len bs)) ++ PutUint32 dataBegin
            ++ header_records bs ++ body (oc w)) /\
  header_records bs
  = mjoin ((fun b => PutUvarint (ocBlock.lba b) ++ [ocBlock.flags b]
                       ++ PutUvarint (ocBlock.size b) ++ PutUvarint (ocBlock.offset b))
             <$> bs) /\
  forall lba,
    lbas w' !! lba
    = match last_for lba bs with
      | Some b =>
          Some (objPBA.mk (PBA.mk seg (uint32 (dataBegin + ocBlock.offset b)))
                  (ocBlock.flags b) (ocBlock.size b))
      | None => lbas w !! lba
      end.
Proof.
  intros Hr Hf. apply reachable_inv in Hr.
  apply Flush_nil in Hf as [Hfile Hmap].
  destruct Hr as [Hc _ Hb _ Hh _ _ _].
  rewrite Hh, Hc in Hfile. cbn [app] in Hfile.
  rewrite Hh in Hmap. cbn [app] in Hmap.
  replace (len (header_records (blocks (oc w))) + 8)
    with (8 + len (header_records (blocks (oc w)))) in Hfile, Hmap by lia.
  cbn zeta. split; [exact Hfile|]. split; [reflexivity|].
  intros lba. rewrite Hmap, Flush_install_lookup.
  destruct (last_for lba (blocks (oc w))) as [b|] eqn:Hl; [|done].
  f_equal. unfold map_entry, last_for in *.
  apply last_Some_elem_of, list_elem_of_filter in Hl as [_ Hin].
  rewrite Forall_forall in Hb. destruct (Hb _ Hin) as (He & Hn & Hfl & _).
  assert (uint32 (ocBlock.size b) = ocBlock.size b) as ->.
  { unfold uint32. apply Z.mod_small.
    destruct (decide (ocBlock.flags b = Empty)) as [E|E].
    - destruct (He E) as [-> _]. lia.
    - destruct (Hn E) as (_ & ? & _ & ?). unfold BlockSize in *. lia. }
  f_equal. f_equal. unfold uint32.
  rewrite Z.add_mod_idemp_r by lia. reflexivity.
Qed.
End WithLz4.

Lemma Flush_resets_after_installing_witness :
  Flush Sample.read_only "seg" Sample.seg1 Sample.world0
  = (FlushReturns (Some (ErrExternal 30)), Sample.failed.2) /\
  (cnt (oc Sample.failed.2) = 0 /\ offset (oc Sample.failed.2) = 0 /\
   blocks (oc Sample.failed.2) = [] /\
   header (oc Sample.failed.2) = [] /\ body (oc Sample.failed.2) = []) /\
  exists dataBegin rest,
    (forall lba b, last_for lba (blocks (oc Sample.world0)) = Some b ->
       lbas Sample.failed.2 !! lba = Some (map_entry Sample.seg1 dataBegin b)) /\
    log Sample.failed.2
    = log Sample.world0
        ++ install_events Sample.seg1 dataBegin (blocks (oc Sample.world0)) ++ rest /\
    Forall (fun e => is_install e = false) rest /\
    (rest = [] \/ exists rest', rest = EvCreate "seg" :: rest') /\
    (os.create_err Sample.read_only <> None ->
     Some (ErrExternal 30) = os.create_err Sample.read_only /\ rest = [] /\
     files Sample.failed.2 = files Sample.world0).
Proof.
  split; [vm_compute; reflexivity|].
  apply (Flush_resets_after_installing Sample.read_only "seg" Sample.seg1
           Sample.world0 (Some (ErrExternal 30)) Sample.failed.2).
  vm_compute; reflexivity.
Defined.

Lemma Flush_layout_witness :
  reachable Sample.lz4 (oc Sample.world0) /\
  Flush os.reliable "seg" Sample.seg1 Sample.world0
  = (FlushReturns None, Sample.flushed.2) /\
  let bs := blocks (oc Sample.world0) in
  let dataBegin := uint32 (8 + len (header_records bs)) in
  files Sample.flushed.2 !! "seg"%string
  = Some (PutUint32 (uint32 (len bs)) ++ PutUint32 dataBegin
            ++ header_records bs ++ body (oc Sample.world0)) /\
  header_records bs
  = mjoin ((fun b => PutUvarint (ocBlock.lba b) ++ [ocBlock.flags b]
                       ++ PutUvarint (ocBlock.size b) ++ PutUvarint (ocBlock.offset b))
             <$> bs) /\
  forall lba,
    lbas Sample.flushed.2 !! lba
    = match last_for lba bs with
      | Some b =>
          Some (objPBA.mk (PBA.mk Sample.seg1 (uint32 (dataBegin + ocBlock.offset b)))
                  (ocBlock.flags b) (ocBlock.size b))
      | None => lbas Sample.world0 !! lba
      end.
Proof.
  split; [exact WriterRefinement.written_reachable|].
  split; [vm_compute; reflexivity|].
  apply (Flush_layout Sample.lz4 os.reliable "seg" Sample.seg1 Sample.world0
           Sample.flushed.2).
  - exact WriterRefinement.written_reachable.
  - vm_compute; reflexivity.
Defined.

(** The sample segment, byte for byte: three entries, data begin 21, the
    three records, then the two compressed bytes and the raw block. *)
Example flushed_prefix :
  take 23 <$> (files Sample.flushed.2 !! "seg"%string)
  = Some [0; 0; 0; 3;  0; 0; 0; 21;  10; 2; 0; 0;  11; 1; 2; 0;  12; 0; 128; 32; 2;
          7; 255].
Proof. vm_compute. reflexivity. Qed.
End FlushFacts.

(** ** The read path *)

Module ReadFacts.
Import Disk.

Section Reads.
Variable Clamp : Extent.t -> Extent.t -> option Extent.t.
Variable SubRange : RangeData.t -> Extent.t -> option (nat * nat).
Variable E : reads.

(** A short read from the segment is an error of [fetch]. *)
Lemma fetch_short_read pe stored n :
  (extentCache_ReadExtent E pe (Z.to_nat (PartialExtent.Size pe))).1.1 = false ->
  openSegments_Get E (PartialExtent.Segment pe) = true ->
  ci_ReadAt E (PartialExtent.Segment pe) (PartialExtent.Offset pe)
    (Z.to_nat (PartialExtent.Size pe)) = (n, None, stored) ->
  n <> Z.of_nat (Z.to_nat (PartialExtent.Size pe)) ->
  exists log, fetch E pe = FetchReturns (Some ErrShortRead) log.
Proof.
  intros Hmiss Hopen Hread Hn. unfold fetch, buffers_Get.
  rewrite length_replicate.
  destruct (extentCache_ReadExtent E pe _) as [[found err] st]. simpl in Hmiss. subst found.
  rewrite Hopen, overwrite_length, length_replicate, Hread.
  unfold len. rewrite overwrite_length, overwrite_length, length_replicate.
  destruct (Z.eqb_spec n (Z.of_nat (Z.to_nat (PartialExtent.Size pe)))); [done|]. eauto.
Qed.

(** When the segment reader's [ReadAt] returns an error, [fetch] leaves
    with nil, and so does [readPartialExtent], the destination untouched. *)
Lemma readPartialExtent_drops_ReadAt_error pe rngs dataRange dest stored n e :
  (extentCache_ReadExtent E pe (Z.to_nat (PartialExtent.Size pe))).1.1 = false ->
  (openSegments_Get E (PartialExtent.Segment pe) = true \/
   sa_OpenSegment E (PartialExtent.Segment pe) = None) ->
  ci_ReadAt E (PartialExtent.Segment pe) (PartialExtent.Offset pe)
    (Z.to_nat (PartialExtent.Size pe)) = (n, Some e, stored) ->
  exists log, readPartialExtent Clamp SubRange E pe rngs dataRange dest = (None, dest, log).
Proof.
  intros Hmiss Hopen Hread. unfold readPartialExtent, fetch, buffers_Get.
  rewrite length_replicate.
  destruct (extentCache_ReadExtent E pe _) as [[found err] st]. simpl in Hmiss. subst found.
  destruct (openSegments_Get E _) eqn:Hget.
  - rewrite overwrite_length, length_replicate, Hread. eauto.
  - destruct Hopen as [?|Ho]; [done|]. rewrite Ho.
    rewrite overwrite_length, length_replicate, Hread. eauto.
Qed.

Lemma overwrite_full dst out : length out = length dst -> overwrite dst out = out.
Proof.
  intros H. unfold overwrite. rewrite H, drop_all, app_nil_r. apply take_ge. lia.
Qed.

(** C6: once the raw bytes are there, a compressed extent is decoded into
    a buffer of [RawSize] bytes; a decoder error and a decoded size other
    than [RawSize] are errors, flags other than [Compressed] and
    [Uncompressed] are an error too. *)
Theorem readPartialExtent_decodes pe rngs dataRange dest rawData log :
  fetch E pe = Fetched rawData log ->
  (PartialExtent.Flags pe = Compressed ->
   match lz4decode_UncompressBlock E rawData (Z.to_nat (PartialExtent.RawSize pe)) with
   | inl e =>
       readPartialExtent Clamp SubRange E pe rngs dataRange dest
       = (Some (ErrUncompress e (len rawData) (Z.of_nat (Z.to_nat (PartialExtent.RawSize pe)))),
          dest, log)
   | inr out =>
       if decide (len out = PartialExtent.RawSize pe) then
         readPartialExtent Clamp SubRange E pe rngs dataRange dest
         = (let '(err, dest') :=
              stitch Clamp SubRange pe
                (RangeData.mk (PartialExtent.Extent pe)
                   (Extent.Blocks (PartialExtent.Partial pe)) out) rngs dest in
            (err, dest', log))
       else
         readPartialExtent Clamp SubRange E pe rngs dataRange dest
         = (Some ErrUncompressSize, dest, log)
   end) /\
  (PartialExtent.Flags pe <> Compressed -> PartialExtent.Flags pe <> Uncompressed ->
   readPartialExtent Clamp SubRange E pe rngs dataRange dest
   = (Some (ErrUnknownFlags (PartialExtent.Flags pe)), dest, log)).
Proof.
  intros Hf. unfold readPartialExtent, decode. rewrite Hf. split.
  - intros ->. rewrite Z.eqb_refl. unfold buffers_Get. rewrite length_replicate.
    destruct (lz4decode_UncompressBlock E rawData _) as [e|out].
    + unfold len. by rewrite length_replicate.
    + destruct (Z.eqb_spec (len out) (PartialExtent.RawSize pe)) as [Heq|Hne].
      * rewrite decide_True by done. rewrite overwrite_full; [done|].
        rewrite length_replicate. unfold len in Heq. lia.
      * by rewrite decide_False.
  - intros H1 H0.
    destruct (Z.eqb_spec (PartialExtent.Flags pe) Compressed); [done|].
    destruct (Z.eqb_spec (PartialExtent.Flags pe) Uncompressed); [done|]. done.
Qed.
End Reads.

(** C1: the segment reader's [ReadAt] fails, and [readPartialExtent]
    returns nil with the destination left as it was. *)
Theorem readPartialExtent_ReadAt_error_returns_nil :
  readPartialExtent Sample.Clamp Sample.SubRange Sample.failing_read Sample.pe_raw
    [Sample.one_block] Sample.one_block Sample.dest0
  = (None, Sample.dest0,
     [RCacheMiss; ROpenSegment Sample.seg1; RLruAdd Sample.seg1;
      RReadAt Sample.seg1 8 4096]) /\
  ReadExtent_serve Sample.Clamp Sample.SubRange Sample.failing_read
    [(Sample.pe_raw, [Sample.one_block])] Sample.one_block Sample.dest0
  = (None, Sample.dest0).
Proof. split; vm_compute; reflexivity. Qed.

Lemma readPartialExtent_decodes_witness :
  fetch Sample.corrupt_cache Sample.pe_compressed
  = Fetched ([7; 255]) [RCacheHit] /\
  (PartialExtent.Flags Sample.pe_compressed = Compressed ->
   readPartialExtent Sample.Clamp Sample.SubRange Sample.corrupt_cache Sample.pe_compressed
     [Sample.one_block] Sample.one_block Sample.dest0
   = (Some (ErrUncompress (ErrExternal 9) 2 4096), Sample.dest0, [RCacheHit])).
Proof.
  split; [vm_compute; reflexivity|].
  exact (proj1 (readPartialExtent_decodes Sample.Clamp Sample.SubRange Sample.corrupt_cache
                  Sample.pe_compressed [Sample.one_block] Sample.one_block Sample.dest0
                  [7; 255] [RCacheHit] eq_refl)).
Defined.
End ReadFacts.

(** ** Opening a disk *)

Module NewDiskFacts.
Import NewDisk.

(** C7: when [GetVolumeInfo] reports the volume absent, [NewDisk] returns
    the unknown-volume error without calling [InitVolume] if [autoCreate]
    is off, and calls [InitVolume] for the volume if it is on, as it is by
    default. *)
Theorem NewDisk_absent_volume E path options :
  let o := apply_options options in
  NewExtentCache E (filepath_Join [path; "readcache"%string]) = None ->
  InitContainer (access E path o) = None ->
  absent (GetVolumeInfo (access E path o) (name o)) ->
  (autoCreate o = false ->
   (NewDisk E path options).1 = Returns (inl (ErrUnknownVolume (name o))) /\
   forall vol, CallInitVolume vol ∉ (NewDisk E path options).2) /\
  (autoCreate o = true ->
   CallInitVolume (VolumeInfo.mk (name o) 0) ∈ (NewDisk E path options).2 /\
   (NewDisk E path options).1
   = match InitVolume (access E path o) (VolumeInfo.mk (name o) 0) with
     | Some e => Returns (inl e)
     | None =>
         Returns (attach E (mkDisk path 0 (access E path o) (name o) (seqGen o) (afterNS o)))
     end) /\
  autoCreate (apply_options []) = true.
Proof.
  intros o Hec Hic Habs. unfold NewDisk. rewrite Hec. fold o. rewrite Hic.
  assert (forall vol : VolumeInfo.t,
            CallInitVolume vol ∉ [CallNewExtentCache (filepath_Join [path; "readcache"%string]);
                                  CallInitContainer; CallGetVolumeInfo (name o)]) as Hnot.
  { intros vol Hin. repeat (apply elem_of_cons in Hin as [Hin|Hin]; [discriminate|]).
    by apply elem_of_nil in Hin. }
  split; [|split; [|reflexivity]].
  - intros Hoff. rewrite Hoff.
    destruct (GetVolumeInfo (access E path o) (name o)) as [[vi|] [e|]];
      destruct Habs as [Hne|(vi' & Hvi & Hname)]; simpl in *; try done.
    + injection Hvi as ->. by rewrite decide_True.
  - intros Hon. rewrite Hon.
    destruct (GetVolumeInfo (access E path o) (name o)) as [[vi|] [e|]];
      destruct Habs as [Hne|(vi' & Hvi & Hname)]; simpl in *; try done.
    all: try (injection Hvi as ->; rewrite decide_True by done).
    all: destruct (InitVolume _ _); simpl; split; try done.
    all: rewrite ?elem_of_app, ?elem_of_cons; set_solver.
Qed.

Lemma NewDisk_absent_volume_witness :
  NewExtentCache Sample.env0 (filepath_Join ["disk"; "readcache"]%string) = None /\
  InitContainer (access Sample.env0 "disk" (apply_options [Sample.no_autoCreate])) = None /\
  absent (GetVolumeInfo (access Sample.env0 "disk" (apply_options [Sample.no_autoCreate]))
            (name (apply_options [Sample.no_autoCreate]))) /\
  (NewDisk Sample.env0 "disk" [Sample.no_autoCreate]).1
  = Returns (inl (ErrUnknownVolume "default")) /\
  forall vol, CallInitVolume vol ∉ (NewDisk Sample.env0 "disk" [Sample.no_autoCreate]).2.
Proof.
  split; [reflexivity|]. split; [reflexivity|].
  split; [left; discriminate|].
  apply (proj1 (NewDisk_absent_volume Sample.env0 "disk" [Sample.no_autoCreate]
                  eq_refl eq_refl (or_introl (fun H => eq_ind (Some (ErrExternal 2))
                     (fun x => if x is Some _ then True else False) I None H)))).
  reflexivity.
Defined.

(** With no option given the missing volume is created. *)
Example NewDisk_default_creates :
  NewDisk Sample.env0 "disk" []
  = (Returns (inr (mkDisk "disk" 0 Sample.no_volume "default" None None)),
     [CallNewExtentCache "disk/readcache"; CallInitContainer; CallGetVolumeInfo "default";
      CallInitVolume (VolumeInfo.mk "default" 0); LogAttaching "default" 0]).
Proof. reflexivity. Qed.
End NewDiskFacts.

(** ** Sealing and flushing a segment *)

Module CloseSegmentFacts.
Import CloseSegment.

Section Task.
Variables SegmentCreator ExtentLocation SegmentStats ExtentMap Segments : Type.
Variable Segments_Create : SegmentId -> SegmentStats -> Segments -> Segments.
Variable UpdateBatch :
  list ExtentLocation -> SegmentId -> ExtentMap -> Segments -> ExtentMap * Segments.

Lemma flush_retry_errors seg (errs : list error) (rest : list (flushed ExtentLocation SegmentStats)) :
  flush_retry seg ((inl <$> errs) ++ rest)
  = ((errs ≫= retry seg) ++ (flush_retry seg rest).1, (flush_retry seg rest).2).
Proof.
  induction errs as [|e errs IH].
  - simpl. by destruct (flush_retry seg rest).
  - rewrite fmap_cons, <- app_comm_cons. cbn [flush_retry].
    unfold flushed in *. rewrite IH. reflexivity.
Qed.

(** Every list of answers is a run of errors, followed or not by a success. *)
Lemma answers_split (answers : list (flushed ExtentLocation SegmentStats)) :
  (exists errs, answers = inl <$> errs) \/
  (exists errs ok rest, answers = (inl <$> errs) ++ inr ok :: rest).
Proof.
  induction answers as [|[e|ok] answers IH].
  - left. by exists [].
  - destruct IH as [(errs & ->)|(errs & ok & rest & ->)].
    + left. by exists (e :: errs).
    + right. by exists (e :: errs), ok, rest.
  - right. by exists [], ok, answers.
Qed.

(** C3: the errors of [Flush] stay inside the task: what the writer gets
    back from [closeSegmentAsync] does not depend on them; every failed
    [Flush] is followed by a sleep of five seconds and another attempt;
    the segment is registered, the map updated and the previous cache
    cleared only once a [Flush] has succeeded. *)
Theorem flush_errors_are_retried nsc cleanup (d : Disk SegmentCreator ExtentMap Segments) :
  (forall answers,
     (seal_and_flush Segments_Create UpdateBatch nsc answers cleanup d).1
     = match nsc with
       | SeqFails e | CreatorFails _ e => (false, Some e)
       | Created _ _ => (true, None)
       end) /\
  (forall seg errs,
     flush_task Segments_Create UpdateBatch seg (inl <$> errs) cleanup d
     = (errs ≫= retry seg, d, false)) /\
  (forall seg errs ok rest,
     flush_task Segments_Create UpdateBatch seg ((inl <$> errs) ++ inr ok :: rest) cleanup d
     = ((errs ≫= retry seg) ++ [TFlush seg (inr ok)]
          ++ (install Segments_Create UpdateBatch seg ok cleanup d).1,
        (install Segments_Create UpdateBatch seg ok cleanup d).2, true)) /\
  (forall seg answers pre ev post,
     (flush_task Segments_Create UpdateBatch seg answers cleanup d).1.1 = pre ++ ev :: post ->
     installs ev = true ->
     exists ok, TFlush seg (inr ok) ∈ pre).
Proof.
  assert (forall seg errs,
            flush_task Segments_Create UpdateBatch seg (inl <$> errs) cleanup d
            = (errs ≫= retry seg, d, false)) as Herrs.
  { intros seg errs. unfold flush_task.
    rewrite <- (app_nil_r (inl <$> errs)), flush_retry_errors. simpl.
    by rewrite app_nil_r. }
  assert (forall seg errs ok rest,
     flush_task Segments_Create UpdateBatch seg ((inl <$> errs) ++ inr ok :: rest) cleanup d
     = ((errs ≫= retry seg) ++ [TFlush seg (inr ok)]
          ++ (install Segments_Create UpdateBatch seg ok cleanup d).1,
        (install Segments_Create UpdateBatch seg ok cleanup d).2, true)) as Hok.
  { intros seg errs ok rest. unfold flush_task. rewrite flush_retry_errors. simpl.
    destruct (install _ _ seg ok cleanup d) as [tr' d']. simpl.
    by rewrite <- app_assoc. }
  split; [|split; [exact Herrs|split; [exact Hok|]]].
  - intros answers. unfold seal_and_flush, closeSegmentAsync. by destruct nsc.
  - intros seg answers pre ev post Htr Hev.
    destruct (answers_split answers) as [(errs & ->)|(errs & ok & rest & ->)].
    + rewrite Herrs in Htr. simpl in Htr.
      assert (ev ∈ errs ≫= retry seg) as Hin.
      { rewrite Htr. apply elem_of_app. right. apply elem_of_cons. by left. }
      apply list_elem_of_bind in Hin as (e & Hin & _).
      unfold retry in Hin.
      repeat (apply elem_of_cons in Hin as [->|Hin]; [discriminate Hev|]).
      by apply elem_of_nil in Hin.
    + exists ok. rewrite Hok in Htr. simpl in Htr.
      set (tr := errs ≫= retry seg) in *.
      assert (Forall (fun x => installs x = false) tr) as Hno.
      { subst tr. apply Forall_forall. intros x Hx.
        apply list_elem_of_bind in Hx as (e & Hx & _). unfold retry in Hx.
        repeat (apply elem_of_cons in Hx as [->|Hx]; [reflexivity|]).
        by apply elem_of_nil in Hx. }
      clearbody tr. revert pre Htr.
      induction tr as [|x tr IH]; intros pre Htr.
      * destruct pre as [|p pre]; simpl in Htr.
        -- injection Htr as <- _. discriminate.
        -- injection Htr as <- _. apply elem_of_cons. by left.
      * apply Forall_cons in Hno as [Hx Hno].
        destruct pre as [|p pre]; simpl in Htr.
        -- injection Htr as <- _. congruence.
        -- injection Htr as <- Htr. apply (IH Hno) in Htr.
           apply elem_of_cons. by right.
Qed.
End Task.

Lemma flush_errors_are_retried_witness :
  (flush_task Sample.register Sample.update Sample.seg1 Sample.answers None Sample.disk0).1.1
  = retry Sample.seg1 (ErrExternal 1) ++ retry Sample.seg1 (ErrExternal 2)
      ++ [TFlush Sample.seg1 (inr ([5%nat], 9%nat))]
      ++ TCreate Sample.seg1 9%nat
         :: [TUpdateBatch [5%nat] Sample.seg1; TClearPrev; TCleanup None; TCloseDone] /\
  installs (TCreate (ExtentLocation := nat) Sample.seg1 9%nat) = true /\
  exists ok : list nat * nat,
    TFlush Sample.seg1 (inr ok)
    ∈ retry Sample.seg1 (ErrExternal 1) ++ retry Sample.seg1 (ErrExternal 2)
        ++ [TFlush Sample.seg1 (inr ([5%nat], 9%nat))].
Proof.
  split; [reflexivity|]. split; [reflexivity|].
  exact (proj2 (proj2 (proj2
           (flush_errors_are_retried nat nat nat (list nat) (list SegmentId)
              Sample.register Sample.update (Created Sample.seg2 0%nat) None Sample.disk0)))
           Sample.seg1 Sample.answers
           (retry Sample.seg1 (ErrExternal 1) ++ retry Sample.seg1 (ErrExternal 2)
              ++ [TFlush Sample.seg1 (inr ([5%nat], 9%nat))])
           (TCreate Sample.seg1 9%nat)
           [TUpdateBatch [5%nat] Sample.seg1; TClearPrev; TCleanup None; TCloseDone]
           eq_refl eq_refl).
Defined.
End CloseSegmentFacts.

(** ** The S3 segment access *)

Module S3Facts.
Import S3.

Lemma io_ReadAtLeast_count r min : forall got n err stored,
  io_ReadAtLeast r min got = (n, err, stored) -> n = len stored.
Proof.
  induction r as [|[chunk e] r IH]; intros got n err stored; simpl.
  - destruct (length got <? min)%nat; intros [= <- _ <-]; reflexivity.
  - destruct (length got <? min)%nat; [|intros [= <- _ <-]; reflexivity].
    destruct e as [e|]; [|apply IH].
    repeat case_match; intros [= <- _ <-]; reflexivity.
Qed.

(** C9: when reading the body fails after at least one byte, [ReadAt]
    returns the count with a nil error; an error reaches the caller only
    with a count of zero. *)
Theorem ReadAt_error_only_without_bytes getObject dest off :
  (forall body n e stored,
     getObject (off, int (int off + Z.of_nat dest - 1)) = inr body ->
     io_ReadFull body dest = (n, Some e, stored) ->
     0 < n ->
     ReadAt getObject dest off = (n, None, stored)) /\
  (forall n e stored, ReadAt getObject dest off = (n, Some e, stored) -> n = 0).
Proof.
  unfold ReadAt. split.
  - intros body n e stored -> -> Hn. apply Z.ltb_lt in Hn. by rewrite Hn.
  - intros n e stored.
    destruct (getObject _) as [e'|body]; [by intros [= <- _ _]|].
    destruct (io_ReadFull body dest) as [[n' err] st] eqn:Hr.
    apply io_ReadAtLeast_count in Hr. pose proof (len_nonneg st).
    destruct err as [e'|]; [|discriminate].
    destruct (Z.ltb_spec 0 n'); [discriminate|]. intros [= <- _ _]. lia.
Qed.

Lemma ReadAt_error_only_without_bytes_witness :
  io_ReadFull Sample.broken_body 8 = (3, Some (ErrExternal 5), [1; 2; 3]) /\
  0 < 3 /\
  ReadAt (fun _ => inr Sample.broken_body) 8 64 = (3, None, [1; 2; 3]).
Proof.
  split; [reflexivity|]. split; [lia|].
  exact (proj1 (ReadAt_error_only_without_bytes (fun _ => inr Sample.broken_body) 8 64)
           Sample.broken_body 3 (ErrExternal 5) [1; 2; 3] eq_refl eq_refl eq_refl).
Defined.

(** *** [slices.DeleteFunc] and the object index *)

Lemma filter_all {A} (P : A -> Prop) `{forall x, Decision (P x)} (l : list A) :
  Forall P l -> filter P l = l.
Proof.
  induction 1 as [|x l Hx _ IH]; [done|].
  rewrite filter_cons, decide_True by done. by rewrite IH.
Qed.

Lemma DeleteFunc_compact_spec {A} (del : A -> bool) pending : forall s j s' j',
  (j + length pending < length s)%nat ->
  DeleteFunc_compact del pending s j = (s', j') ->
  length s' = length s /\ (j' <= j + length pending)%nat /\
  take j' s' = take j s ++ filter (fun v => del v = false) pending.
Proof.
  induction pending as [|v pending IH]; intros s j s' j' Hlen; simpl.
  - intros [= <- <-]. rewrite app_nil_r. split; [done|]. split; [lia|done].
  - simpl in Hlen. rewrite filter_cons. destruct (del v) eqn:Hv.
    + intros H. apply IH in H; [|lia]. rewrite decide_False by done.
      destruct H as (? & ? & ?). split; [done|]. split; [lia|done].
    + intros H. apply IH in H; [|rewrite length_insert; lia].
      rewrite decide_True by done. rewrite length_insert in H.
      destruct H as (Hl & Hj & ->).
      split; [done|]. split; [lia|].
      rewrite (take_S_r _ _ v) by (apply list_lookup_insert_eq; lia).
      rewrite take_insert_ge by lia. by rewrite <- app_assoc.
Qed.

(** What [slices.DeleteFunc] leaves behind: the returned slice holds the
    elements that are kept, and the storage the caller still sees is as
    long as before. *)
Lemma slices_DeleteFunc_spec {A} clears (zero : A) (del : A -> bool) s :
  length (slices_DeleteFunc clears zero del s).1 = length s /\
  (slices_DeleteFunc clears zero del s).2 = filter (fun v => del v = false) s.
Proof.
  unfold slices_DeleteFunc.
  destruct (list_find _ s) as [[i x]|] eqn:Hfind.
  - apply list_find_Some in Hfind as (Hi & Hx & Hbefore).
    assert (i < length s)%nat as Hlt by (eapply lookup_lt_Some; eauto).
    destruct (DeleteFunc_compact del (drop (S i) s) s i) as [s' j] eqn:Hc.
    apply DeleteFunc_compact_spec in Hc as (Hl & Hj & Ht); [|rewrite length_drop; lia].
    rewrite length_drop in Hj.
    assert (filter (fun v => del v = false) s
            = take i s ++ filter (fun v => del v = false) (drop (S i) s)) as Hfilter.
    { rewrite <- (take_drop_middle s i x) at 1 by done.
      rewrite filter_app, filter_cons, decide_False by congruence.
      f_equal. apply filter_all, Forall_forall. intros y Hy.
      apply list_elem_of_lookup in Hy as [k Hk].
      pose proof (lookup_lt_Some _ _ _ Hk) as Hklt. rewrite length_take in Hklt.
      rewrite lookup_take_lt in Hk by lia.
      destruct (del y) eqn:Hdy; [|done]. exfalso. eapply Hbefore; eauto. lia. }
    rewrite Hfilter, <- Ht. destruct clears; simpl.
    + split.
      * rewrite length_app, length_take, length_replicate. lia.
      * apply take_app_length'. rewrite length_take. lia.
    + done.
  - apply list_find_None in Hfind. simpl. split; [done|].
    symmetry. apply filter_all. eapply Forall_impl; [exact Hfind|].
    simpl. intros y Hy. by destruct (del y).
Qed.

Section Index.
Variable ReadSegments : list Z -> error + list SegmentId.
Variable clears : bool.

(** The index that [RemoveSegmentFromVolume] uploads lists as many
    segments as the one it read. *)
Lemma RemoveSegmentFromVolume_uploads F vol seg bucket segments :
  ListSegments ReadSegments F vol bucket = inr segments ->
  exists kept,
    length kept = length segments /\
    RemoveSegmentFromVolume ReadSegments clears F vol seg bucket
    = Upload F (index_key vol) (index_bytes kept) bucket.
Proof.
  intros Hl. unfold RemoveSegmentFromVolume. rewrite Hl.
  pose proof (slices_DeleteFunc_spec clears zeroSegmentId
                (fun si => bool_decide (si = seg)) segments) as [Hlen _].
  destruct (slices_DeleteFunc _ _ _ _) as [kept ret]. eauto.
Qed.
End Index.

(** C2: removing [seg1] from an index that lists [seg1] and [seg2] uploads
    an index that still has two entries: [seg2] twice when the tail is
    left as it was, [seg2] and the zero identifier when it is cleared; and
    removing [seg2], the last entry, leaves the index as it was unless the
    tail is cleared. *)
Theorem RemoveSegmentFromVolume_keeps_length :
  (forall clears,
     (RemoveSegmentFromVolume ReadSegments clears no_faults "vol" Sample.seg1 Sample.bucket0).1
     = None) /\
  ListSegments ReadSegments no_faults "vol"
    (RemoveSegmentFromVolume ReadSegments false no_faults "vol" Sample.seg1 Sample.bucket0).2
  = inr [Sample.seg2; Sample.seg2] /\
  ListSegments ReadSegments no_faults "vol"
    (RemoveSegmentFromVolume ReadSegments true no_faults "vol" Sample.seg1 Sample.bucket0).2
  = inr [Sample.seg2; zeroSegmentId] /\
  ListSegments ReadSegments no_faults "vol"
    (RemoveSegmentFromVolume ReadSegments false no_faults "vol" Sample.seg2 Sample.bucket0).2
  = inr [Sample.seg1; Sample.seg2].
Proof.
  split; [intros []; vm_compute; reflexivity|].
  repeat split; vm_compute; reflexivity.
Qed.

(** The sibling [AppendToObjects] keeps what [append] returns. *)
Example AppendToObjects_appends :
  ListSegments ReadSegments no_faults "vol"
    (AppendToObjects ReadSegments no_faults "vol" Sample.seg1
       (AppendToObjects ReadSegments no_faults "vol" Sample.seg2 ∅).2).2
  = inr [Sample.seg2; Sample.seg1].
Proof. vm_compute. reflexivity. Qed.
End S3Facts.

(** ** The layout of the body and of the segment file *)

Module LayoutFacts.
Import ObjectCreator Writer WriterFacts Layout.

Lemma total_size_app bs1 bs2 : total_size (bs1 ++ bs2) = total_size bs1 + total_size bs2.
Proof.
  unfold total_size. induction bs1 as [|b bs1 IH]; simpl; [lia|]. rewrite IH. lia.
Qed.

Lemma tiled_nil : tiled [].
Proof. intros bs1 b bs2 H. by destruct bs1. Qed.

Lemma tiled_snoc bs b :
  tiled bs -> (ocBlock.flags b <> Empty -> ocBlock.offset b = total_size bs) ->
  tiled (bs ++ [b]).
Proof.
  intros Ht Hb bs1 b' bs2 Heq Hf.
  destruct bs2 as [|x bs2 _] using rev_ind.
  - apply app_inj_tail in Heq as [-> ->]. auto.
  - rewrite app_comm_cons, app_assoc in Heq. apply app_inj_tail in Heq as [-> _].
    eapply Ht; eauto.
Qed.

Section WithLz4.
Variable lz4 : list Z -> nat -> error + list Z.

Lemma WriteExtent_loop_tiled fb ext idx : forall o err o',
  inv o -> len (buf o) = 2 * BlockSize -> tiled (blocks o) ->
  WriteExtent_loop lz4 fb ext idx o = Returns err o' ->
  tiled (blocks o').
Proof.
  induction idx as [|i idx IH]; simpl; intros o err o' Hinv Hlen Ht.
  - by intros [= <- <-].
  - destruct (WriteExtent_iter lz4 fb ext o i) as [o1|r] eqn:Hit.
    + pose proof (WriteExtent_iter_inv lz4 _ _ _ _ _ Hinv Hlen Hit) as [Hinv1 Hlen1].
      apply IH; try done.
      destruct Hinv as [Hc Ho _ Htot _ _ Hm1 Hm2].
      pose proof (len_nonneg (blocks o)). pose proof (len_nonneg (body o)).
      apply WriteExtent_iter_Next in Hit; try done; try lia.
      destruct Hit as (view & flags & payload & _ & _ & _ & _ & _ & _ & _ & ->).
      simpl. apply tiled_snoc; [done|]. simpl. intros Hf.
      rewrite decide_False by done. lia.
    + intros ->. apply WriteExtent_iter_Stop in Hit as (_ & _ & ->). done.
Qed.

Lemma reachable_tiled o : reachable lz4 o -> tiled (blocks o).
Proof.
  induction 1 as [|fb ext o err o' Hr IH Hw|o _ IH|fs path seg w _ IH].
  - apply tiled_nil.
  - apply reachable_inv in Hr. revert Hw. unfold WriteExtent.
    destruct (buf o) as [|x b] eqn:Hb.
    + destruct (scratch_inv o Hr). by apply WriteExtent_loop_tiled.
    + apply WriteExtent_loop_tiled; try done.
      destruct Hr as [_ _ _ _ _ [Hn|Hn] _ _]; congruence.
  - apply tiled_nil.
  - rewrite Flush_oc. apply tiled_nil.
Qed.

Lemma total_size_nonneg bs n : Forall (block_ok n) bs -> 0 <= total_size bs.
Proof.
  induction 1 as [|b bs Hb _ IH]; simpl; [done|].
  destruct Hb as (He & Hn & _).
  destruct (decide (ocBlock.flags b = Empty)) as [E|E].
  - destruct (He E) as [-> _]. lia.
  - destruct (Hn E) as (_ & ? & _). lia.
Qed.

(** X1: in every creator a program can hold, a block that is not empty
    starts at the sum of the sizes of the blocks recorded before it, so
    two such blocks never share a byte of the body. *)
Theorem blocks_tile_the_body o bs1 b1 bs2 b2 bs3 :
  reachable lz4 o ->
  blocks o = bs1 ++ b1 :: bs2 ++ b2 :: bs3 ->
  ocBlock.flags b1 <> Empty -> ocBlock.flags b2 <> Empty ->
  ocBlock.offset b1 = total_size bs1 /\
  ocBlock.offset b2 = total_size bs1 + ocBlock.size b1 + total_size bs2 /\
  ocBlock.offset b1 + ocBlock.size b1 <= ocBlock.offset b2.
Proof.
  intros Hr Hbs H1 H2. pose proof (reachable_tiled o Hr) as Ht.
  apply reachable_inv in Hr. destruct Hr as [_ _ Hok _ _ _ _ _].
  assert (ocBlock.offset b1 = total_size bs1) as E1 by (eapply Ht; eauto).
  assert (ocBlock.offset b2 = total_size (bs1 ++ b1 :: bs2)) as E2.
  { eapply Ht; [|done]. rewrite Hbs, <- app_assoc. reflexivity. }
  rewrite total_size_app in E2. simpl in E2.
  rewrite Hbs in Hok. rewrite !Forall_app, !Forall_cons, Forall_app in Hok.
  destruct Hok as (_ & _ & Hok2 & _).
  pose proof (total_size_nonneg _ _ Hok2). repeat split; lia.
Qed.

Lemma WriteExtent_nil_records fb ext o o' :
  reachable lz4 o ->
  WriteExtent lz4 fb ext o = Returns None o' ->
  exists recs payloads,
    Forall3 (encodes lz4 fb ext) (seq 0 (Z.to_nat (Extent.Blocks ext))) recs payloads /\
    blocks o' = blocks o ++ recs /\
    body o' = body o ++ mjoin payloads.
Proof.
  intros Hr. apply reachable_inv in Hr. unfold WriteExtent.
  assert (forall o1, inv o1 -> len (buf o1) = 2 * BlockSize ->
            blocks o1 = blocks o -> body o1 = body o ->
            WriteExtent_loop lz4 fb ext (seq 0 (Z.to_nat (Extent.Blocks ext))) o1
            = Returns None o' ->
            exists recs payloads,
              Forall3 (encodes lz4 fb ext) (seq 0 (Z.to_nat (Extent.Blocks ext)))
                recs payloads /\
              blocks o' = blocks o ++ recs /\
              body o' = body o ++ mjoin payloads) as Hmain.
  { intros o1 Hinv Hlen Hbs Hbody Hloop.
    apply WriterRefinement.WriteExtent_loop_records in Hloop; try done.
    destruct Hloop as (served & rest & recs & payloads & Hidx & HF & Hb & Hbd & ->).
    rewrite app_nil_r in Hidx. subst served.
    exists recs, payloads. by rewrite <- Hbs, <- Hbody. }
  destruct (buf o) as [|x b] eqn:Hb.
  - destruct (scratch_inv o Hr). by apply Hmain.
  - apply Hmain; try done. destruct Hr as [_ _ _ _ _ [Hn|Hn] _ _]; congruence.
Qed.

Lemma encodes_sizes fb ext idx recs payloads :
  Forall3 (encodes lz4 fb ext) idx recs payloads ->
  forall i, total_size (take i recs) = len (mjoin (take i payloads)).
Proof.
  induction 1 as [|j r p idx recs payloads Henc _ IH]; intros i.
  - by rewrite !take_nil.
  - destruct i as [|i]; [done|]. simpl. rewrite len_app, <- IH.
    destruct Henc as (view & _ & _ & _ & _ & ->). done.
Qed.

(** X2: after a [WriteExtent] that returns nil, the record of the [i]-th
    block of the extent sits at position [i] after the blocks recorded
    before, and the bytes of the body it points at are the bytes the rule
    yields for that block: nothing for a block of zeros, the compressed
    bytes, or the block itself. *)
Theorem WriteExtent_stores_blocks firstBlock ext o o' i :
  reachable lz4 o ->
  WriteExtent lz4 firstBlock ext o = Returns None o' ->
  (i < Z.to_nat (Extent.Blocks ext))%nat ->
  exists view r payload,
    Extent.BlockView ext i = Some view /\
    blocks o' !! (length (blocks o) + i)%nat = Some r /\
    spec_encode_block lz4 view = Some (ocBlock.flags r, payload) /\
    block_bytes (body o') r = payload.
Proof.
  intros Hr Hw Hi.
  assert (reachable lz4 o') as Hr' by (eapply reach_WriteExtent; eauto).
  pose proof (reachable_tiled o' Hr') as Ht.
  destruct (WriteExtent_nil_records _ _ _ _ Hr Hw) as (recs & payloads & HF & Hb & Hbody).
  apply reachable_inv in Hr. destruct Hr as [_ _ _ Htot _ _ _ _].
  assert (seq 0 (Z.to_nat (Extent.Blocks ext)) !! i = Some i) as Hseq
    by (by apply lookup_seq_lt).
  destruct (Forall3_lookup_l _ _ _ _ _ _ HF Hseq) as (r & p & Hrec & Hpay & Henc).
  pose proof (encodes_sizes _ _ _ _ _ HF i) as Hsz.
  destruct Henc as (view & Hv & Hvl & Hspec & Hlba & Hsize).
  exists view, r, p. split; [done|]. split.
  { rewrite Hb, lookup_app_r by lia. rewrite <- Hrec. f_equal. lia. }
  split; [done|].
  unfold block_bytes. rewrite Hsize.
  destruct (decide (ocBlock.flags r = Empty)) as [E|E].
  - apply spec_encode_block_flags in Hspec.
    unfold Empty, Compressed, Uncompressed in *.
    destruct Hspec as [[_ ->]|[[? _]|[? _]]]; [done|congruence|congruence].
  - assert (ocBlock.offset r = len (body o ++ mjoin (take i payloads))) as Hoff.
    { rewrite len_app, <- Hsz, <- Htot, <- total_size_app.
      eapply Ht; [|done]. rewrite Hb, <- app_assoc. f_equal.
      symmetry. by apply take_drop_middle. }
    rewrite Hoff, Hbody. rewrite <- (take_drop_middle payloads i p) at 2 by done.
    rewrite join_app. simpl. rewrite !app_assoc, <- (app_assoc _ p).
    unfold len. rewrite !Nat2Z.id, drop_app_length. apply take_app_length.
Qed.
End WithLz4.
End LayoutFacts.

(** ** The segment file and the map *)

Module SegmentFileFacts.
Import ObjectCreator Writer WriterFacts Layout.

Lemma PutUint32_length v : length (PutUint32 v) = 4%nat.
Proof. reflexivity. Qed.

Section WithLz4.
Variable lz4 : list Z -> nat -> error + list Z.

(** X3: after a [Flush] that returns nil on a segment of less than 4 GiB,
    the map entry of an address points, in the file written, at the very
    bytes that the last block recorded for the address had in the body. *)
Theorem Flush_entries_locate_bytes fs path seg w w' lba b :
  reachable lz4 (oc w) ->
  Flush fs path seg w = (FlushReturns None, w') ->
  8 + len (header_records (blocks (oc w))) + len (body (oc w)) < 2 ^ 32 ->
  last_for lba (blocks (oc w)) = Some b ->
  exists e file,
    lbas w' !! lba = Some e /\ files w' !! path = Some file /\
    objPBA.Flags e = ocBlock.flags b /\
    entry_bytes file e = block_bytes (body (oc w)) b.
Proof.
  intros Hr Hf Hsmall Hl. apply reachable_inv in Hr.
  apply FlushFacts.Flush_nil in Hf as [Hfile Hmap].
  destruct Hr as [_ _ Hb _ Hh _ _ _]. rewrite Hh in Hfile, Hmap. cbn [app] in Hfile, Hmap.
  set (hdr := header_records (blocks (oc w))) in *.
  pose proof (len_nonneg hdr) as Hhdr. pose proof (len_nonneg (body (oc w))) as Hbody.
  assert (uint32 (len hdr + 8) = len hdr + 8) as Hdb by (apply Z.mod_small; lia).
  rewrite Hdb in Hfile, Hmap.
  eexists _, _. split; [|split; [exact Hfile|]].
  { rewrite Hmap, FlushFacts.Flush_install_lookup, Hl. reflexivity. }
  assert (b ∈ blocks (oc w)) as Hin.
  { unfold last_for in Hl. by apply last_Some_elem_of, list_elem_of_filter in Hl as [_ ?]. }
  rewrite Forall_forall in Hb. destruct (Hb _ Hin) as (He & Hn & _).
  assert (0 <= ocBlock.size b <= BlockSize /\ 0 <= ocBlock.offset b <= len (body (oc w)))
    as [Hsz Hoff].
  { destruct (decide (ocBlock.flags b = Empty)) as [E|E].
    - destruct (He E) as [-> ->]. unfold BlockSize. lia.
    - destruct (Hn E) as (? & ? & ? & ?). lia. }
  split; [reflexivity|].
  unfold entry_bytes, block_bytes, map_entry. cbn [objPBA.Size objPBA.PBA PBA.Offset].
  assert (uint32 (ocBlock.size b) = ocBlock.size b) as ->
    by (apply Z.mod_small; unfold BlockSize in *; lia).
  assert (uint32 (ocBlock.offset b) = ocBlock.offset b) as -> by (apply Z.mod_small; lia).
  assert (uint32 (len hdr + 8 + ocBlock.offset b) = len hdr + 8 + ocBlock.offset b) as ->
    by (apply Z.mod_small; lia).
  f_equal. rewrite !app_assoc.
  replace (Z.to_nat (len hdr + 8 + ocBlock.offset b))
    with (Z.to_nat (len hdr + 8) + Z.to_nat (ocBlock.offset b))%nat by lia.
  apply drop_app_add'. rewrite !length_app, !PutUint32_length. unfold len in *. lia.
Qed.
End WithLz4.

Lemma Flush_entries_locate_bytes_witness :
  reachable Sample.lz4 (oc Sample.world0) /\
  Flush os.reliable "seg" Sample.seg1 Sample.world0
  = (FlushReturns None, Sample.flushed.2) /\
  8 + len (header_records (blocks (oc Sample.world0))) + len (body (oc Sample.world0))
  < 2 ^ 32 /\
  last_for 12 (blocks (oc Sample.world0)) = Some Sample2.b12 /\
  exists e file,
    lbas Sample.flushed.2 !! 12 = Some e /\
    files Sample.flushed.2 !! "seg"%string = Some file /\
    objPBA.Flags e = ocBlock.flags Sample2.b12 /\
    entry_bytes file e = block_bytes (body (oc Sample.world0)) Sample2.b12.
Proof.
  split; [exact WriterRefinement.written_reachable|].
  split; [vm_compute; reflexivity|].
  split; [vm_compute; reflexivity|].
  split; [vm_compute; reflexivity|].
  apply (Flush_entries_locate_bytes Sample.lz4 os.reliable "seg" Sample.seg1
           Sample.world0 Sample.flushed.2 12 Sample2.b12).
  - exact WriterRefinement.written_reachable.
  - vm_compute; reflexivity.
  - vm_compute; reflexivity.
  - vm_compute; reflexivity.
Defined.

(** X4: [Flush] resets the creator on every way out, so a [Flush] that
    follows another one, failed or not, finds nothing to write: on a file
    system that works it writes a segment of eight bytes, no entries and
    data begin 8, and sets nothing in the map. *)
Theorem Flush_after_Flush_is_empty fs1 path1 seg1 w r1 w1 fs2 path2 seg2 :
  Flush fs1 path1 seg1 w = (r1, w1) ->
  os.create_err fs2 = None ->
  os.write_err fs2 0 = None -> os.write_err fs2 1 = None ->
  exists w2,
    Flush fs2 path2 seg2 w1 = (FlushReturns None, w2) /\
    files w2 !! path2 = Some [0; 0; 0; 0; 0; 0; 0; 8] /\
    lbas w2 = lbas w1.
Proof.
  intros Hf Hc H0 H1.
  pose proof (Flush_oc fs1 path1 seg1 w) as Ho. rewrite Hf in Ho. simpl in Ho.
  unfold Flush, Flush_body, File_Write, io_Copy. rewrite Ho. simpl.
  rewrite Hc. simpl. rewrite H0. simpl. rewrite H1. simpl.
  eexists. split; [reflexivity|]. simpl. split; [|reflexivity].
  rewrite lookup_insert_eq. rewrite lookup_insert_eq. simpl.
  rewrite lookup_insert_eq. reflexivity.
Qed.

Lemma Flush_after_Flush_is_empty_witness :
  Flush Sample.read_only "seg" Sample.seg1 Sample.world0
  = (Sample.failed.1, Sample.failed.2) /\
  os.create_err os.reliable = None /\
  os.write_err os.reliable 0 = None /\ os.write_err os.reliable 1 = None /\
  exists w2,
    Flush os.reliable "seg" Sample.seg1 Sample.failed.2 = (FlushReturns None, w2) /\
    files w2 !! "seg"%string = Some [0; 0; 0; 0; 0; 0; 0; 8] /\
    lbas w2 = lbas Sample.failed.2.
Proof.
  split; [vm_compute; reflexivity|]. do 3 (split; [reflexivity|]).
  apply (Flush_after_Flush_is_empty Sample.read_only "seg" Sample.seg1 Sample.world0
           Sample.failed.1 Sample.failed.2 os.reliable "seg" Sample.seg1);
    vm_compute; reflexivity.
Defined.
End SegmentFileFacts.

(** ** Extents of zeros *)

Module ZeroExtentFacts.
Import ObjectCreator Writer WriterFacts Layout.

Lemma zeros_BlockView n i :
  (i < n)%nat -> Extent.BlockView (zeros n) i = Some emptyBlock.
Proof.
  intros Hi. unfold Extent.BlockView, zeros, emptyBlock. cbn [Extent.data].
  rewrite length_replicate.
  assert (0 < Z.to_nat BlockSize)%nat as HB by (unfold BlockSize; lia).
  revert HB. generalize (Z.to_nat BlockSize). intros B HB.
  destruct (Nat.leb_spec (B * i + B) (n * B)) as [Hle|Hgt]; [|nia].
  rewrite drop_replicate, take_replicate. do 2 f_equal. nia.
Qed.

Lemma emptyBytes_emptyBlock : emptyBytes emptyBlock = true.
Proof. unfold emptyBytes. by apply bytes_Equal_eq. Qed.

Section WithLz4.
Variable lz4 : list Z -> nat -> error + list Z.

Lemma WriteExtent_loop_zeros fb n m : forall a o,
  (a + m <= n)%nat -> len (blocks o) + Z.of_nat m <= maxInt ->
  0 <= cnt o -> cnt o = len (blocks o) ->
  exists o',
    WriteExtent_loop lz4 fb (zeros n) (seq a m) o = Returns None o' /\
    blocks o' = blocks o
                  ++ ((fun i => ocBlock.mk (uint64 (fb + Z.of_nat i)) Empty 0 0) <$> seq a m) /\
    body o' = body o /\ offset o' = offset o /\ header o' = header o.
Proof.
  induction m as [|m IH]; intros a o Ha Hmax Hc0 Hc; simpl.
  - exists o. by rewrite app_nil_r.
  - unfold WriteExtent_iter. rewrite zeros_BlockView by lia.
    rewrite emptyBytes_emptyBlock. unfold append.
    destruct (Z.leb_spec (len (blocks o) + 1) maxInt) as [_|?]; [|lia].
    set (o1 := mk _ _ _ _ _ _).
    destruct (IH (S a) o1) as (o' & Hloop & Hb & Hbody & Hoff & Hh).
    + lia.
    + subst o1. simpl. rewrite len_app. change (len [_]) with 1. lia.
    + subst o1. simpl. rewrite int_small; lia.
    + subst o1. simpl. rewrite int_small, len_app by lia. change (len [_]) with 1. lia.
    + exists o'. split; [done|]. rewrite Hb. subst o1. simpl.
      rewrite <- app_assoc. done.
Qed.

(** X5: an extent of zeros is written without the compressor: on a
    creator a program can hold, with room for [n] more records,
    [WriteExtent] returns nil whatever the compressor would answer, adds
    one empty record per block and leaves the body as it was. *)
Theorem WriteExtent_zeros firstBlock n o :
  reachable lz4 o ->
  len (blocks o) + Z.of_nat n <= maxInt ->
  exists o',
    WriteExtent lz4 firstBlock (zeros n) o = Returns None o' /\
    blocks o' = blocks o ++ empty_records firstBlock n /\
    body o' = body o /\ offset o' = offset o.
Proof.
  intros Hr Hmax. apply reachable_inv in Hr. destruct Hr as [Hc _ _ _ _ _ _ _].
  pose proof (len_nonneg (blocks o)).
  unfold WriteExtent, zeros at 2. cbn [Extent.Blocks Extent.blocks]. rewrite Nat2Z.id.
  destruct (buf o) as [|x b] eqn:Hb.
  - destruct (WriteExtent_loop_zeros firstBlock n n 0
                (mk (cnt o) (offset o) (blocks o)
                   (replicate (Z.to_nat (2 * BlockSize)) 0) (header o) (body o)))
      as (o' & Hloop & Hbs & Hbody & Hoff & _); simpl; try lia.
    exists o'. done.
  - destruct (WriteExtent_loop_zeros firstBlock n n 0 o)
      as (o' & Hloop & Hbs & Hbody & Hoff & _); try lia.
    exists o'. done.
Qed.
End WithLz4.

Lemma WriteExtent_zeros_witness :
  reachable Sample2.no_lz4 zero /\
  len (blocks zero) + Z.of_nat 2 <= maxInt /\
  exists o',
    WriteExtent Sample2.no_lz4 5 (zeros 2) zero = Returns None o' /\
    blocks o' = blocks zero ++ empty_records 5 2 /\
    body o' = body zero /\ offset o' = offset zero.
Proof.
  split; [apply reach_zero|]. split; [vm_compute; discriminate|].
  apply (WriteExtent_zeros Sample2.no_lz4 5 2 zero).
  - apply reach_zero.
  - vm_compute; discriminate.
Defined.
End ZeroExtentFacts.

(** ** Witnesses for the layout of the body *)

Module LayoutWitnesses.
Import ObjectCreator Writer Layout.

Lemma blocks_tile_the_body_witness :
  reachable Sample.lz4 Sample.written /\
  blocks Sample.written = [Sample2.b10] ++ Sample2.b11 :: [] ++ Sample2.b12 :: [] /\
  ocBlock.flags Sample2.b11 <> Empty /\ ocBlock.flags Sample2.b12 <> Empty /\
  ocBlock.offset Sample2.b11 = total_size [Sample2.b10] /\
  ocBlock.offset Sample2.b12
  = total_size [Sample2.b10] + ocBlock.size Sample2.b11 + total_size [] /\
  ocBlock.offset Sample2.b11 + ocBlock.size Sample2.b11 <= ocBlock.offset Sample2.b12.
Proof.
  split; [exact WriterRefinement.written_reachable|].
  split; [vm_compute; reflexivity|].
  split; [discriminate|]. split; [discriminate|].
  apply (LayoutFacts.blocks_tile_the_body Sample.lz4 Sample.written
           [Sample2.b10] Sample2.b11 [] Sample2.b12 []).
  - exact WriterRefinement.written_reachable.
  - vm_compute; reflexivity.
  - discriminate.
  - discriminate.
Defined.

Lemma WriteExtent_stores_blocks_witness :
  reachable Sample.lz4 zero /\
  WriteExtent Sample.lz4 10 Sample.ext3 zero = Returns None Sample.written /\
  (2 < Z.to_nat (Extent.Blocks Sample.ext3))%nat /\
  exists view r payload,
    Extent.BlockView Sample.ext3 2 = Some view /\
    blocks Sample.written !! (length (blocks zero) + 2)%nat = Some r /\
    spec_encode_block Sample.lz4 view = Some (ocBlock.flags r, payload) /\
    block_bytes (body Sample.written) r = payload.
Proof.
  split; [apply reach_zero|]. split; [vm_compute; reflexivity|].
  split; [vm_compute; lia|].
  apply (LayoutFacts.WriteExtent_stores_blocks Sample.lz4 10 Sample.ext3 zero
           Sample.written 2).
  - apply reach_zero.
  - vm_compute; reflexivity.
  - vm_compute; lia.
Defined.
End LayoutWitnesses.

(** ** More of the S3 segment access *)

Module S3OpsFacts.
Import S3 S3Ops.




(** *** Metadata *)

Lemma mdWriter_Writes_buf bs : forall m m',
  mdWriter_Writes m bs = Some m' ->
  md_key m' = md_key m /\ md_buf m' = md_buf m ++ mjoin bs.
Proof.
  induction bs as [|b bs IH]; intros m m'; simpl.
  - intros [= <-]. by rewrite app_nil_r.
  - unfold mdWriter_Write at 1.
    destruct (Buffer_Write (md_buf m) b) as [b'|] eqn:Hw; [|done]. simpl.
    intros H. apply IH in H as [-> ->]. simpl.
    apply Buffer_Write_Some in Hw as [-> _]. by rewrite <- app_assoc.
Qed.

(** X7: what is written through the writer of [WriteMetadata] and closed
    is what [ReadMetadata] reads back under the same volume and name, all
    the slices one after the other; a blob that was never written reads as
    [os.ErrNotExist]. *)
Theorem metadata_round_trip F vol name chunks m bucket :
  mdWriter_Writes (WriteMetadata vol name) chunks = Some m ->
  upload_err F (md_key m) = None ->
  get_err F (md_key m) = None ->
  (mdWriter_Close F m bucket).1 = None /\
  ReadMetadata F vol name (mdWriter_Close F m bucket).2 = Body (mjoin chunks) /\
  (bucket !! md_key m = None -> ReadMetadata F vol name bucket = ErrNotExist).
Proof.
  intros Hw Hu Hg. apply mdWriter_Writes_buf in Hw as [Hk Hb]. simpl in Hk, Hb.
  unfold mdWriter_Close, Upload, ReadMetadata, GetObject. rewrite Hu. simpl.
  rewrite <- Hk, Hg, lookup_insert_eq, Hb. repeat split.
  intros ->. reflexivity.
Qed.

Lemma metadata_round_trip_witness :
  mdWriter_Writes (WriteMetadata "vol" "head") [[1; 2]; []; [3]]
  = Some (mkMdWriter "volumes/vol/head" [1; 2; 3]) /\
  upload_err S3.no_faults "volumes/vol/head" = None /\
  get_err S3.no_faults "volumes/vol/head" = None /\
  (mdWriter_Close S3.no_faults (mkMdWriter "volumes/vol/head" [1; 2; 3]) ∅).1 = None /\
  ReadMetadata S3.no_faults "vol" "head"
    (mdWriter_Close S3.no_faults (mkMdWriter "volumes/vol/head" [1; 2; 3]) ∅).2
  = Body (mjoin [[1; 2]; []; [3]]) /\
  ((∅ : gmap string (list Z)) !! "volumes/vol/head"%string = None ->
   ReadMetadata S3.no_faults "vol" "head" ∅ = ErrNotExist).
Proof.
  split; [reflexivity|]. split; [reflexivity|]. split; [reflexivity|].
  exact (metadata_round_trip S3.no_faults "vol" "head" [[1; 2]; []; [3]]
           (mkMdWriter "volumes/vol/head" [1; 2; 3]) ∅ eq_refl eq_refl eq_refl).
Defined.

(** *** The object index *)

Lemma ReadSegments_chunks_join segs : forall fuel,
  Forall (fun s : SegmentId => length s = 16%nat) segs ->
  (length (mjoin segs) <= fuel)%nat ->
  ReadSegments_chunks fuel (mjoin segs) = inr segs.
Proof.
  induction segs as [|s segs IH]; intros fuel Hwf Hfuel.
  - by destruct fuel.
  - apply Forall_cons in Hwf as [Hs Hwf]. simpl in *. rewrite length_app in Hfuel.
    destruct fuel as [|fuel]; [lia|].
    destruct (s ++ mjoin segs) as [|x body] eqn:Hbody.
    { apply (f_equal length) in Hbody. rewrite length_app in Hbody. simpl in Hbody. lia. }
    cbn [ReadSegments_chunks]. rewrite <- Hbody.
    destruct (Nat.ltb_spec (length (s ++ mjoin segs)) 16) as [Hlt|_].
    { rewrite length_app in Hlt. lia. }
    rewrite drop_app_length' by lia. rewrite IH by (done || lia).
    by rewrite take_app_length' by lia.
Qed.

(** The parser modelled from the specification reads back what the index
    writers write. *)
Lemma ReadSegments_index_bytes segs :
  Forall (fun s : SegmentId => length s = 16%nat) segs ->
  ReadSegments (index_bytes segs) = inr segs.
Proof. intros H. unfold ReadSegments, index_bytes. by apply ReadSegments_chunks_join. Qed.

Section Index.
Variable ReadSegments : list Z -> error + list SegmentId.
Variable clears : bool.

(** [ReadSegments] reads back an index of well-formed identifiers. *)
Hypothesis ReadSegments_parses : forall segs,
  Forall (fun s : SegmentId => length s = 16%nat) segs ->
  ReadSegments (index_bytes segs) = inr segs.

(** X8: after an [AppendToObjects] whose requests go through, the volume
    lists what it listed before followed by the new segment; on a volume
    without an index it lists just the new segment. *)
Theorem AppendToObjects_then_ListSegments F vol seg bucket segs :
  ListSegments ReadSegments F vol bucket = inr segs ->
  Forall (fun s : SegmentId => length s = 16%nat) segs -> length seg = 16%nat ->
  upload_err F (index_key vol) = None -> get_err F (index_key vol) = None ->
  (AppendToObjects ReadSegments F vol seg bucket).1 = None /\
  ListSegments ReadSegments F vol (AppendToObjects ReadSegments F vol seg bucket).2
  = inr (segs ++ [seg]) /\
  (bucket !! index_key vol = None -> segs = []).
Proof using ReadSegments_parses.
  intros Hl Hwf Hseg Hu Hg. unfold AppendToObjects. rewrite Hl.
  unfold Upload. rewrite Hu. simpl. split; [done|]. split.
  - unfold ListSegments, GetObject. rewrite Hg, lookup_insert_eq.
    apply ReadSegments_parses. apply Forall_app. split; [done|]. by apply Forall_singleton.
  - intros Hnone. unfold ListSegments, GetObject in Hl. rewrite Hg, Hnone in Hl.
    simpl in Hl. congruence.
Qed.

(** X9: removing from a volume a segment it does not list uploads the
    index as it was read, and the volume lists the same segments after. *)
Theorem RemoveSegmentFromVolume_absent F vol seg bucket segs :
  ListSegments ReadSegments F vol bucket = inr segs ->
  Forall (fun s : SegmentId => length s = 16%nat) segs ->
  seg ∉ segs ->
  upload_err F (index_key vol) = None -> get_err F (index_key vol) = None ->
  RemoveSegmentFromVolume ReadSegments clears F vol seg bucket
  = (None, <[index_key vol := index_bytes segs]> bucket) /\
  ListSegments ReadSegments F vol
    (RemoveSegmentFromVolume ReadSegments clears F vol seg bucket).2 = inr segs.
Proof using ReadSegments_parses.
  intros Hl Hwf Hnot Hu Hg. unfold RemoveSegmentFromVolume. rewrite Hl.
  assert (slices_DeleteFunc clears zeroSegmentId (fun si => bool_decide (si = seg)) segs
          = (segs, segs)) as ->.
  { unfold slices_DeleteFunc.
    destruct (list_find _ segs) as [[i x]|] eqn:Hfind; [|done].
    apply list_find_Some in Hfind as (Hi & Hx & _).
    apply bool_decide_eq_true in Hx. subst x.
    exfalso. apply Hnot. eapply list_elem_of_lookup_2; eauto. }
  unfold Upload. rewrite Hu. split; [done|]. simpl.
  unfold ListSegments, GetObject. rewrite Hg, lookup_insert_eq. by apply ReadSegments_parses.
Qed.

End Index.

Lemma AppendToObjects_then_ListSegments_witness :
  (forall segs, Forall (fun s : SegmentId => length s = 16%nat) segs ->
                ReadSegments (index_bytes segs) = inr segs) /\
  ListSegments ReadSegments S3.no_faults "vol" Sample.bucket0
  = inr [Sample.seg1; Sample.seg2] /\
  Forall (fun s : SegmentId => length s = 16%nat) [Sample.seg1; Sample.seg2] /\
  length (replicate 16 3 : SegmentId) = 16%nat /\
  (AppendToObjects ReadSegments S3.no_faults "vol" (replicate 16 3) Sample.bucket0).1 = None /\
  ListSegments ReadSegments S3.no_faults "vol"
    (AppendToObjects ReadSegments S3.no_faults "vol" (replicate 16 3) Sample.bucket0).2
  = inr ([Sample.seg1; Sample.seg2] ++ [replicate 16 3]) /\
  (Sample.bucket0 !! index_key "vol" = None -> [Sample.seg1; Sample.seg2] = []).
Proof.
  split; [exact ReadSegments_index_bytes|]. split; [vm_compute; reflexivity|].
  split; [by repeat constructor|]. split; [reflexivity|].
  apply (AppendToObjects_then_ListSegments ReadSegments ReadSegments_index_bytes
           S3.no_faults "vol" (replicate 16 3) Sample.bucket0 [Sample.seg1; Sample.seg2]).
  - vm_compute; reflexivity.
  - by repeat constructor.
  - reflexivity.
  - reflexivity.
  - reflexivity.
Defined.

Lemma RemoveSegmentFromVolume_absent_witness :
  (forall segs, Forall (fun s : SegmentId => length s = 16%nat) segs ->
                ReadSegments (index_bytes segs) = inr segs) /\
  ListSegments ReadSegments S3.no_faults "vol" Sample.bucket0
  = inr [Sample.seg1; Sample.seg2] /\
  ((replicate 16 3 : SegmentId) ∉ [Sample.seg1; Sample.seg2]) /\
  RemoveSegmentFromVolume ReadSegments true S3.no_faults "vol" (replicate 16 3) Sample.bucket0
  = (None, <[index_key "vol" := index_bytes [Sample.seg1; Sample.seg2]]> Sample.bucket0) /\
  ListSegments ReadSegments S3.no_faults "vol"
    (RemoveSegmentFromVolume ReadSegments true S3.no_faults "vol" (replicate 16 3)
       Sample.bucket0).2
  = inr [Sample.seg1; Sample.seg2].
Proof.
  assert ((replicate 16 3 : SegmentId) ∉ [Sample.seg1; Sample.seg2]) as Hnot.
  { intros Hin. repeat (apply elem_of_cons in Hin as [Hin|Hin]; [discriminate Hin|]).
    by apply elem_of_nil in Hin. }
  split; [exact ReadSegments_index_bytes|]. split; [vm_compute; reflexivity|].
  split; [exact Hnot|].
  apply (RemoveSegmentFromVolume_absent ReadSegments true ReadSegments_index_bytes
           S3.no_faults "vol" (replicate 16 3) Sample.bucket0 [Sample.seg1; Sample.seg2]).
  - vm_compute; reflexivity.
  - by repeat constructor.
  - exact Hnot.
  - reflexivity.
  - reflexivity.
Defined.

(** *** [ReadAtCompressed] *)

Lemma io_ReadAtLeast_bound r min : forall got n err stored,
  (length got <= min)%nat ->
  io_ReadAtLeast r min got = (n, err, stored) -> (length stored <= min)%nat.
Proof.
  induction r as [|[chunk e] r IH]; intros got n err stored Hgot; simpl.
  - destruct (length got <? min)%nat; intros [= _ _ <-]; done.
  - destruct (length got <? min)%nat; [|intros [= _ _ <-]; done].
    assert (length (got ++ take (min - length got) chunk) <= min)%nat as Hgot'.
    { rewrite length_app, length_take. lia. }
    destruct e as [e|]; [|by apply IH].
    repeat case_match; intros [= _ _ <-]; done.
Qed.

Lemma overwrite_zeros n stored :
  (length stored <= n)%nat ->
  overwrite (replicate n 0) stored = stored ++ replicate (n - length stored) 0.
Proof.
  intros H. unfold overwrite. rewrite length_replicate, drop_replicate.
  apply take_ge. rewrite length_app, length_replicate. lia.
Qed.

(** X11: [S3ObjectReader.ReadAtCompressed] drops the count of [ReadAt], and
    [ReadAt] hides an error once a byte was read: when the body breaks off
    after some bytes, the error is not returned and the decoder is run on
    the bytes read followed by zeros. *)
Theorem S3_ReadAtCompressed_short_body getObject lz4d dest off compSize body n e stored :
  getObject (off, int (int off + Z.of_nat compSize - 1)) = inr body ->
  io_ReadFull body compSize = (n, Some e, stored) ->
  0 < n ->
  S3_ReadAtCompressed getObject lz4d dest off compSize
  = uncompress lz4d (stored ++ replicate (compSize - length stored) 0) dest /\
  (length stored < compSize)%nat.
Proof.
  intros Hg Hr Hn. unfold S3_ReadAtCompressed, ReadAt. rewrite Hg, Hr.
  apply Z.ltb_lt in Hn as Hn'. rewrite Hn'.
  pose proof (io_ReadAtLeast_bound _ _ [] _ _ _ ltac:(simpl; lia) Hr) as Hb.
  rewrite overwrite_zeros by done. split; [done|].
  destruct (decide (length stored = compSize)) as [Heq|]; [|lia].
  exfalso. clear Hb Hn Hn'. revert Hr. unfold io_ReadFull.
  assert (forall r got n err st,
            io_ReadAtLeast r compSize got = (n, err, st) ->
            length st = compSize -> (length got <= compSize)%nat -> err = None) as Hfull.
  { clear. induction r as [|[chunk e] r IH]; intros got n err st; simpl.
    - destruct (Nat.ltb_spec (length got) compSize); intros [= _ <- <-]; [lia|done].
    - destruct (Nat.ltb_spec (length got) compSize); [|by intros [= _ <- <-]].
      destruct e as [e|].
      + destruct (Nat.leb_spec compSize
                    (length (got ++ take (compSize - length got) chunk))).
        * by intros [= _ <- <-].
        * case_match; intros [= _ <- <-]; lia.
      + intros Hr Hst Hg. eapply IH; eauto. rewrite length_app, length_take. lia. }
  intros Hr. apply Hfull in Hr; [done|done|simpl; lia].
Qed.

Lemma S3_ReadAtCompressed_short_body_witness :
  io_ReadFull Sample.broken_body 8 = (3, Some (ErrExternal 5), [1; 2; 3]) /\
  0 < 3 /\
  S3_ReadAtCompressed (fun _ => inr Sample.broken_body) (fun buf _ => inr buf) 4096 64 8
  = uncompress (fun buf _ => inr buf) ([1; 2; 3] ++ replicate (8 - 3) 0) 4096 /\
  (length [1; 2; 3] < 8)%nat.
Proof.
  split; [reflexivity|]. split; [lia|].
  exact (S3_ReadAtCompressed_short_body (fun _ => inr Sample.broken_body)
           (fun buf _ => inr buf) 4096 64 8 Sample.broken_body 3 (ErrExternal 5) [1; 2; 3]
           eq_refl eq_refl eq_refl).
Defined.

(** *** [ListVolumes] *)

Lemma substring_one t : forall m c,
  String.get m t = Some c -> String.substring m 1 t = String c "".
Proof.
  induction t as [|a t IH]; intros m c; simpl; [done|].
  destruct m as [|m]; simpl.
  - intros [= ->]. by destruct t.
  - apply IH.
Qed.

Lemma no_slash_before_index t idx :
  String.index 0 "/" t = Some idx ->
  String.index 0 "/" (String.substring 0 idx t) = None.
Proof.
  intros Hidx.
  destruct (String.index 0 "/" (String.substring 0 idx t)) as [m|] eqn:Hm; [|done].
  exfalso. apply String.index_correct1 in Hm. simpl in Hm.
  assert (String.get m (String.substring 0 idx t) = String.get 0 "/") as Hget.
  { pose proof (String.substring_correct1 (String.substring 0 idx t) m 1 0 ltac:(lia)) as H.
    rewrite Nat.add_0_l in H. by rewrite <- H, Hm. }
  simpl in Hget.
  destruct (Nat.lt_ge_cases m idx) as [Hlt|Hge].
  - rewrite String.substring_correct1 in Hget by done. rewrite Nat.add_0_r in Hget.
    apply substring_one in Hget.
    by apply (String.index_correct2 _ _ _ _ Hidx m ltac:(lia) Hlt).
  - by rewrite String.substring_correct2 in Hget.
Qed.

Lemma volume_of_no_slash key v :
  volume_of key = Some v -> String.index 0 "/" v = None.
Proof.
  unfold volume_of. case_match; [done|].
  destruct (String.index 0 "/" _) as [idx|] eqn:Hidx; intros [= <-]; [|done].
  by apply no_slash_before_index.
Qed.

Lemma volumes_of_spec keys : forall acc,
  Forall (fun k => (8 <= String.length k)%nat) keys ->
  exists vs,
    volumes_of keys acc = Some (acc ++ vs) /\
    Forall2 (fun k v => volume_of k = Some v) keys vs.
Proof.
  induction keys as [|k keys IH]; intros acc Hlong; simpl.
  - exists []. by rewrite app_nil_r.
  - apply Forall_cons in Hlong as [Hk Hlong].
    destruct (volume_of k) as [v|] eqn:Hv.
    + simpl. destruct (IH (acc ++ [v]) Hlong) as (vs & -> & HF).
      exists (v :: vs). rewrite <- app_assoc. split; [done|]. by constructor.
    + exfalso. revert Hv. unfold volume_of. simpl String.length.
      destruct (Nat.ltb_spec (String.length k) 8); [lia|]. by case_match.
Qed.

Lemma ListVolumes_loop_spec L pages : forall token acc turns,
  answered_by L token pages ->
  (length pages <= turns)%nat ->
  Forall (fun k => (8 <= String.length k)%nat) (pages ≫= Contents) ->
  exists vs,
    ListVolumes_loop L turns token acc = Some (Volumes (acc ++ vs)) /\
    Forall2 (fun k v => volume_of k = Some v) (pages ≫= Contents) vs.
Proof.
  induction pages as [|p pages IH]; intros token acc turns Hans Hturns Hlong; [done|].
  destruct turns as [|turns]; [simpl in Hturns; lia|].
  destruct Hans as [Hp Hrest]. cbn [ListVolumes_loop]. rewrite Hp.
  rewrite bind_cons in Hlong. apply Forall_app in Hlong as [Hlong1 Hlong2].
  destruct (volumes_of_spec (Contents p) acc Hlong1) as (vs1 & -> & HF1).
  destruct pages as [|p' pages].
  - exists vs1. rewrite bind_cons. simpl. rewrite app_nil_r. split; [|done].
    destruct (IsTruncated p) as [[|]|]; done.
  - destruct Hrest as [-> Hrest].
    destruct (IH _ (acc ++ vs1) turns Hrest ltac:(simpl in *; lia) Hlong2)
      as (vs2 & -> & HF2).
    exists (vs1 ++ vs2). rewrite <- app_assoc. split; [done|].
    rewrite bind_cons. by apply Forall2_app.
Qed.

(** X12: when the listing is answered by a chain of pages, all but the last
    truncated, [ListVolumes] returns one name per object listed, in the
    order of the listing: the key without its prefix, cut at the first
    slash.  No name contains a slash, and a volume holding several objects
    is named once for each. *)
Theorem ListVolumes_names L pages turns :
  answered_by L None pages ->
  (length pages <= turns)%nat ->
  Forall (fun k => (8 <= String.length k)%nat) (pages ≫= Contents) ->
  exists vs,
    ListVolumes L turns = Some (Volumes vs) /\
    Forall2 (fun k v => volume_of k = Some v) (pages ≫= Contents) vs /\
    length vs = length (pages ≫= Contents) /\
    Forall (fun v => String.index 0 "/" v = None) vs.
Proof.
  intros Hans Hturns Hlong.
  destruct (ListVolumes_loop_spec L pages None [] turns Hans Hturns Hlong)
    as (vs & Hl & HF).
  exists vs. split; [exact Hl|]. split; [done|]. split.
  - symmetry. by eapply Forall2_length.
  - apply Forall_forall. intros v Hv.
    apply list_elem_of_lookup in Hv as [i Hi].
    destruct (Forall2_lookup_r _ _ _ _ _ HF Hi) as (k & _ & Hk).
    by eapply volume_of_no_slash.
Qed.

Lemma ListVolumes_names_witness :
  answered_by Sample3.listing None Sample3.pages /\
  (length Sample3.pages <= 5)%nat /\
  Forall (fun k => (8 <= String.length k)%nat) (Sample3.pages ≫= Contents) /\
  exists vs,
    ListVolumes Sample3.listing 5 = Some (Volumes vs) /\
    Forall2 (fun k v => volume_of k = Some v) (Sample3.pages ≫= Contents) vs /\
    length vs = length (Sample3.pages ≫= Contents) /\
    Forall (fun v => String.index 0 "/" v = None) vs.
Proof.
  assert (answered_by Sample3.listing None Sample3.pages) as Hans.
  { simpl. repeat split; discriminate. }
  assert (Forall (fun k => (8 <= String.length k)%nat) (Sample3.pages ≫= Contents)) as Hlong.
  { repeat constructor. }
  split; [exact Hans|]. split; [simpl; lia|]. split; [exact Hlong|].
  apply (ListVolumes_names Sample3.listing Sample3.pages 5 Hans); [simpl; lia|exact Hlong].
Defined.

(** The sample listing: volume [a] has two objects and is named twice. *)
Example ListVolumes_sample :
  ListVolumes Sample3.listing 5 = Some (Volumes ["a"; "a"; "b"]%string).
Proof. reflexivity. Qed.
End S3OpsFacts.

(** ** The read requests of [ReadExtent] *)

Module ReadPlanFacts.
Import Disk ReadRequests ReadPlan.

Lemma omap_seq_lookup (rs : list readRequest.t) : forall n,
  (n <= length rs)%nat ->
  omap (fun p => r ← rs !! p; Some (readRequest.pe r, readRequest.extents r)) (seq 0 n)
  = as_pair <$> take n rs.
Proof.
  induction n as [|n IH]; intros Hn; [done|].
  rewrite seq_S, omap_app, IH by lia. simpl.
  destruct (lookup_lt_is_Some_2 rs n ltac:(lia)) as [r Hr].
  rewrite Hr. simpl. rewrite (take_S_r _ _ _ Hr), fmap_app. done.
Qed.

Lemma served_allocated R :
  allocated R -> served R = as_pair <$> store R.
Proof.
  intros [Hreqs _]. unfold served. rewrite Hreqs, omap_seq_lookup by lia.
  by rewrite firstn_all.
Qed.

Lemma reads_of_app rs1 rs2 : reads_of (rs1 ++ rs2) = reads_of rs1 ++ reads_of rs2.
Proof. unfold reads_of. by rewrite bind_app. Qed.

Lemma grouped_snoc rs r :
  grouped rs ->
  readRequest.extents r <> [] -> PartialExtent.Size (readRequest.pe r) <> 0 ->
  (forall l, list.last rs = Some l -> readRequest.pe l <> readRequest.pe r) ->
  grouped (rs ++ [r]).
Proof.
  intros [HF Hadj] Hne Hsz Hlast. split.
  - apply Forall_app. split; [done|]. by apply Forall_singleton.
  - intros i a b Ha Hb.
    assert (S i < length (rs ++ [r]))%nat as Hlt by (by eapply lookup_lt_Some).
    rewrite length_app in Hlt. simpl in Hlt.
    rewrite lookup_app_l in Ha by lia.
    destruct (decide (S i = length rs)) as [Heq|Hneq].
    + rewrite lookup_app_r in Hb by lia. rewrite Heq, Nat.sub_diag in Hb.
      injection Hb as <-. apply Hlast. rewrite last_lookup.
      replace (Nat.pred (length rs)) with i by lia. done.
    + rewrite lookup_app_l in Hb by lia. by eapply Hadj.
Qed.

(** One step of the inner loop. *)
Lemma add_step h R pe :
  allocated R -> grouped (store R) ->
  allocated (add h R pe) /\ grouped (store (add h R pe)) /\
  reads_of (as_pair <$> store (add h R pe))
  = reads_of (as_pair <$> store R) ++
    (if PartialExtent.Size pe =? 0 then [] else [(pe, h)]).
Proof.
  intros [Hreqs Hlast] Hg. unfold add.
  destruct (Z.eqb_spec (PartialExtent.Size pe) 0) as [Hz|Hz].
  { by rewrite app_nil_r. }
  assert (let fresh := mkRequests (store R ++ [readRequest.mk pe [h]])
                         (reqs R ++ [length (store R)]) (Some (length (store R))) in
          (forall l, list.last (store R) = Some l -> readRequest.pe l <> pe) ->
          allocated fresh /\ grouped (store fresh) /\
          reads_of (as_pair <$> store fresh)
          = reads_of (as_pair <$> store R) ++ [(pe, h)]) as Hfresh.
  { intros fresh Hl. split; [|split].
    - split; simpl.
      + rewrite length_app. simpl. by rewrite Nat.add_1_r, seq_S, Hreqs.
      + rewrite length_app. simpl. lia.
    - simpl. by apply grouped_snoc.
    - simpl. by rewrite fmap_app, reads_of_app. }
  destruct (last R) as [p|] eqn:Hp.
  2:{ apply Hfresh. rewrite Hlast. done. }
  destruct (store R !! p) as [l|] eqn:Hl.
  2:{ apply lookup_ge_None in Hl. lia. }
  assert (list.last (store R) = Some l) as Hll.
  { rewrite last_lookup. replace (Nat.pred (length (store R))) with p by lia. done. }
  destruct (decide (readRequest.pe l = pe)) as [Heq|Hneq].
  2:{ apply Hfresh. intros l' Hl'. congruence. }
  clear Hfresh.
  apply last_Some in Hll as [l0 Hst]. rewrite Hst in *.
  rewrite length_app in Hlast. simpl in Hlast.
  assert (p = length l0) as -> by lia.
  replace (<[length l0 := readRequest.mk (readRequest.pe l) (readRequest.extents l ++ [h])]>
             (l0 ++ [l]))
    with (l0 ++ [readRequest.mk (readRequest.pe l) (readRequest.extents l ++ [h])]).
  2:{ rewrite insert_app_r_alt by lia. by rewrite Nat.sub_diag. }
  simpl. split; [|split].
  - split; simpl.
    + rewrite Hreqs, !length_app. done.
    + rewrite length_app. simpl. lia.
  - destruct Hg as [HF Hadj]. apply Forall_app in HF as [HF0 HFl].
    apply Forall_singleton in HFl as [_ Hsz].
    apply grouped_snoc; simpl.
    + split; [done|]. intros i a b Ha Hb. apply (Hadj i a b).
      * apply lookup_app_l_Some. done.
      * apply lookup_app_l_Some. done.
    + by destruct (readRequest.extents l).
    + done.
    + intros l' Hl'. apply last_Some in Hl' as [l0' ->].
      apply (Hadj (length l0') l' l).
      * rewrite <- app_assoc. rewrite lookup_app_r by lia. by rewrite Nat.sub_diag.
      * rewrite lookup_app_r by (rewrite length_app; simpl; lia).
        rewrite length_app. simpl. by replace (S (length l0') - (length l0' + 1))%nat with 0%nat by lia.
  - rewrite !fmap_app, !reads_of_app. simpl. unfold reads_of. simpl.
    rewrite !app_nil_r, fmap_app, <- app_assoc. simpl. by rewrite Heq.
Qed.

(** The inner loop over the partial extents of one hole. *)
Lemma foldl_add_step h pes : forall R,
  allocated R -> grouped (store R) ->
  allocated (foldl (add h) R pes) /\ grouped (store (foldl (add h) R pes)) /\
  reads_of (as_pair <$> store (foldl (add h) R pes))
  = reads_of (as_pair <$> store R) ++
    ((fun pe => (pe, h)) <$> filter (fun pe => PartialExtent.Size pe <> 0) pes).
Proof.
  induction pes as [|pe pes IH]; intros R Ha Hg.
  { simpl. by rewrite app_nil_r. }
  simpl. destruct (add_step h R pe Ha Hg) as (Ha' & Hg' & Hr').
  destruct (IH _ Ha' Hg') as (Ha'' & Hg'' & Hr'').
  split; [done|]. split; [done|]. rewrite Hr'', Hr', <- app_assoc. f_equal.
  rewrite filter_cons.
  destruct (Z.eqb_spec (PartialExtent.Size pe) 0) as [Hz|Hz];
    destruct (decide (PartialExtent.Size pe <> 0)); done.
Qed.

Lemma ReadExtent_requests_step Resolve remaining : forall R R',
  ReadExtent_requests Resolve remaining R = inr R' ->
  allocated R -> grouped (store R) ->
  allocated R' /\ grouped (store R') /\
  reads_of (as_pair <$> store R')
  = reads_of (as_pair <$> store R) ++ wanted Resolve remaining.
Proof.
  induction remaining as [|h remaining IH]; intros R R' Hrun Ha Hg.
  { injection Hrun as <-. unfold wanted. simpl. by rewrite app_nil_r. }
  simpl in Hrun. destruct (Resolve h) as [e|pes] eqn:Hres; [done|].
  destruct (foldl_add_step h pes R Ha Hg) as (Ha' & Hg' & Hr').
  destruct (IH _ _ Hrun Ha' Hg') as (Ha'' & Hg'' & Hr'').
  split; [done|]. split; [done|]. rewrite Hr'', Hr', <- app_assoc. f_equal.
  unfold wanted. rewrite bind_cons, Hres. done.
Qed.

Lemma no_requests_allocated : allocated no_requests /\ grouped (store no_requests).
Proof. repeat split; simpl; done. Qed.

(** X13: the requests built by [ReadExtent] stand for exactly the reads
    asked for: flattened, they give every hole with every partial extent
    resolved for it that has a size other than zero, once each and in the
    order of the two loops.  Updating a request through [last] updates the
    one in [reqs]: every pointer of [reqs] names an allocated request. *)
Theorem ReadExtent_requests_cover Resolve remaining R :
  ReadExtent_requests Resolve remaining no_requests = inr R ->
  reads_of (served R) = wanted Resolve remaining /\
  length (served R) = length (reqs R) /\
  served R = as_pair <$> store R.
Proof.
  intros Hrun.
  destruct no_requests_allocated as [Ha Hg].
  destruct (ReadExtent_requests_step _ _ _ _ Hrun Ha Hg) as (Ha' & _ & Hr).
  rewrite (served_allocated _ Ha'). split; [done|]. split; [|done].
  destruct Ha' as [-> _]. by rewrite length_fmap, length_seq.
Qed.

Lemma ReadExtent_requests_cover_witness :
  ReadExtent_requests Sample4.Resolve Sample4.remaining no_requests
  = inr (mkRequests
           [readRequest.mk Sample4.pe1 Sample4.remaining;
            readRequest.mk Sample4.pe2 [Extent.mk 3 6]] [0; 1]%nat (Some 1%nat)) /\
  reads_of [(Sample4.pe1, Sample4.remaining); (Sample4.pe2, [Extent.mk 3 6])]
  = wanted Sample4.Resolve Sample4.remaining.
Proof.
  split; [reflexivity|].
  apply (ReadExtent_requests_cover Sample4.Resolve Sample4.remaining
           (mkRequests
              [readRequest.mk Sample4.pe1 Sample4.remaining;
               readRequest.mk Sample4.pe2 [Extent.mk 3 6]] [0; 1]%nat (Some 1%nat))
           eq_refl).
Defined.

(** X14: the requests are maximal runs: no request is without a hole, none
    is for a partial extent of size zero, and two requests in a row are
    never for the same partial extent, so that holes served by the same
    partial extent one after the other cost one read. *)
Theorem ReadExtent_requests_grouped Resolve remaining R :
  ReadExtent_requests Resolve remaining no_requests = inr R ->
  Forall (fun r : PartialExtent.t * list Extent.t =>
            r.2 <> [] /\ PartialExtent.Size r.1 <> 0) (served R) /\
  forall i a b, served R !! i = Some a -> served R !! S i = Some b -> a.1 <> b.1.
Proof.
  intros Hrun.
  destruct no_requests_allocated as [Ha Hg].
  destruct (ReadExtent_requests_step _ _ _ _ Hrun Ha Hg) as (Ha' & [HF Hadj] & _).
  rewrite (served_allocated _ Ha'). split.
  - apply Forall_fmap. eapply Forall_impl; [exact HF|]. by intros r [H1 H2].
  - intros i a b Hia Hib. rewrite list_lookup_fmap in Hia, Hib.
    destruct (store R !! i) as [ra|] eqn:Hra; [|done].
    destruct (store R !! S i) as [rb|] eqn:Hrb; [|done].
    injection Hia as <-. injection Hib as <-. simpl. by eapply Hadj.
Qed.

Lemma ReadExtent_requests_grouped_witness :
  served (mkRequests
            [readRequest.mk Sample4.pe1 Sample4.remaining;
             readRequest.mk Sample4.pe2 [Extent.mk 3 6]] [0; 1]%nat (Some 1%nat))
  = [(Sample4.pe1, Sample4.remaining); (Sample4.pe2, [Extent.mk 3 6])] /\
  Forall (fun r : PartialExtent.t * list Extent.t =>
            r.2 <> [] /\ PartialExtent.Size r.1 <> 0)
    [(Sample4.pe1, Sample4.remaining); (Sample4.pe2, [Extent.mk 3 6])].
Proof.
  split; [reflexivity|].
  apply (ReadExtent_requests_grouped Sample4.Resolve Sample4.remaining
           (mkRequests
              [readRequest.mk Sample4.pe1 Sample4.remaining;
               readRequest.mk Sample4.pe2 [Extent.mk 3 6]] [0; 1]%nat (Some 1%nat))
           eq_refl).
Defined.

(** X15: the loop returns an error exactly when [Resolve] fails for a hole:
    it is the error of the first hole for which it fails, whatever was
    resolved before. *)
Theorem ReadExtent_requests_error Resolve remaining R e :
  ReadExtent_requests Resolve remaining R = inl e <->
  exists pre h post,
    remaining = pre ++ h :: post /\
    Forall (fun x => exists pes, Resolve x = inr pes) pre /\
    Resolve h = inl e.
Proof.
  revert R. induction remaining as [|h remaining IH]; intros R; simpl.
  - split; [done|]. intros (pre & h & post & Heq & _). by destruct pre.
  - destruct (Resolve h) as [e'|pes] eqn:Hres.
    + split.
      * intros [= ->]. exists [], h, remaining. by repeat split.
      * intros (pre & h' & post & Heq & Hpre & Hh).
        destruct pre as [|x pre]; simpl in Heq; injection Heq as <- _.
        -- congruence.
        -- apply Forall_cons in Hpre as [[pes Hx] _]. congruence.
    + rewrite IH. split.
      * intros (pre & h' & post & -> & Hpre & Hh).
        exists (h :: pre), h', post. split; [done|]. split; [|done].
        apply Forall_cons. split; [by exists pes|done].
      * intros (pre & h' & post & Heq & Hpre & Hh).
        destruct pre as [|x pre]; simpl in Heq; injection Heq as <- Hrest.
        -- congruence.
        -- apply Forall_cons in Hpre as [_ Hpre]. by exists pre, h', post.
Qed.
End ReadPlanFacts.

(** ** The write path *)

Module DiskWriteFacts.
Import CloseSegment DiskWrite.
#[local] Arguments curSeq {_ _ _} _.
#[local] Arguments curOC {_ _ _} _.
#[local] Arguments prevCache {_ _ _} _.
#[local] Arguments lba2pba {_ _ _} _.
#[local] Arguments s {_ _ _} _.
#[local] Arguments afterNS {_ _ _} _.

Section Write.
Variables SegmentCreator ExtentMap Segments : Type.
Variable oc_WriteExtent : Disk.RangeData.t -> SegmentCreator -> option error * SegmentCreator.
Variable BodySize : SegmentCreator -> Z.

(** A loop that ends without an error has made every write, in order. *)
Lemma write_each_all ranges : forall oc oc',
  write_each oc_WriteExtent ranges oc = (None, oc') ->
  oc' = foldl (fun o data => (oc_WriteExtent data o).2) oc ranges /\
  forall pre data post, ranges = pre ++ data :: post ->
    (oc_WriteExtent data (foldl (fun o data => (oc_WriteExtent data o).2) oc pre)).1 = None.
Proof.
  induction ranges as [|data ranges IH]; intros oc oc' Hrun; simpl in *.
  - injection Hrun as <-. split; [done|]. intros pre data post Heq. by destruct pre.
  - destruct (oc_WriteExtent data oc) as [[e|] oc1] eqn:Hw; [done|].
    destruct (IH _ _ Hrun) as [-> Hall]. simpl. split; [done|].
    intros pre data' post Heq. destruct pre as [|x pre]; simpl in Heq.
    + injection Heq as <- _. simpl. by rewrite Hw.
    + injection Heq as <- Heq. simpl. rewrite Hw. simpl. by eapply Hall.
Qed.

Lemma seal_when_full_cases nsc (d : Disk SegmentCreator ExtentMap Segments) oc err d' task :
  curOC d = Some oc ->
  seal_when_full BodySize nsc d = Wrote err d' task ->
  (BodySize oc < FlushThreshHold /\ err = None /\ d' = d /\ task = None) \/
  (FlushThreshHold <= BodySize oc /\
   exists ch, closeSegmentAsync nsc d = ((ch, err), d', task)).
Proof.
  intros Hoc. unfold seal_when_full. rewrite Hoc.
  destruct (Z.leb_spec FlushThreshHold (BodySize oc)) as [Hge|Hlt].
  - destruct (closeSegmentAsync nsc d) as [[[ch err'] d1] task'] eqn:Hc.
    intros [= -> -> ->]. right. split; [done|]. by exists ch.
  - intros [= <- <- <-]. left. done.
Qed.

(** X16: the ranges of one [WriteExtents] end up in one segment.  When the
    call returns nil, every range was written, in order, to the creator
    that was current at the call, with no seal in between; afterwards that
    creator is either still the current one, its body below the threshold,
    or it is the previous cache and its flush was started under the
    sequence number that was current, with a fresh creator in its place. *)
Theorem WriteExtents_one_segment nsc ranges (d : Disk SegmentCreator ExtentMap Segments)
    oc d' task :
  curOC d = Some oc ->
  WriteExtents oc_WriteExtent BodySize nsc ranges d = Wrote None d' task ->
  let oc' := foldl (fun o data => (oc_WriteExtent data o).2) oc ranges in
  (forall pre data post, ranges = pre ++ data :: post ->
     (oc_WriteExtent data (foldl (fun o data => (oc_WriteExtent data o).2) oc pre)).1 = None) /\
  lba2pba d' = lba2pba d /\ s d' = s d /\
  ((BodySize oc' < FlushThreshHold /\ curOC d' = Some oc' /\ curSeq d' = curSeq d /\
    prevCache d' = prevCache d /\ task = None) \/
   (FlushThreshHold <= BodySize oc' /\ prevCache d' = Some oc' /\ task = Some (curSeq d) /\
    exists seq sc, nsc = Created seq sc /\ curOC d' = Some sc /\ curSeq d' = seq)).
Proof.
  intros Hoc Hrun oc'. unfold WriteExtents in Hrun. rewrite Hoc in Hrun.
  destruct (write_each oc_WriteExtent ranges oc) as [[e|] oc1] eqn:Hw; [done|].
  destruct (write_each_all _ _ _ Hw) as [Hoc1 Hall]. fold oc' in Hoc1. subst oc1.
  split; [exact Hall|].
  apply (seal_when_full_cases _ _ oc') in Hrun; [|done].
  destruct Hrun as [(Hlt & _ & -> & ->)|(Hge & ch & Hc)].
  - split; [done|]. split; [done|]. left. done.
  - unfold closeSegmentAsync in Hc. simpl in Hc.
    destruct nsc as [e|seq e|seq sc]; try done.
    injection Hc as <- <- <-. simpl. split; [done|]. split; [done|]. right.
    split; [done|]. split; [done|]. split; [done|]. by exists seq, sc.
Qed.

(** An error after the creator has taken the data comes from sealing, and
    only when no new segment creator could be made. *)
Lemma seal_error_only_without_creator nsc data (d : Disk SegmentCreator ExtentMap Segments)
    oc oc' e d' task :
  curOC d = Some oc ->
  oc_WriteExtent data oc = (None, oc') ->
  WriteExtent oc_WriteExtent BodySize nsc data d = Wrote (Some e) d' task ->
  FlushThreshHold <= BodySize oc' /\
  (nsc = SeqFails e \/ exists seq, nsc = CreatorFails seq e).
Proof.
  intros Hoc Hw Hrun. unfold WriteExtent in Hrun. rewrite Hoc, Hw in Hrun.
  apply (seal_when_full_cases _ _ oc') in Hrun; [|done].
  destruct Hrun as [(_ & [=] & _)|(Hge & ch & Hc)].
  split; [done|]. unfold closeSegmentAsync in Hc. simpl in Hc.
  destruct nsc as [e'|seq e'|seq sc]; try done; injection Hc as _ <- <- <-.
  - by left.
  - right. by exists seq.
Qed.

(** X17: a write can be accepted and lost.  When the creator takes the
    data, the body has reached the threshold and no new segment creator can
    be made, [WriteExtent] returns the error of [newSegmentCreator], no
    flush is started, and the disk is left without a current creator while
    the previous cache, the map and the registry are as they were: the
    creator that holds the data is not reachable from the disk any more,
    and the next write is a call on the nil creator. *)
Theorem WriteExtent_failed_seal nsc data (d : Disk SegmentCreator ExtentMap Segments)
    oc oc' e :
  curOC d = Some oc ->
  oc_WriteExtent data oc = (None, oc') ->
  FlushThreshHold <= BodySize oc' ->
  (nsc = SeqFails e \/ exists seq, nsc = CreatorFails seq e) ->
  exists d',
    WriteExtent oc_WriteExtent BodySize nsc data d = Wrote (Some e) d' None /\
    curOC d' = None /\ prevCache d' = prevCache d /\
    lba2pba d' = lba2pba d /\ s d' = s d /\
    (forall nsc' data', WriteExtent oc_WriteExtent BodySize nsc' data' d' = NilCreator) /\
    (forall nsc' ranges, WriteExtents oc_WriteExtent BodySize nsc' ranges d' = NilCreator).
Proof.
  intros Hoc Hw Hge Hnsc.
  assert (exists d',
            closeSegmentAsync nsc
              (mkDisk (curSeq d) (Some oc') (prevCache d) (lba2pba d) (s d) (afterNS d))
            = ((false, Some e), d', None) /\
            curOC d' = None /\ prevCache d' = prevCache d /\
            lba2pba d' = lba2pba d /\ s d' = s d) as (d' & Hc & Hnil & Hprev & Hm & Hs).
  { destruct Hnsc as [->|[seq ->]]; eexists; (split; [reflexivity|]); done. }
  exists d'. split.
  - unfold WriteExtent. rewrite Hoc, Hw. unfold seal_when_full. simpl.
    destruct (Z.leb_spec FlushThreshHold (BodySize oc')) as [_|Hlt]; [|lia].
    by rewrite Hc.
  - repeat split; try done.
    + intros nsc' data'. unfold WriteExtent. by rewrite Hnil.
    + intros nsc' ranges. unfold WriteExtents. by rewrite Hnil.
Qed.
End Write.

Lemma WriteExtents_one_segment_witness :
  curOC Sample5.disk = Some (FlushThreshHold - 8) /\
  WriteExtents Sample5.oc_WriteExtent Sample5.BodySize (Created Sample.seg2 0)
    [Sample5.range 4; Sample5.range 4; Sample5.range 4] Sample5.disk
  = Wrote None (mkDisk Sample.seg2 (Some 0) (Some (FlushThreshHold + 4)) [] [] None)
      (Some Sample.seg1) /\
  prevCache (mkDisk Sample.seg2 (Some 0) (Some (FlushThreshHold + 4))
               ([] : list nat) ([] : list SegmentId) None)
  = Some (foldl (fun o data => (Sample5.oc_WriteExtent data o).2) (FlushThreshHold - 8)
            [Sample5.range 4; Sample5.range 4; Sample5.range 4]).
Proof.
  split; [reflexivity|]. split; [reflexivity|].
  destruct (WriteExtents_one_segment Z (list nat) (list SegmentId)
              Sample5.oc_WriteExtent Sample5.BodySize (Created Sample.seg2 0)
              [Sample5.range 4; Sample5.range 4; Sample5.range 4] Sample5.disk
              (FlushThreshHold - 8)
              (mkDisk Sample.seg2 (Some 0) (Some (FlushThreshHold + 4)) [] [] None)
              (Some Sample.seg1) eq_refl eq_refl)
    as (_ & _ & _ & [(Hlt & _)|(_ & Hprev & _)]).
  - vm_compute in Hlt. discriminate Hlt.
  - exact Hprev.
Defined.

Lemma WriteExtent_failed_seal_witness :
  curOC Sample5.disk = Some (FlushThreshHold - 8) /\
  Sample5.oc_WriteExtent (Sample5.range 8) (FlushThreshHold - 8) = (None, FlushThreshHold) /\
  FlushThreshHold <= Sample5.BodySize FlushThreshHold /\
  exists d',
    WriteExtent Sample5.oc_WriteExtent Sample5.BodySize
      (CreatorFails Sample.seg2 (ErrExternal 3)) (Sample5.range 8) Sample5.disk
    = Wrote (Some (ErrExternal 3)) d' None /\
    curOC d' = None /\ prevCache d' = prevCache Sample5.disk /\
    lba2pba d' = lba2pba Sample5.disk /\ s d' = s Sample5.disk /\
    (forall nsc' data',
       WriteExtent Sample5.oc_WriteExtent Sample5.BodySize nsc' data' d' = NilCreator) /\
    (forall nsc' ranges,
       WriteExtents Sample5.oc_WriteExtent Sample5.BodySize nsc' ranges d' = NilCreator).
Proof.
  split; [reflexivity|]. split; [reflexivity|].
  assert (FlushThreshHold <= Sample5.BodySize FlushThreshHold) as Hge
    by (unfold Sample5.BodySize; lia).
  split; [exact Hge|].
  apply (WriteExtent_failed_seal Z (list nat) (list SegmentId)
           Sample5.oc_WriteExtent Sample5.BodySize (CreatorFails Sample.seg2 (ErrExternal 3))
           (Sample5.range 8) Sample5.disk (FlushThreshHold - 8) FlushThreshHold
           (ErrExternal 3) eq_refl eq_refl Hge).
  right. by exists Sample.seg2.
Defined.

(** Written one by one, the same ranges are split over two segments. *)
Example WriteExtent_splits :
  WriteExtent Sample5.oc_WriteExtent Sample5.BodySize (Created Sample.seg2 0)
    (Sample5.range 8) Sample5.disk
  = Wrote None (mkDisk Sample.seg2 (Some 0) (Some FlushThreshHold) [] [] None)
      (Some Sample.seg1) /\
  WriteExtent Sample5.oc_WriteExtent Sample5.BodySize (Created Sample.seg2 0)
    (Sample5.range 4)
    (mkDisk Sample.seg2 (Some 0) (Some FlushThreshHold) ([] : list nat)
       ([] : list SegmentId) None)
  = Wrote None (mkDisk Sample.seg2 (Some 4) (Some FlushThreshHold) [] [] None) None.
Proof. split; reflexivity. Qed.
End DiskWriteFacts.

(** ** [CloseSegment] and [Close] *)

Module ClosingFacts.
Import CloseSegment Closing.
#[local] Arguments curSeq {_ _ _} _.
#[local] Arguments curOC {_ _ _} _.
#[local] Arguments prevCache {_ _ _} _.
#[local] Arguments lba2pba {_ _ _} _.
#[local] Arguments s {_ _ _} _.
#[local] Arguments afterNS {_ _ _} _.

Section Close.
Variables SegmentCreator ExtentLocation SegmentStats ExtentMap Segments : Type.
Variable Segments_Create : SegmentId -> SegmentStats -> Segments -> Segments.
Variable UpdateBatch :
  list ExtentLocation -> SegmentId -> ExtentMap -> Segments -> ExtentMap * Segments.

Lemma flush_task_finished seg answers cleanup (d : Disk SegmentCreator ExtentMap Segments)
    tr d' :
  flush_task Segments_Create UpdateBatch seg answers cleanup d = (tr, d', true) ->
  exists errs ok rest,
    answers = (inl <$> errs) ++ inr ok :: rest /\
    tr = (errs ≫= retry seg) ++ [TFlush seg (inr ok)]
           ++ (install Segments_Create UpdateBatch seg ok cleanup d).1 /\
    d' = (install Segments_Create UpdateBatch seg ok cleanup d).2.
Proof.
  intros Hrun.
  destruct (CloseSegmentFacts.answers_split _ _ answers)
    as [(errs & ->)|(errs & ok & rest & ->)].
  - unfold flush_task in Hrun.
    rewrite <- (app_nil_r (inl <$> errs)), CloseSegmentFacts.flush_retry_errors in Hrun.
    simpl in Hrun. done.
  - exists errs, ok, rest. split; [done|].
    unfold flush_task in Hrun. rewrite CloseSegmentFacts.flush_retry_errors in Hrun.
    simpl in Hrun. destruct (install _ _ seg ok cleanup d) as [tr' d1]. simpl.
    injection Hrun as <- <-. by rewrite <- app_assoc.
Qed.

(** X18: [Close] returns nil only when all of it was done: a new segment
    creator was made, a [Flush] of the segment that was open succeeded,
    after as many failures as it took, the segment was registered and its
    entries put into the map, the previous cache was cleared, and after
    that the map was saved, the open readers purged and the extent cache
    closed.  The disk is left with the new creator as current one. *)
Theorem Close_nil_after_install nsc answers cleanup c saveLBAMap
    (d : Disk SegmentCreator ExtentMap Segments) evs tr d' fin :
  Close Segments_Create UpdateBatch nsc answers cleanup c saveLBAMap d
  = (CloseReturns None, evs, (tr, d', fin)) ->
  exists seq sc errs ok rest,
    nsc = Created seq sc /\
    answers = (inl <$> errs) ++ inr ok :: rest /\
    saveLBAMap = None /\ fin = true /\
    evs = [CSaveLBAMap; CPurge; CExtentCacheClose] /\
    curSeq d' = seq /\ curOC d' = Some sc /\ prevCache d' = None /\
    (lba2pba d', s d')
    = UpdateBatch ok.1 (curSeq d) (lba2pba d) (Segments_Create (curSeq d) ok.2 (s d)) /\
    tr = (errs ≫= retry (curSeq d))
           ++ [TFlush (curSeq d) (inr ok); TCreate (curSeq d) ok.2;
               TUpdateBatch ok.1 (curSeq d); TClearPrev]
           ++ (if afterNS d is Some f then [TAfterNS f (curSeq d)] else [])
           ++ [TCleanup cleanup; TCloseDone].
Proof.
  unfold Close, CloseSegment, seal_and_flush, closeSegmentAsync.
  destruct nsc as [e|seq e|seq sc]; simpl; try done.
  set (d1 := mkDisk seq (Some sc) (curOC d) (lba2pba d) (s d) (afterNS d)).
  destruct (flush_task Segments_Create UpdateBatch (curSeq d) answers cleanup d1)
    as [[tr1 d2] fin1] eqn:Htask. simpl.
  destruct fin1.
  2:{ destruct (ctx_Err c); done. }
  intros Hrun.
  assert (saveLBAMap = None /\ evs = [CSaveLBAMap; CPurge; CExtentCacheClose] /\
          tr = tr1 /\ d' = d2 /\ fin = true) as (-> & -> & -> & -> & ->).
  { destruct (ctx_Err c) as [e|]; [destruct (ctx_picked c); [done|]|];
      destruct saveLBAMap; try done; by injection Hrun as <- <- <- <-. }
  clear Hrun.
  apply flush_task_finished in Htask as (errs & ok & rest & -> & -> & ->).
  exists seq, sc, errs, ok, rest. destruct ok as [entries stats].
  unfold install. simpl.
  destruct (UpdateBatch entries (curSeq d) (lba2pba d) (Segments_Create (curSeq d) stats (s d)))
    as [m2 s2] eqn:Hup. simpl.
  repeat split; try done.
Qed.

(** X19: as long as [Flush] fails and the context does not end, [Close]
    does not return: after any number of failed attempts nothing is saved,
    purged or closed, the creator being flushed is held as the previous
    cache, and the map is as it was. *)
Theorem Close_waits_while_Flush_fails seq sc errs cleanup c saveLBAMap
    (d : Disk SegmentCreator ExtentMap Segments) :
  ctx_Err c = None ->
  Close Segments_Create UpdateBatch (Created seq sc) (inl <$> errs) cleanup c saveLBAMap d
  = (CloseBlocks, [],
     (errs ≫= retry (curSeq d),
      mkDisk seq (Some sc) (curOC d) (lba2pba d) (s d) (afterNS d), false)).
Proof.
  intros Hctx. unfold Close, CloseSegment, seal_and_flush, closeSegmentAsync. simpl.
  unfold flush_task.
  rewrite <- (app_nil_r (inl <$> errs)), CloseSegmentFacts.flush_retry_errors. simpl.
  rewrite app_nil_r, Hctx. done.
Qed.

(** X20: [Close] needs a new segment creator before it flushes the open
    one.  When none can be made, [Close] returns that error wrapped, and
    nothing else has happened: no [Flush] was tried, the map was not saved,
    the readers were not purged, the extent cache was not closed; the disk
    is left without a current creator. *)
Theorem Close_without_new_creator nsc e answers cleanup c saveLBAMap
    (d : Disk SegmentCreator ExtentMap Segments) :
  (nsc = SeqFails e \/ exists seq, nsc = CreatorFails seq e) ->
  exists d',
    Close Segments_Create UpdateBatch nsc answers cleanup c saveLBAMap d
    = (CloseReturns (Some (Wrapf e "error closing segment")), [], ([], d', false)) /\
    curOC d' = None /\ prevCache d' = prevCache d /\
    lba2pba d' = lba2pba d /\ s d' = s d.
Proof.
  intros [->|[seq ->]]; eexists; (split; [reflexivity|]); done.
Qed.
End Close.

Lemma Close_nil_after_install_witness :
  Close Sample.register Sample.update (Created Sample.seg1 7%nat) Sample.answers None
    (mkCtx None false) None Sample.disk0
  = (CloseReturns None, [CSaveLBAMap; CPurge; CExtentCacheClose],
     (retry Sample.seg2 (ErrExternal 1) ++ retry Sample.seg2 (ErrExternal 2)
        ++ [TFlush Sample.seg2 (inr ([5%nat], 9%nat)); TCreate Sample.seg2 9%nat;
            TUpdateBatch [5%nat] Sample.seg2; TClearPrev; TCleanup None; TCloseDone],
      mkDisk Sample.seg1 (Some 7%nat) None [5%nat] [Sample.seg2] None, true)) /\
  exists seq sc errs ok rest,
    Created Sample.seg1 7%nat = Created seq sc /\
    Sample.answers = (inl <$> errs) ++ inr ok :: rest.
Proof.
  split; [reflexivity|].
  destruct (Close_nil_after_install nat nat nat (list nat) (list SegmentId)
              Sample.register Sample.update (Created Sample.seg1 7%nat) Sample.answers None
              (mkCtx None false) None Sample.disk0 _ _ _ _ eq_refl)
    as (seq & sc & errs & ok & rest & H1 & H2 & _).
  by exists seq, sc, errs, ok, rest.
Defined.

Lemma Close_waits_while_Flush_fails_witness :
  ctx_Err (mkCtx None true) = None /\
  Close Sample.register Sample.update (Created Sample.seg1 7%nat)
    (inl <$> [ErrExternal 1; ErrExternal 2]) None (mkCtx None true) None Sample.disk0
  = (CloseBlocks, [],
     ([ErrExternal 1; ErrExternal 2] ≫= retry Sample.seg2,
      mkDisk Sample.seg1 (Some 7%nat) (Some 1%nat) [] [] None, false)).
Proof.
  split; [reflexivity|].
  apply (Close_waits_while_Flush_fails nat nat nat (list nat) (list SegmentId)
           Sample.register Sample.update Sample.seg1 7%nat [ErrExternal 1; ErrExternal 2]
           None (mkCtx None true) None Sample.disk0 eq_refl).
Defined.

Lemma Close_without_new_creator_witness :
  (CreatorFails (SegmentCreator := nat) Sample.seg1 (ErrExternal 4)
   = SeqFails (ErrExternal 4) \/
   exists seq, CreatorFails (SegmentCreator := nat) Sample.seg1 (ErrExternal 4)
               = CreatorFails seq (ErrExternal 4)) /\
  exists d',
    Close Sample.register Sample.update (CreatorFails Sample.seg1 (ErrExternal 4))
      Sample.answers None (mkCtx None false) None Sample.disk0
    = (CloseReturns (Some (Wrapf (ErrExternal 4) "error closing segment")), [],
       ([], d', false)) /\
    curOC d' = None /\ prevCache d' = prevCache Sample.disk0 /\
    lba2pba d' = lba2pba Sample.disk0 /\ s d' = s Sample.disk0.
Proof.
  assert (CreatorFails (SegmentCreator := nat) Sample.seg1 (ErrExternal 4)
          = SeqFails (ErrExternal 4) \/
          exists seq, CreatorFails (SegmentCreator := nat) Sample.seg1 (ErrExternal 4)
                      = CreatorFails seq (ErrExternal 4)) as H.
  { right. by exists Sample.seg1. }
  split; [exact H|].
  apply (Close_without_new_creator nat nat nat (list nat) (list SegmentId)
           Sample.register Sample.update (CreatorFails Sample.seg1 (ErrExternal 4))
           (ErrExternal 4) Sample.answers None (mkCtx None false) None Sample.disk0 H).
Defined.
End ClosingFacts.

(** ** What [NewDisk] asks of the segment access *)

Module NewDiskCalls.
Import NewDisk.

Ltac in_calls H :=
  repeat first
    [ apply elem_of_app in H as [H|H]
    | apply elem_of_cons in H as [H|H]; [try discriminate H|]
    | apply elem_of_nil in H; destruct H ].

Ltac is_called :=
  simpl; repeat first [ apply list_elem_of_here | apply list_elem_of_further ].

(** X21: whatever the collaborators answer, [NewDisk] initialises a volume
    only when it was reported absent and auto-creation is on, and then
    under the name it attaches to, with size zero.  It attaches under a
    name that is never empty; the size it attaches with is zero for a
    volume it has just initialised, and the size reported by
    [GetVolumeInfo] for a volume that exists, which is never initialised
    again.  A disk is returned only after attaching. *)
Theorem NewDisk_initialises_absent_volumes_only E path options :
  let o := apply_options options in
  let acc := access E path o in
  let nm := name o in
  let calls := (NewDisk E path options).2 in
  nm <> ""%string /\
  (forall vol, CallInitVolume vol ∈ calls ->
     vol = VolumeInfo.mk nm 0 /\ autoCreate o = true /\ absent (GetVolumeInfo acc nm)) /\
  (forall n sz, LogAttaching n sz ∈ calls ->
     n = nm /\
     ((sz = 0 /\ CallInitVolume (VolumeInfo.mk nm 0) ∈ calls /\
       InitVolume acc (VolumeInfo.mk nm 0) = None) \/
      (exists vi, GetVolumeInfo acc nm = (Some vi, None) /\
                  VolumeInfo.Name vi <> ""%string /\ sz = VolumeInfo.Size vi /\
                  forall vol, CallInitVolume vol ∉ calls))) /\
  (forall d, (NewDisk E path options).1 = Returns (inr d) ->
     exists sz, LogAttaching nm sz ∈ calls /\
                attach E (mkDisk path sz acc nm (seqGen o) (afterNS o)) = inr d).
Proof.
  intros o acc nm calls.
  assert (nm <> ""%string) as Hnm.
  { subst nm. unfold name. by destruct (decide (volName o = ""%string)). }
  split; [exact Hnm|].
  subst calls. unfold NewDisk. fold o. fold acc. fold nm.
  destruct (NewExtentCache E _) as [e|]; simpl.
  { split; [|split]; [intros vol H; in_calls H|intros n sz H; in_calls H|done]. }
  destruct (InitContainer acc) as [e|]; simpl.
  { split; [|split]; [intros vol H; in_calls H|intros n sz H; in_calls H|done]. }
  destruct (GetVolumeInfo acc nm) as [[vi|] [e|]] eqn:Hget; simpl.
  - (* an error, with a value *)
    destruct (autoCreate o) eqn:Hauto; simpl.
    + destruct (InitVolume acc (VolumeInfo.mk nm 0)) as [e'|] eqn:Hinit; simpl.
      * split; [|split]; [| intros n sz H; in_calls H | done].
        intros vol H. in_calls H. injection H as ->. repeat split; try done.
        left. done.
      * split; [|split].
        -- intros vol H. in_calls H. injection H as ->. repeat split; try done.
           left. done.
        -- intros n sz H. in_calls H. injection H as -> ->. split; [done|]. left.
           split; [done|]. split; [is_called|done].
        -- intros d Hd. exists 0. split; [is_called|congruence].
    + split; [|split]; [intros vol H; in_calls H|intros n sz H; in_calls H|done].
  - (* a volume is reported *)
    destruct (decide (VolumeInfo.Name vi = ""%string)) as [Hempty|Hname]; simpl.
    + destruct (autoCreate o) eqn:Hauto; simpl.
      * destruct (InitVolume acc (VolumeInfo.mk nm 0)) as [e'|] eqn:Hinit; simpl.
        -- split; [|split]; [| intros n sz H; in_calls H | done].
           intros vol H. in_calls H. injection H as ->. repeat split; try done.
           right. by exists vi.
        -- split; [|split].
           ++ intros vol H. in_calls H. injection H as ->. repeat split; try done.
              right. by exists vi.
           ++ intros n sz H. in_calls H. injection H as -> ->. split; [done|]. left.
              split; [done|]. split; [is_called|done].
           ++ intros d Hd. exists 0. split; [is_called|congruence].
      * split; [|split]; [intros vol H; in_calls H|intros n sz H; in_calls H|done].
    + split; [|split].
      * intros vol H. in_calls H.
      * intros n sz H. in_calls H. injection H as -> ->. split; [done|]. right.
        exists vi. repeat split; try done. intros vol H. in_calls H.
      * intros d Hd. exists (VolumeInfo.Size vi). split; [is_called|congruence].
  - (* an error, without a value *)
    destruct (autoCreate o) eqn:Hauto; simpl.
    + destruct (InitVolume acc (VolumeInfo.mk nm 0)) as [e'|] eqn:Hinit; simpl.
      * split; [|split]; [| intros n sz H; in_calls H | done].
        intros vol H. in_calls H. injection H as ->. repeat split; try done.
        left. done.
      * split; [|split].
        -- intros vol H. in_calls H. injection H as ->. repeat split; try done.
           left. done.
        -- intros n sz H. in_calls H. injection H as -> ->. split; [done|]. left.
           split; [done|]. split; [is_called|done].
        -- intros d Hd. exists 0. split; [is_called|congruence].
    + split; [|split]; [intros vol H; in_calls H|intros n sz H; in_calls H|done].
  - (* neither *)
    split; [|split]; [intros vol H; in_calls H|intros n sz H; in_calls H|done].
Qed.
End NewDiskCalls.

(** ** The segment file determines what was flushed *)

Module HeaderReadingFacts.
Import ObjectCreator Writer WriterFacts HeaderReading.

Lemma uvarint_split_PutUvarint_loop fuel : forall x rest,
  0 <= x < 2 ^ (7 * (Z.of_nat fuel + 1)) ->
  uvarint_split (PutUvarint_loop fuel x ++ rest) = (x, rest).
Proof.
  induction fuel as [|fuel IH]; intros x rest Hx.
  - simpl in *. change (2 ^ 7) with 128 in Hx.
    rewrite Z.mod_small by lia. destruct (Z.ltb_spec x 128); [done|lia].
  - cbn [PutUvarint_loop]. destruct (Z.leb_spec 128 x) as [Hge|Hlt].
    + rewrite <- app_comm_cons. cbn [uvarint_split].
      rewrite lor_continuation by (apply Z.mod_pos_bound; lia).
      assert (0 <= (x mod 256) mod 128 < 128) by (apply Z.mod_pos_bound; lia).
      destruct (Z.ltb_spec ((x mod 256) mod 128 + 128) 128); [lia|].
      rewrite IH.
      * f_equal. rewrite Z.shiftr_div_pow2 by lia. change (2 ^ 7) with 128.
        Z.div_mod_to_equations. lia.
      * rewrite Z.shiftr_div_pow2 by lia. split; [apply Z.div_pos; lia|].
        apply Z.div_lt_upper_bound; [lia|]. rewrite <- Z.pow_add_r by lia.
        replace (7 + 7 * (Z.of_nat fuel + 1)) with (7 * (Z.of_nat (S fuel) + 1)) by lia.
        lia.
    + simpl. rewrite Z.mod_small by lia. destruct (Z.ltb_spec x 128); [done|lia].
Qed.

Lemma uvarint_split_PutUvarint x rest :
  0 <= x < 2 ^ 64 -> uvarint_split (PutUvarint x ++ rest) = (x, rest).
Proof.
  intros Hx. unfold PutUvarint, uint64. rewrite Z.mod_small by lia.
  apply uvarint_split_PutUvarint_loop.
  change (2 ^ (7 * (Z.of_nat 9 + 1))) with (2 ^ 70). lia.
Qed.

(** A record is read back from the front of what follows it. *)
Lemma record_split_header_record blk rest :
  in_range blk -> record_split (header_record blk ++ rest) = (blk, rest).
Proof.
  intros (Hl & Hf & Hs & Ho). destruct blk as [lba flags size offset]. simpl in *.
  unfold record_split, header_record. cbn [ocBlock.lba ocBlock.flags ocBlock.size ocBlock.offset].
  rewrite <- !app_assoc, uvarint_split_PutUvarint by done. cbn [app].
  rewrite uvarint_split_PutUvarint by done.
  rewrite uvarint_split_PutUvarint by done. done.
Qed.

Lemma records_split_header_records bs : forall rest,
  Forall in_range bs ->
  records_split (length bs) (header_records bs ++ rest) = (bs, rest).
Proof.
  unfold header_records.
  induction bs as [|b bs IH]; intros rest Hbs; [done|].
  apply Forall_cons in Hbs as [Hb Hbs]. simpl.
  rewrite <- app_assoc, record_split_header_record by done.
  by rewrite IH.
Qed.

Lemma PutUvarint_nonempty x : (1 <= length (PutUvarint x))%nat.
Proof.
  unfold PutUvarint. generalize (uint64 x). intros y.
  change 9%nat with (S 8). cbn [PutUvarint_loop].
  destruct (128 <=? y); cbn [length]; lia.
Qed.

(** A record takes four bytes at least. *)
Lemma header_records_length bs : 4 * len bs <= len (header_records bs).
Proof.
  unfold header_records, len.
  induction bs as [|b bs IH]; [done|].
  rewrite fmap_cons.
  change (mjoin (header_record b :: (header_record <$> bs)))
    with (header_record b ++ mjoin (header_record <$> bs)).
  rewrite length_app. unfold header_record at 1. rewrite !length_app. cbn [length].
  change (length (b :: bs)) with (S (length bs)).
  pose proof (PutUvarint_nonempty (ocBlock.lba b)).
  pose proof (PutUvarint_nonempty (ocBlock.size b)).
  pose proof (PutUvarint_nonempty (ocBlock.offset b)). lia.
Qed.

Section WithLz4.
Variable lz4 : list Z -> nat -> error + list Z.

Lemma reachable_in_range o : reachable lz4 o -> Forall in_range (blocks o).
Proof.
  intros Hr. apply reachable_inv in Hr. destruct Hr as [_ _ Hb _ _ _ _ Hmax].
  eapply Forall_impl; [exact Hb|]. intros b (He & Hn & Hf & Hl).
  unfold in_range. split; [done|].
  assert (maxInt < 2 ^ 64) as Hmi by (unfold maxInt; lia).
  destruct (decide (ocBlock.flags b = Empty)) as [E|E].
  - destruct (He E) as [-> ->]. rewrite E. unfold Empty. lia.
  - destruct (Hn E) as (? & ? & ? & ?).
    unfold Uncompressed, Compressed, Empty in Hf. lia.
Qed.

(** X22: a segment file can be read back.  After a [Flush] that returns
    nil on a reachable creator whose header ends below 4 GiB, the count in
    the first four bytes is the number of blocks, the next four bytes give
    the start of the data, the header read as that many records gives
    back the recorded blocks, field by field and in order, and the bytes
    from the start of the data on are the body. *)
Theorem Flush_file_reads_back fs path seg w w' :
  reachable lz4 (oc w) ->
  Flush fs path seg w = (FlushReturns None, w') ->
  8 + len (header_records (blocks (oc w))) < 2 ^ 32 ->
  exists file,
    files w' !! path = Some file /\
    Uint32 (take 4 file) = len (blocks (oc w)) /\
    Uint32 (take 4 (drop 4 file)) = 8 + len (header_records (blocks (oc w))) /\
    read_segment file = (blocks (oc w), body (oc w)).
Proof.
  intros Hr Hf Hsmall. pose proof (reachable_in_range _ Hr) as Hrange.
  apply reachable_inv in Hr.
  apply FlushFacts.Flush_nil in Hf as [Hfile _].
  destruct Hr as [Hcnt _ _ _ Hh _ _ _]. rewrite Hh, Hcnt in Hfile. cbn [app] in Hfile.
  set (bs := blocks (oc w)) in *. set (hdr := header_records bs) in *.
  pose proof (header_records_length bs) as Hlen. fold hdr in Hlen.
  pose proof (len_nonneg bs) as Hbs.
  eexists. split; [exact Hfile|].
  assert (Uint32 (take 4 (PutUint32 (uint32 (len bs)) ++ PutUint32 (uint32 (len hdr + 8))
                            ++ hdr ++ body (oc w))) = len bs) as Hc.
  { rewrite (take_app_length' _ _ 4 (eq_sym (SegmentFileFacts.PutUint32_length _))).
    rewrite Uint32_PutUint32. unfold uint32. rewrite Z.mod_mod by lia.
    apply Z.mod_small. lia. }
  assert (Uint32 (take 4 (drop 4 (PutUint32 (uint32 (len bs))
                            ++ PutUint32 (uint32 (len hdr + 8)) ++ hdr ++ body (oc w))))
          = 8 + len hdr) as Hd.
  { rewrite (drop_app_length' _ _ 4 (eq_sym (SegmentFileFacts.PutUint32_length _))).
    rewrite (take_app_length' _ _ 4 (eq_sym (SegmentFileFacts.PutUint32_length _))).
    rewrite Uint32_PutUint32. unfold uint32. rewrite Z.mod_mod by lia.
    rewrite Z.mod_small; lia. }
  split; [exact Hc|]. split; [exact Hd|].
  unfold read_segment. rewrite Hc, Hd. f_equal.
  - replace (drop 8 (PutUint32 (uint32 (len bs)) ++ PutUint32 (uint32 (len hdr + 8))
                       ++ hdr ++ body (oc w))) with (hdr ++ body (oc w)).
    2:{ rewrite app_assoc. symmetry. apply drop_app_length'.
        rewrite length_app, !SegmentFileFacts.PutUint32_length. done. }
    rewrite take_app_length' by (unfold len; lia).
    unfold len. rewrite Nat2Z.id.
    rewrite <- (app_nil_r hdr). subst hdr.
    by rewrite records_split_header_records.
  - rewrite !app_assoc. apply drop_app_length'.
    rewrite !length_app, !SegmentFileFacts.PutUint32_length. unfold len. lia.
Qed.
End WithLz4.

Lemma Flush_file_reads_back_witness :
  reachable Sample.lz4 (oc Sample.world0) /\
  Flush os.reliable "seg" Sample.seg1 Sample.world0 = (FlushReturns None, Sample.flushed.2) /\
  8 + len (header_records (blocks (oc Sample.world0))) < 2 ^ 32 /\
  exists file,
    files Sample.flushed.2 !! "seg"%string = Some file /\
    Uint32 (take 4 file) = len (blocks (oc Sample.world0)) /\
    Uint32 (take 4 (drop 4 file)) = 8 + len (header_records (blocks (oc Sample.world0))) /\
    read_segment file = (blocks (oc Sample.world0), body (oc Sample.world0)).
Proof.
  split; [exact WriterRefinement.written_reachable|].
  split; [vm_compute; reflexivity|].
  split; [vm_compute; reflexivity|].
  apply (Flush_file_reads_back Sample.lz4 os.reliable "seg" Sample.seg1
           Sample.world0 Sample.flushed.2).
  - exact WriterRefinement.written_reachable.
  - vm_compute; reflexivity.
  - vm_compute; reflexivity.
Defined.
End HeaderReadingFacts.

(** ** What a read touches *)

Module ReadTraceFacts.
Import Disk ReadTrace.

Ltac in_log H :=
  repeat first
    [ apply elem_of_app in H as [H|H]
    | apply elem_of_cons in H as [H|H]; [try discriminate H|]
    | apply elem_of_nil in H; destruct H ].

Ltac log_cases Hin0 :=
  repeat split; intros;
  match goal with H : _ ∈ _ |- _ => in_log H end;
  try (match goal with H : _ ∈ _ |- _ => apply Hin0 in H end);
  simplify_eq; auto.

(** X23: what [readPartialExtent] touches to get the raw bytes.  On a hit
    in the extent cache nothing else is touched and the bytes are taken as
    the cache left them, an error of the cache being logged only.  A
    segment is opened only when it is not among the open ones, and it is
    added to them only when opening it succeeded; it is the segment of the
    partial extent, and it is read at the offset and with the size of the
    partial extent.  The extent cache is written only after a read that
    returned no error and the full size, with the bytes that are then
    used. *)
Theorem fetch_touches E pe :
  let seg := PartialExtent.Segment pe in
  let n := Z.to_nat (PartialExtent.Size pe) in
  let log := log_of (fetch E pe) in
  ((extentCache_ReadExtent E pe n).1.1 = true ->
     Forall (fun ev => ev = RLogError \/ ev = RCacheHit) log /\
     fetch E pe
     = Fetched (overwrite (replicate n 0) (extentCache_ReadExtent E pe n).2) log) /\
  (forall s, ROpenSegment s ∈ log ->
     s = seg /\ (extentCache_ReadExtent E pe n).1.1 = false /\
     openSegments_Get E seg = false) /\
  (forall s, RLruAdd s ∈ log -> s = seg /\ sa_OpenSegment E seg = None) /\
  (forall s off k, RReadAt s off k ∈ log ->
     s = seg /\ off = PartialExtent.Offset pe /\ k = n /\
     (openSegments_Get E seg = true \/ sa_OpenSegment E seg = None)) /\
  (forall pe' raw, RCacheWrite pe' raw ∈ log ->
     pe' = pe /\ fetch E pe = Fetched raw log /\ length raw = n /\
     exists stored, ci_ReadAt E seg (PartialExtent.Offset pe) n = (len raw, None, stored)).
Proof.
  intros seg n log. subst log. unfold fetch, buffers_Get. fold seg. fold n.
  rewrite length_replicate.
  destruct (extentCache_ReadExtent E pe n) as [[found err] st] eqn:Hc. simpl.
  set (l0 := if err is Some _ then [RLogError] else []).
  assert (Forall (fun ev => ev = RLogError \/ ev = RCacheHit) l0) as Hl0.
  { subst l0. destruct err; repeat constructor. }
  assert (forall ev, ev ∈ l0 -> ev = RLogError) as Hin0.
  { subst l0. intros ev H. destruct err; in_log H. done. }
  clearbody l0.
  destruct found; simpl.
  { split.
    - intros _. split; [|done]. apply Forall_app. split; [done|].
      apply Forall_singleton. by right.
    - log_cases Hin0. }
  split; [done|].
  rewrite overwrite_length, length_replicate.
  destruct (openSegments_Get E seg) eqn:Hget; simpl.
  - destruct (ci_ReadAt E seg (PartialExtent.Offset pe) n) as [[k rerr] stored] eqn:Hr.
    rewrite overwrite_length, overwrite_length, length_replicate.
    destruct rerr as [e|]; simpl; [log_cases Hin0|].
    destruct (Z.eqb_spec k (len (overwrite (overwrite (replicate n 0) st) stored)))
      as [Hk|Hk]; simpl; log_cases Hin0.
    + by rewrite !overwrite_length, length_replicate.
    + by exists stored.
  - destruct (sa_OpenSegment E seg) as [e|] eqn:Hopen; simpl; [log_cases Hin0|].
    destruct (ci_ReadAt E seg (PartialExtent.Offset pe) n) as [[k rerr] stored] eqn:Hr.
    rewrite overwrite_length, overwrite_length, length_replicate.
    destruct rerr as [e|]; simpl; [log_cases Hin0|].
    destruct (Z.eqb_spec k (len (overwrite (overwrite (replicate n 0) st) stored)))
      as [Hk|Hk]; simpl; log_cases Hin0.
    + by rewrite !overwrite_length, length_replicate.
    + by exists stored.
Qed.

Section Stitch.
Variable Clamp : Extent.t -> Extent.t -> option Extent.t.
Variable SubRange : RangeData.t -> Extent.t -> option (nat * nat).

Lemma same_shape_refl a : same_shape a a.
Proof. by repeat split. Qed.

Lemma stitch_shape pe src rngs : forall dest,
  same_shape (stitch Clamp SubRange pe src rngs dest).2 dest.
Proof.
  induction rngs as [|x rngs IH]; intros dest; simpl.
  { apply same_shape_refl. }
  destruct (Clamp _ x) as [overlap|]; [|apply same_shape_refl].
  destruct (SubRange dest overlap) as [[dlo dn]|]; [|apply same_shape_refl].
  destruct (SubRange src overlap) as [[slo sn]|]; [|apply same_shape_refl].
  destruct (IH (RangeData.mk (RangeData.Extent dest) (RangeData.blocks dest)
                  (list_inserts dlo (take dn (take sn (drop slo (RangeData.data src))))
                     (RangeData.data dest)))) as (He & Hb & Hl).
  simpl in *. split; [done|]. split; [done|]. by rewrite Hl, length_inserts.
Qed.

Lemma readPartialExtent_shape E pe rngs dataRange dest :
  same_shape (readPartialExtent Clamp SubRange E pe rngs dataRange dest).1.2 dest.
Proof.
  unfold readPartialExtent.
  destruct (fetch E pe) as [err log|rawData log]; [apply same_shape_refl|].
  destruct (decode E pe rawData) as [e|cooked]; [apply same_shape_refl|].
  match goal with
  | |- context [stitch Clamp SubRange pe ?src rngs dest] =>
      pose proof (stitch_shape pe src rngs dest) as Hs;
      destruct (stitch Clamp SubRange pe src rngs dest) as [err dest']
  end.
  exact Hs.
Qed.

(** X24: serving the read requests never resizes the buffer of the
    request: when no request fails the range returned has the extent, the
    block count and the number of bytes it started with; when one fails
    the error comes with the empty [RangeData] and no data at all. *)
Theorem ReadExtent_serve_all_or_nothing E reqs rng : forall data,
  match ReadExtent_serve Clamp SubRange E reqs rng data with
  | (None, data') => same_shape data' data
  | (Some _, data') => data' = RangeData.mk (Extent.mk 0 0) 0 []
  end.
Proof.
  induction reqs as [|[pe extents] reqs IH]; intros data; simpl.
  { apply same_shape_refl. }
  pose proof (readPartialExtent_shape E pe extents rng data) as Hs.
  destruct (readPartialExtent Clamp SubRange E pe extents rng data) as [[[e|] data1] log];
    [done|].
  simpl in Hs. specialize (IH data1).
  destruct (ReadExtent_serve Clamp SubRange E reqs rng data1) as [[e|] data2]; [done|].
  destruct IH as (He & Hb & Hl), Hs as (He' & Hb' & Hl').
  split; [congruence|]. split; congruence.
Qed.
End Stitch.
End ReadTraceFacts.

(** ** Joining clean path elements *)

Module filepathFacts.
Import filepath.

Example Clean_examples :
  Clean "volumes/a//objects" = "volumes/a/objects"%string /\
  Clean "volumes/../objects" = "objects"%string /\
  Clean "/../a/./b/.." = "/a"%string /\
  Clean "../../a" = "../../a"%string /\
  Clean "a/.." = "."%string /\
  Join ["volumes"; "a/"; "objects"]%string = "volumes/a/objects"%string /\
  Join [""; ""]%string = ""%string.
Proof. repeat split. Qed.

Lemma clean_element_spec e :
  clean_element e = true ->
  no_slash e = true /\ e <> ""%string /\ e <> "."%string /\ e <> ".."%string.
Proof.
  unfold clean_element. rewrite !andb_true_iff, !negb_true_iff, !String.eqb_neq. tauto.
Qed.

Lemma elements_no_slash e : no_slash e = true -> elements e = [e].
Proof.
  induction e as [|c e IH]; simpl; [done|].
  rewrite andb_true_iff, negb_true_iff. intros [-> He]. by rewrite IH.
Qed.

Lemma elements_app e rest :
  no_slash e = true -> elements (e ++ "/" ++ rest) = e :: elements rest.
Proof.
  induction e as [|c e IH]; simpl; [done|].
  rewrite andb_true_iff, negb_true_iff. intros [-> He]. by rewrite IH.
Qed.

Lemma elements_concat es :
  es <> [] -> Forall (fun e => no_slash e = true) es ->
  elements (String.concat "/" es) = es.
Proof.
  induction es as [|e es IH]; [done|]. intros _ Hes.
  apply Forall_cons in Hes as [He Hes]. destruct es as [|e' es].
  - simpl. by apply elements_no_slash.
  - change (String.concat "/" (e :: e' :: es))
      with (e ++ "/" ++ String.concat "/" (e' :: es))%string.
    rewrite elements_app by done. f_equal. by apply IH.
Qed.

Lemma keep_clean r es : forall out,
  Forall (fun e => clean_element e = true) es ->
  foldl (keep r) out es = out ++ es.
Proof.
  induction es as [|e es IH]; intros out Hes; simpl.
  { by rewrite app_nil_r. }
  apply Forall_cons in Hes as [He Hes].
  apply clean_element_spec in He as (_ & H1 & H2 & H3).
  apply String.eqb_neq in H1, H2, H3. unfold keep at 2. rewrite H1, H2, H3. simpl.
  rewrite IH by done. by rewrite <- app_assoc.
Qed.

(** Cleaning changes nothing in a path made of clean elements. *)
Lemma Clean_concat es :
  es <> [] -> Forall (fun e => clean_element e = true) es ->
  Clean (String.concat "/" es) = String.concat "/" es.
Proof.
  intros Hne Hes.
  assert (Forall (fun e => no_slash e = true) es) as Hns.
  { eapply Forall_impl; [exact Hes|]. intros e He. by apply clean_element_spec in He as [? _]. }
  destruct es as [|e es]; [done|]. clear Hne.
  pose proof (Forall_inv Hes) as He. apply clean_element_spec in He as (He0 & He1 & _).
  destruct e as [|c e]; [done|]. simpl in He0.
  apply andb_true_iff in He0 as [Hc _]. apply negb_true_iff in Hc.
  assert (exists t, String.concat "/" (String c e :: es) = String c t) as [t Ht].
  { destruct es; simpl; eauto. }
  assert (rooted (String.concat "/" (String c e :: es)) = false) as Hroot
    by (rewrite Ht; exact Hc).
  assert (String.eqb (String.concat "/" (String c e :: es)) "" = false) as Hnon
    by (rewrite Ht; reflexivity).
  unfold Clean. rewrite Hnon, Hroot, elements_concat by done.
  rewrite keep_clean by done. rewrite app_nil_l.
  by rewrite bool_decide_eq_false_2.
Qed.

(** On clean elements [filepath.Join] is the joining with slashes used in
    the models of [disk.go]. *)
Lemma Join_clean_elements es :
  Forall (fun e => clean_element e = true) es ->
  Join es = filepath_Join es.
Proof.
  intros Hes. unfold Join, filepath_Join.
  assert (filter (fun e => e <> ""%string) es = es) as ->.
  { induction es as [|e es IH]; [done|].
    apply Forall_cons in Hes as [He Hes].
    rewrite filter_cons. apply clean_element_spec in He as (_ & H1 & _).
    rewrite decide_True by done. by rewrite IH. }
  destruct es as [|e es]; [done|]. by apply Clean_concat.
Qed.
End filepathFacts.

(** ** The one object an index update writes *)

Module IndexKeyFacts.
Import S3 filepath.

Lemma index_key_Join vol :
  clean_element vol = true ->
  index_key vol = Join ["volumes"; vol; "objects"]%string /\
  index_key vol = ("volumes/" ++ vol ++ "/objects")%string.
Proof.
  intros Hvol. unfold index_key.
  rewrite filepathFacts.Join_clean_elements by (by repeat constructor).
  split; [done|]. unfold filepath_Join.
  apply filepathFacts.clean_element_spec in Hvol as (_ & Hne & _).
  rewrite !filter_cons, filter_nil.
  rewrite decide_True by done. rewrite decide_True by done. rewrite decide_True by done.
  reflexivity.
Qed.

Section Index.
Variable ReadSegments : list Z -> error + list SegmentId.
Variable clears : bool.

(** X10: for a volume whose name is a clean path element,
    [AppendToObjects] and [RemoveSegmentFromVolume] write the object
    [filepath.Join("volumes", vol, "objects")], which is
    [volumes/<vol>/objects], and no other: every other object of the bucket
    is as it was.  When listing the segments fails they return that error
    and the bucket is as it was; after a nil return the index object
    exists. *)
Theorem index_updates_touch_one_object F vol seg bucket :
  clean_element vol = true ->
  let key := Join ["volumes"; vol; "objects"]%string in
  let updates := [AppendToObjects ReadSegments F vol seg bucket;
                  RemoveSegmentFromVolume ReadSegments clears F vol seg bucket] in
  key = ("volumes/" ++ vol ++ "/objects")%string /\
  Forall (fun r : option error * gmap string (list Z) =>
            (forall k, k <> key -> r.2 !! k = bucket !! k) /\
            (forall e, ListSegments ReadSegments F vol bucket = inl e ->
                       r = (Some e, bucket)) /\
            (r.1 = None -> is_Some (r.2 !! key))) updates.
Proof.
  intros Hvol key updates. destruct (index_key_Join vol Hvol) as [Hkey Hstr].
  fold key in Hkey. split; [by rewrite <- Hkey|].
  assert (forall body, let r := Upload F (index_key vol) body bucket in
            (forall k, k <> key -> r.2 !! k = bucket !! k) /\
            (r.1 = None -> is_Some (r.2 !! key))) as Hup.
  { intros body. unfold Upload. rewrite Hkey.
    destruct (upload_err F _); simpl; [done|]. split.
    - intros k Hk. by rewrite lookup_insert_ne.
    - intros _. rewrite lookup_insert_eq. by eexists. }
  subst updates. apply Forall_cons. split; [|apply Forall_singleton].
  - unfold AppendToObjects.
    destruct (ListSegments ReadSegments F vol bucket) as [e|segs]; simpl.
    + split; [done|]. split; [by intros e' [= ->]|done].
    + destruct (Hup (index_bytes (segs ++ [seg]))) as [H1 H2]. by repeat split.
  - unfold RemoveSegmentFromVolume.
    destruct (ListSegments ReadSegments F vol bucket) as [e|segs]; simpl.
    + split; [done|]. split; [by intros e' [= ->]|done].
    + destruct (slices_DeleteFunc _ _ _ _) as [segs' rest].
      destruct (Hup (index_bytes segs')) as [H1 H2]. by repeat split.
Qed.
End Index.

Lemma index_updates_touch_one_object_witness :
  clean_element "vol" = true /\
  Join ["volumes"; "vol"; "objects"]%string = "volumes/vol/objects"%string /\
  Forall (fun r : option error * gmap string (list Z) =>
            (forall k, k <> Join ["volumes"; "vol"; "objects"]%string ->
                       r.2 !! k = Sample.bucket0 !! k) /\
            (forall e, ListSegments ReadSegments S3.no_faults "vol" Sample.bucket0 = inl e ->
                       r = (Some e, Sample.bucket0)) /\
            (r.1 = None -> is_Some (r.2 !! Join ["volumes"; "vol"; "objects"]%string)))
    [AppendToObjects ReadSegments S3.no_faults "vol" (replicate 16 3) Sample.bucket0;
     RemoveSegmentFromVolume ReadSegments true S3.no_faults "vol" (replicate 16 3)
       Sample.bucket0].
Proof.
  split; [reflexivity|].
  apply (index_updates_touch_one_object ReadSegments true S3.no_faults "vol"
           (replicate 16 3) Sample.bucket0 eq_refl).
Defined.
End IndexKeyFacts.

(** ** The layout of a segment, below four gigabytes and above *)

Module FlushLayoutFacts.
Import ObjectCreator Writer WriterFacts.

(** *** Writing many blocks that do not compress *)

Section ManyBlocks.
Variables (B N : nat).
Hypothesis HB : Z.of_nat B = BlockSize.
Hypothesis HN : Z.of_nat N <= 2 ^ 20.

Variable n : Z.
Hypothesis Hn : Z.to_nat n = N.

#[local] Abbreviation ext := (Extent.mk n (replicate (B * N) 1)).
#[local] Abbreviation after := (Sample6.after B).

Lemma BlockView_ones k :
  (k < N)%nat -> Z.to_nat BlockSize = B ->
  Extent.BlockView ext k = Some (replicate B 1).
Proof.
  intros Hk HBn. unfold Extent.BlockView. rewrite HBn. simpl.
  rewrite length_replicate.
  destruct (Nat.leb_spec (B * k + B) (B * N)) as [_|Hlt]; [|nia].
  f_equal. rewrite drop_replicate, take_replicate. f_equal. nia.
Qed.

Lemma emptyBytes_ones : Z.to_nat BlockSize = B -> emptyBytes (replicate B 1) = false.
Proof.
  intros HBn. unfold emptyBytes, emptyBlock. rewrite HBn.
  destruct B as [|b]; [unfold BlockSize in HB; lia|]. reflexivity.
Qed.

Lemma WriteExtent_iter_ones k :
  (k < N)%nat ->
  WriteExtent_iter Sample6.lz4 0 ext (after k) k = Next (after (S k)).
Proof.
  intros Hk.
  assert (Z.to_nat BlockSize = B) as HBn by lia.
  unfold WriteExtent_iter. rewrite (BlockView_ones k Hk HBn), (emptyBytes_ones HBn).
  unfold CompressBlock, Sample6.lz4.
  change (len (@nil Z)) with 0. cbn [Z.ltb Z.compare andb].
  assert (overwrite (buf (after k)) [] = buf (after k)) as ->.
  { unfold overwrite. rewrite app_nil_l. simpl drop. apply firstn_all. }
  unfold Buffer_Write, append, len, Sample6.after. cbn [body blocks cnt offset buf header].
  rewrite !length_replicate, length_fmap, length_seq.
  unfold maxInt.
  destruct (Z.leb_spec (Z.of_nat (B * k) + Z.of_nat B) (2 ^ 63 - 1)) as [_|Hbad];
    [|unfold BlockSize in HB; nia].
  destruct (Z.leb_spec (Z.of_nat k + 1) (2 ^ 63 - 1)) as [_|Hbad]; [|lia].
  f_equal. f_equal.
  - unfold int. rewrite Z.mod_small by lia. lia.
  - unfold uint64. rewrite (Z.mod_small (Z.of_nat B)) by (unfold BlockSize in HB; lia).
    rewrite Z.mod_small by (unfold BlockSize in *; nia). unfold BlockSize in *. lia.
  - rewrite seq_S, fmap_app. simpl. f_equal. f_equal. unfold Sample6.block. f_equal.
    + unfold uint64. rewrite Z.mod_small by lia. lia.
    + unfold uint64. rewrite Z.mod_small by (unfold BlockSize in HB; lia). done.
  - rewrite <- replicate_add. f_equal. lia.
Qed.

Lemma WriteExtent_loop_ones m : forall k,
  (k + m <= N)%nat ->
  WriteExtent_loop Sample6.lz4 0 ext (seq k m) (after k) = Returns None (after (k + m)).
Proof.
  induction m as [|m IH]; intros k Hk; simpl.
  { by rewrite Nat.add_0_r. }
  rewrite WriteExtent_iter_ones by lia. rewrite IH by lia. do 2 f_equal. lia.
Qed.

Lemma WriteExtent_ones :
  WriteExtent Sample6.lz4 0 ext zero = Returns None (after N).
Proof.
  unfold WriteExtent, Extent.Blocks. cbn [buf zero Extent.blocks]. rewrite Hn.
  assert (mk (cnt zero) (offset zero) (blocks zero) (replicate (Z.to_nat (2 * BlockSize)) 0)
            (header zero) (body zero) = after 0%nat) as ->.
  { unfold Sample6.after. rewrite Nat.mul_0_r. reflexivity. }
  apply (WriteExtent_loop_ones N 0%nat). lia.
Qed.
End ManyBlocks.

(** The sample creator is what [WriteExtent] leaves. *)
Lemma Sample6_WriteExtent :
  WriteExtent Sample6.lz4 0 Sample6.ext zero = Returns None Sample6.written.
Proof.
  unfold Sample6.ext, Sample6.written.
  apply (WriteExtent_ones (Z.to_nat BlockSize) Sample6.count).
  - unfold BlockSize. lia.
  - unfold Sample6.count. lia.
  - unfold Sample6.count. exact (eq_refl (Z.to_nat (2 ^ 20))).
Qed.

Lemma Sample6_reachable : reachable Sample6.lz4 Sample6.written.
Proof.
  eapply (reach_WriteExtent Sample6.lz4 0 Sample6.ext zero None).
  - apply reach_zero.
  - exact Sample6_WriteExtent.
Qed.

(** *** A header that fits is written *)

Lemma PutUvarint_loop_length fuel : forall x,
  (length (PutUvarint_loop fuel x) <= S fuel)%nat.
Proof.
  induction fuel as [|fuel IH]; intros x; cbn [PutUvarint_loop]; [simpl; lia|].
  destruct (128 <=? x); cbn [length]; [|lia]. specialize (IH (Z.shiftr x 7)). lia.
Qed.

Lemma PutUvarint_length x : len (PutUvarint x) <= 10.
Proof.
  unfold PutUvarint, len. pose proof (PutUvarint_loop_length 9 (uint64 x)). lia.
Qed.

Lemma header_record_length b : len (header_record b) <= 31.
Proof.
  unfold header_record, len. rewrite !length_app. cbn [length].
  pose proof (PutUvarint_length (ocBlock.lba b)).
  pose proof (PutUvarint_length (ocBlock.size b)).
  pose proof (PutUvarint_length (ocBlock.offset b)). unfold len in *. lia.
Qed.

Lemma header_records_bound bs : len (header_records bs) <= 31 * len bs.
Proof.
  unfold header_records, len.
  induction bs as [|b bs IH]; [done|].
  rewrite fmap_cons.
  change (mjoin (header_record b :: (header_record <$> bs)))
    with (header_record b ++ mjoin (header_record <$> bs)).
  rewrite length_app. change (length (b :: bs)) with (S (length bs)).
  pose proof (header_record_length b). unfold len in *. lia.
Qed.

Lemma Flush_header_fits bs : forall hdr,
  len hdr + 31 * len bs <= maxInt ->
  Flush_header bs hdr = Some (hdr ++ header_records bs).
Proof.
  induction bs as [|b bs IH]; intros hdr Hfit.
  { simpl. unfold header_records. simpl. by rewrite app_nil_r. }
  pose proof (PutUvarint_length (ocBlock.lba b)) as H1.
  pose proof (PutUvarint_length (ocBlock.size b)) as H2.
  pose proof (PutUvarint_length (ocBlock.offset b)) as H3.
  pose proof (len_nonneg (PutUvarint (ocBlock.lba b))).
  pose proof (len_nonneg (PutUvarint (ocBlock.size b))).
  pose proof (len_nonneg (PutUvarint (ocBlock.offset b))).
  pose proof (len_nonneg hdr). pose proof (len_nonneg bs).
  assert (len (b :: bs) = len bs + 1) as Hlen by (unfold len; simpl length; lia).
  rewrite Hlen in Hfit.
  assert (forall a p : list Z, len a + len p <= maxInt -> Buffer_Write a p = Some (a ++ p))
    as Hw.
  { intros a p Hap. unfold Buffer_Write. by destruct (Z.leb_spec (len a + len p) maxInt); [|lia]. }
  assert (forall a p : list Z, len (a ++ p) = len a + len p) as Happ.
  { intros a p. unfold len. rewrite length_app. lia. }
  cbn [Flush_header].
  rewrite Hw by lia. cbn [mbind option_bind].
  rewrite Hw by (rewrite Happ; change (len [ocBlock.flags b]) with 1; lia).
  cbn [mbind option_bind].
  rewrite Hw by (rewrite !Happ; change (len [ocBlock.flags b]) with 1; lia).
  cbn [mbind option_bind].
  rewrite Hw by (rewrite !Happ; change (len [ocBlock.flags b]) with 1; lia).
  cbn [mbind option_bind].
  rewrite IH by (rewrite !Happ; change (len [ocBlock.flags b]) with 1; lia).
  f_equal. unfold header_records. rewrite fmap_cons.
  change (mjoin (header_record b :: (header_record <$> bs)))
    with (header_record b ++ mjoin (header_record <$> bs)).
  unfold header_record. by rewrite <- !app_assoc.
Qed.

(** *** On a file system that works *)

Lemma Flush_reliable path seg w hdr :
  Flush_header (blocks (oc w)) (header (oc w)) = Some hdr ->
  exists w',
    Flush os.reliable path seg w = (FlushReturns None, w') /\
    lbas w' = Flush_install seg (uint32 (len hdr + 8)) (blocks (oc w)) (lbas w).
Proof.
  intros Hh. unfold Flush, Flush_body. rewrite Hh.
  cbn [os.create_err os.reliable].
  unfold File_Write at 1 2. cbn [os.write_err os.reliable].
  destruct hdr as [|x hdr]; destruct (body (oc w)) as [|y bd];
    cbn [io_Copy File_Write os.write_err os.reliable fst snd oc lbas files nwrites log];
    eexists; split; reflexivity.
Qed.

(** *** Above four gigabytes *)

(** With [2 ^ 20] blocks stored as they are, the entry installed for the
    last block has wrapped around. *)
Lemma last_entry_wraps B N path seg :
  Z.of_nat N = 2 ^ 20 ->
  last_for (2 ^ 20 - 1) (blocks (Sample6.after B N)) = Some Sample6.last_block /\
  exists w' e,
    Flush os.reliable path seg (mkWorld (Sample6.after B N) ∅ ∅ 0 [])
    = (FlushReturns None, w') /\
    lbas w' !! (2 ^ 20 - 1) = Some e /\
    PBA.Offset (objPBA.PBA e) < 2 ^ 32 /\
    2 ^ 32 <= 8 + len (header_records (blocks (Sample6.after B N)))
              + ocBlock.offset Sample6.last_block /\
    8 + len (header_records (blocks (Sample6.after B N))) < 2 ^ 32.
Proof.
  intros HN. cbn [blocks Sample6.after].
  set (bs := Sample6.block <$> seq 0 N).
  assert (len bs = 2 ^ 20) as Hlen.
  { unfold len, bs. rewrite length_fmap, length_seq. exact HN. }
  assert (last_for (2 ^ 20 - 1) bs = Some Sample6.last_block) as Hlast.
  { destruct N as [|c]; [simpl in HN; lia|].
    unfold bs. rewrite seq_S, fmap_app. simpl. rewrite FlushFacts.last_for_snoc.
    unfold Sample6.block at 1. cbn [ocBlock.lba].
    destruct (decide (Z.of_nat c = 2 ^ 20 - 1)) as [_|Hne]; [|lia].
    f_equal. unfold Sample6.block, Sample6.last_block.
    replace (Z.of_nat c) with (2 ^ 20 - 1) by lia.
    replace (BlockSize * (2 ^ 20 - 1)) with (2 ^ 32 - BlockSize) by (unfold BlockSize; lia).
    reflexivity. }
  split; [exact Hlast|].
  pose proof (HeaderReadingFacts.header_records_length bs) as Hlo.
  pose proof (header_records_bound bs) as Hhi.
  rewrite Hlen in Hlo, Hhi.
  destruct (Flush_reliable path seg (mkWorld (Sample6.after B N) ∅ ∅ 0 [])
              ([] ++ header_records bs)) as (w' & Hf & Hm).
  { cbn [oc blocks header Sample6.after]. fold bs. apply Flush_header_fits.
    rewrite Hlen. unfold maxInt. change (len (@nil Z)) with 0. lia. }
  exists w', (map_entry seg (uint32 (len ([] ++ header_records bs) + 8)) Sample6.last_block).
  split; [exact Hf|]. split.
  { rewrite Hm. cbn [oc blocks lbas Sample6.after]. fold bs.
    by rewrite FlushFacts.Flush_install_lookup, Hlast. }
  cbn [map_entry objPBA.PBA PBA.Offset]. split.
  { unfold uint32 at 1. apply Z.mod_pos_bound. lia. }
  unfold Sample6.last_block. cbn [ocBlock.offset]. unfold BlockSize. lia.
Qed.

(** C5, as it is worded, fails above four gigabytes.  The creator is the
    one [WriteExtent] leaves after [2 ^ 20] blocks that do not compress
    were written to the zero value; its body has [2 ^ 32] bytes and the
    last block lies at [2 ^ 32 - 4096].  [Flush] returns nil, and the
    entry it installs for that block does not carry the start of the data
    plus the offset of the block, which no 32-bit field can hold. *)
Lemma Flush_layout_counterexample :
  WriteExtent Sample6.lz4 0 Sample6.ext zero = Returns None Sample6.written /\
  reachable Sample6.lz4 Sample6.written /\
  last_for (2 ^ 20 - 1) (blocks Sample6.written) = Some Sample6.last_block /\
  exists w' e,
    Flush os.reliable "seg" Sample.seg1 Sample6.world = (FlushReturns None, w') /\
    lbas w' !! (2 ^ 20 - 1) = Some e /\
    PBA.Offset (objPBA.PBA e)
    <> 8 + len (header_records (blocks Sample6.written))
       + ocBlock.offset Sample6.last_block /\
    PBA.Offset (objPBA.PBA e)
    <> uint32 (8 + len (header_records (blocks Sample6.written)))
       + ocBlock.offset Sample6.last_block.
Proof.
  split; [exact Sample6_WriteExtent|]. split; [exact Sample6_reachable|].
  assert (Z.of_nat Sample6.count = 2 ^ 20) as HN by (unfold Sample6.count; lia).
  unfold Sample6.world, Sample6.written.
  destruct (last_entry_wraps (Z.to_nat BlockSize) Sample6.count "seg" Sample.seg1 HN)
    as (Hlast & w' & e & Hf & He & Hlt & Hge & Hdb).
  split; [exact Hlast|]. exists w', e. split; [exact Hf|]. split; [exact He|].
  split; [lia|].
  unfold uint32 at 1. rewrite Z.mod_small; [lia|].
  pose proof (len_nonneg (header_records (blocks (Sample6.after (Z.to_nat BlockSize) Sample6.count)))).
  lia.
Qed.

(** *** Below four gigabytes *)

(** What a file of that layout reads back as. *)
Lemma segment_reads_back bs body :
  Forall HeaderReading.in_range bs ->
  8 + len (header_records bs) < 2 ^ 32 ->
  let file := PutUint32 (len bs) ++ PutUint32 (8 + len (header_records bs))
                ++ header_records bs ++ body in
  Uint32 (take 4 file) = len bs /\
  Uint32 (take 4 (drop 4 file)) = 8 + len (header_records bs) /\
  HeaderReading.read_segment file = (bs, body).
Proof.
  intros Hrange Hsmall file. set (hdr := header_records bs) in *.
  pose proof (HeaderReadingFacts.header_records_length bs) as Hlen. fold hdr in Hlen.
  pose proof (len_nonneg bs) as Hbs.
  assert (Uint32 (take 4 file) = len bs) as Hc.
  { unfold file.
    rewrite (take_app_length' _ _ 4 (eq_sym (SegmentFileFacts.PutUint32_length _))).
    rewrite Uint32_PutUint32. apply Z.mod_small. lia. }
  assert (Uint32 (take 4 (drop 4 file)) = 8 + len hdr) as Hd.
  { unfold file.
    rewrite (drop_app_length' _ _ 4 (eq_sym (SegmentFileFacts.PutUint32_length _))).
    rewrite (take_app_length' _ _ 4 (eq_sym (SegmentFileFacts.PutUint32_length _))).
    rewrite Uint32_PutUint32. apply Z.mod_small. lia. }
  split; [exact Hc|]. split; [exact Hd|].
  unfold HeaderReading.read_segment. rewrite Hc, Hd. f_equal.
  - replace (drop 8 file) with (hdr ++ body).
    2:{ unfold file. rewrite app_assoc. symmetry. apply drop_app_length'.
        rewrite length_app, !SegmentFileFacts.PutUint32_length. done. }
    rewrite take_app_length' by (unfold len; lia).
    unfold len. rewrite Nat2Z.id.
    rewrite <- (app_nil_r hdr). subst hdr.
    by rewrite HeaderReadingFacts.records_split_header_records.
  - unfold file. rewrite !app_assoc. apply drop_app_length'.
    rewrite !length_app, !SegmentFileFacts.PutUint32_length. unfold len. lia.
Qed.

Section WithLz4.
Variable lz4 : list Z -> nat -> error + list Z.

(** C5: for a segment below four gigabytes, header and body together,
    the file [Flush] writes is the big-endian u32 count of the recorded
    blocks, the big-endian u32 data_begin, equal to 8 plus the bytes of the
    header records, then for each block the varint of its lba, its flags
    byte, the varint of its size and the varint of its offset, then the
    body; read back, the file gives these very values.  The map entry
    installed for a block carries data_begin plus the offset of the block
    in the body, with the flags and the size of the block. *)
Theorem Flush_layout_below_4GiB fs path seg w w' :
  reachable lz4 (oc w) ->
  Flush fs path seg w = (FlushReturns None, w') ->
  8 + len (header_records (blocks (oc w))) + len (body (oc w)) < 2 ^ 32 ->
  let bs := blocks (oc w) in
  let dataBegin := 8 + len (header_records bs) in
  let file := PutUint32 (len bs) ++ PutUint32 dataBegin ++ header_records bs
                ++ body (oc w) in
  files w' !! path = Some file /\
  Uint32 (take 4 file) = len bs /\
  Uint32 (take 4 (drop 4 file)) = dataBegin /\
  header_records bs
  = mjoin ((fun b => PutUvarint (ocBlock.lba b) ++ [ocBlock.flags b]
                       ++ PutUvarint (ocBlock.size b) ++ PutUvarint (ocBlock.offset b))
             <$> bs) /\
  HeaderReading.read_segment file = (bs, body (oc w)) /\
  forall lba,
    lbas w' !! lba
    = match last_for lba bs with
      | Some b =>
          Some (objPBA.mk (PBA.mk seg (dataBegin + ocBlock.offset b))
                  (ocBlock.flags b) (ocBlock.size b))
      | None => lbas w !! lba
      end.
Proof.
  intros Hr Hf Hsmall bs dataBegin file.
  pose proof (HeaderReadingFacts.reachable_in_range lz4 _ Hr) as Hrange. fold bs in Hrange.
  apply reachable_inv in Hr.
  apply FlushFacts.Flush_nil in Hf as [Hfile Hmap].
  destruct Hr as [Hcnt _ Hb _ Hh _ _ _]. rewrite Hh, Hcnt in Hfile. rewrite Hh in Hmap.
  cbn [app] in Hfile, Hmap. fold bs in Hfile, Hmap, Hb, Hsmall.
  set (hdr := header_records bs) in *.
  pose proof (HeaderReadingFacts.header_records_length bs) as Hlen. fold hdr in Hlen.
  pose proof (len_nonneg bs) as Hbs. pose proof (len_nonneg hdr) as Hhdr.
  pose proof (len_nonneg (body (oc w))) as Hbody.
  assert (uint32 (len bs) = len bs) as Hc by (apply Z.mod_small; lia).
  assert (uint32 (len hdr + 8) = dataBegin) as Hd
    by (unfold dataBegin; rewrite Z.add_comm; apply Z.mod_small; lia).
  rewrite Hc, Hd in Hfile. rewrite Hd in Hmap.
  destruct (segment_reads_back bs (body (oc w)) Hrange ltac:(fold hdr; lia))
    as (H1 & H2 & H3).
  split; [exact Hfile|]. split; [exact H1|]. split; [exact H2|].
  split; [reflexivity|]. split; [exact H3|].
  intros lba. rewrite Hmap, FlushFacts.Flush_install_lookup.
  destruct (last_for lba bs) as [b|] eqn:Hl; [|done].
  assert (b ∈ bs) as Hin.
  { unfold last_for in Hl. by apply last_Some_elem_of, list_elem_of_filter in Hl as [_ ?]. }
  rewrite Forall_forall in Hb. destruct (Hb _ Hin) as (He & Hn & _).
  assert (0 <= ocBlock.size b <= BlockSize /\ 0 <= ocBlock.offset b <= len (body (oc w)))
    as [Hsz Hoff].
  { destruct (decide (ocBlock.flags b = Empty)) as [E|E].
    - destruct (He E) as [-> ->]. unfold BlockSize. lia.
    - destruct (Hn E) as (? & ? & ? & ?). lia. }
  unfold map_entry. do 3 f_equal.
  - unfold uint32. rewrite (Z.mod_small (ocBlock.offset b)) by lia.
    apply Z.mod_small. unfold dataBegin. lia.
  - apply Z.mod_small. unfold BlockSize in *. lia.
Qed.
End WithLz4.

Lemma Flush_layout_below_4GiB_witness :
  reachable Sample.lz4 (oc Sample.world0) /\
  Flush os.reliable "seg" Sample.seg1 Sample.world0 = (FlushReturns None, Sample.flushed.2) /\
  8 + len (header_records (blocks (oc Sample.world0))) + len (body (oc Sample.world0))
  < 2 ^ 32 /\
  files Sample.flushed.2 !! "seg"%string
  = Some (PutUint32 (len (blocks (oc Sample.world0)))
            ++ PutUint32 (8 + len (header_records (blocks (oc Sample.world0))))
            ++ header_records (blocks (oc Sample.world0)) ++ body (oc Sample.world0)).
Proof.
  split; [exact WriterRefinement.written_reachable|].
  split; [vm_compute; reflexivity|].
  split; [vm_compute; reflexivity|].
  apply (Flush_layout_below_4GiB Sample.lz4 os.reliable "seg" Sample.seg1
           Sample.world0 Sample.flushed.2).
  - exact WriterRefinement.written_reachable.
  - vm_compute; reflexivity.
  - vm_compute; reflexivity.
Defined.
End FlushLayoutFacts.
